(* ===== verification/_CoqProject ===== *)
-Q . S2P
Prelude.v
Steps.v
Float64.v
Oracle.v
Guard.v
IncSet.v
Dlasr.v
ChiSquared.v
Driver.v
