(* ===== verification/Prelude.v ===== *)
(** * Verification of the gonum test harnesses: prelude and overview

    ** The program

    The repository holds three pieces of gonum's test code.

    - [src/internal/asm/f64/asm_test.go]: the support of the tests of the
      vector kernels.  The builders [newGuardedVector], [guardVector] and
      [guardIncVector] lay a vector out at a stride inside an allocation
      padded with sentinels; the validators [allNaN], [equalStrided],
      [nonStridedWrite], [isValidGuard] and [checkValidIncGuard] look for
      sentinels a kernel destroyed; [sameApprox] compares two values within
      a tolerance; [newIncSet], [newIncToSet] and the [align] sets enumerate
      the configurations to try; [randomSlice] and [randSlice] draw inputs.
    - [src/lapack/testlapack/dlasr.go]: [DlasrTest].  For every side, pivot
      policy, direction and size it draws a matrix and a sequence of plane
      rotations, lets the implementation under test apply them, builds the
      product [P] of the explicit rotation matrices [P_k], multiplies by
      [P] and compares.
    - [src/unnamed/part_000]: the tests of the chi-squared distribution.
      [TestChiSquaredProb] and [TestChiSquaredCDF] compare the density and
      the distribution function with tabulated values; [TestChiSquared]
      draws a million samples of each of three distributions from one
      source and runs checks on them.

    A test drives an enumerator, builds its inputs with a builder or from
    the random source, calls the routine under test, and judges the result
    with a validator and the oracle.

    ** The files

    - [Prelude] (this file): what Go gives the code.  A panic is a value of
      the [result] monad; an [int] is a [Z] wrapped to 64 bits by [Int.add],
      [Int.sub], [Int.mul] and [Int.neg], with [Int.quot] and [Int.rem]
      panicking on zero; a slice is the list of its elements, with [index],
      [store], [make], [subslice] and [copy] panicking where Go does; slices
      that share an allocation are [window]s of one list; [range_from],
      [range_find] and [for_lt] are the [for] loops.  The lemmas give each
      operation on each branch, and closed forms for the loops that fill a
      slice, store at a stride ([scatter], [interleave]), fill block after
      block ([range_from_blocks]), write a row-major matrix ([mat]), store
      the values of a source one after the other ([drawn]) or append what
      they reject to a log ([foldl_reject]); a loop is [Proper] in its
      body.  The hint databases [go] and [go_len] close the side conditions
      on lengths.
    - [Steps]: the same loops as transition systems.  A state [Loop i l st]
      holds the index of the next iteration, the elements left and the
      value carried; [step body] runs the body once, and a panic of the body
      is a state that does not step.  The lemmas relate a run to
      [range_from] and give determinism, termination of every run, the
      invariant rule and, for a body that returns, progress and the turn of
      every element.
    - [Float64]: [float64] as the binary64 format of the Standard Library's
      [SpecFloat], with the comparisons, the arithmetic, [math.Abs],
      [math.Max] and decimal literals; [zero_or_nan] classifies a sum of
      products with zero.
    - [Oracle]: [sameApprox], over [scalar.Same], [scalar.EqualWithinAbs],
      [scalar.EqualWithinRel], [scalar.EqualWithinAbsOrRel] and
      [floats.EqualApprox], which are gonum packages outside [src/].
    - [Guard]: the builders and the validators, one definition per function
      of [asm_test.go], and a trial ([guardedTrial]) of a kernel, which is a
      function on the memory around the slice it is handed.
    - [IncSet]: the enumerators and the alignment sets, the random slices
      over the interface [Rand] of the source, and [replay], a source that
      plays a recorded stream.
    - [Dlasr]: [DlasrTest], cut at the comments of the source into
      [randomMatrix], [randomRotations], [identityInit], [setPk],
      [composeP], [buildP], [DlasrTrial], [logTrial] and [DlasrTest], over
      the interfaces [Dlasrer] (the routine under test), [Gemmer] (the dense
      product) and [Trig] (sine and cosine), with the reference product
      [gemm_ref].  [DlasrerOk] and [GemmerOk] say that neither changes the
      length of a slice, [DlasrerTotal] and [GemmerTotal] that each returns
      on sizes that fit, [DlasrerKeeps] that the routine leaves [c] and [s]
      as given.  [blamed] says a panic is one of the routine or of the
      product, on sizes that fit, and [blameless] carries that through the
      binds of a trial.
    - [ChiSquared]: the two tables and their comparison, [generateSamples],
      the checks and [TestChiSquared], over the interfaces [Distribution]
      (the methods of [distuv.ChiSquared]) and [SampleChecks] (the sort and
      the six checks of the samples, a method each, with the arguments of
      the call).
    - [Driver]: [DlasrTest] as an instance of [Steps]: the state
      [dlasrInit] before the first row and the step [dlasrStep] of one row.
      It is a second reading of the loop of [DlasrTest], not a translation of
      further code.

    ** The theorems

    - Builders: [newGuardedVector_layout], [guardVector_layout] and
      [guardIncVector_layout] give the allocation each builder returns;
      [newGuardedVector_empty_panics] is the input on which the first
      panics, [newGuardedVector_min_int] what it does at the stride
      [math.MinInt64], whose negation wraps around: no guards for one
      datum, a panic for any other number of data.
    - Well-formedness: [newGuardedVector_wf] says the three windows of a
      guarded vector tile its allocation ([wf_guarded]), before and after a
      kernel that keeps to its footprint.
    - Validators: [nonStridedWrite_spec], [equalStrided_true_iff],
      [isValidGuard_spec] and [checkValidIncGuard_spec] equate each
      validator with a definition without loops or panics;
      [isValidGuard_guardVector], [checkValidIncGuard_fresh] and
      [identity_kernel_passes] say a fresh vector passes.
    - Trials: [confined_kernel_clean] (a kernel that keeps to its strided
      footprint is never reported) and [stray_write_detected] (a value other
      than NaN left anywhere else in the allocation is).
    - What [checkValidIncGuard] misses: [isInputSlot_bound_vacuous],
      [checkValidIncGuard_blind], [checkValidIncGuard_unit_stride], against
      what it finds, [checkValidIncGuard_detects]; and
      [checkValidIncGuard_back_first]: the first slot of the back guard is
      reported as internal.
    - Oracle: [sameApprox_refl], [sameApprox_sym], [sameApprox_NaN].
    - Random inputs of a trial: [randomMatrix_eq] and
      [randomRotations_spec] give the matrix and the sines and cosines as
      the next values of the source.
    - Enumerators: [newIncSet_spec] and [newIncToSet_spec] equate the loops
      with the Cartesian product in lexicographic order; [newIncSet_lookup],
      [newIncToSet_lookup], [newIncSet_complete], [newIncSet_NoDup] and
      [align_sets] follow.
    - Random slices: [randSlice_spec], [randSlice_unit_interval],
      [randSlice_sequential], [randSlice_empty_panics].
    - Rotation matrices: [setPk_spec] gives [P_k] entry by entry
      ([rotation]) for the three pivot policies; [setPk_Bottom_first] is the
      degenerate first rotation of the bottom pivot; [setPk_transpose] says
      the opposite angle gives the transpose.
    - Composition: [buildP_spec] equates the loop that carries [p], [pk]
      and [ptmp] with the recursion [composeRef] on one matrix, over any
      product that keeps the laws of [GemmerOk]; [buildP_no_rotations] is
      its base case.  [buildP_trivial] computes it on the reference
      product for rotations by no angle (cosines one, sines a zero of
      either sign): the matrices [P_k] are then the identity up to the sign
      of their zeros ([idlike]), every sum of the product starts from the
      positive zero, and [P] is the identity exactly.
    - The test: [DlasrTest_flat] flattens the four loops into one over the
      72 configurations; [DlasrTrial_blind] says the verdict of a trial
      does not depend on what the implementation leaves in [a], because
      the source copies the zero slice [aCopy] over [a] before and after
      the call, and [DlasrTest_agree] lifts this to the whole test, for
      implementations equivalent under [agree_impl];
      [DlasrTest_still_passes] shows that with sines zero and cosines one
      the test passes every implementation that keeps [c] and [s], on every
      source; [DlasrTrial_refines] says a trial is the abstract trial
      [trialZero], which hands the implementation a zero matrix and
      compares the product of [P] ([trialP]) and a zero matrix with zeros;
      [DlasrTrial_verdict] says what the verdict then is with the
      reference product: whether every entry of [P] is finite.
    - Panics: [DlasrTest_returns] says no trial of the table panics, for
      any implementation and product that return on sizes that fit
      ([trial_fits], which holds of the whole table);
      [DlasrTest_panic_origin] says that a panic of the test is always one
      of the implementation or of the product ([blamed]): the harness
      itself stays within bounds.
    - Runs: [DlasrTest_log_invariant] is the invariant of the log, by rule
      induction on the run: rows already tried, in table order, and with
      the reference product only rows whose [P] has an entry that is not
      finite; [DlasrTest_live] says every row gets its turn and the run
      goes on to the end, for an implementation and a product that return.
    - Chi-squared: [TestChiSquared_passes] says what [TestChiSquared]
      accepts ([accepts]): the six checks at the tolerances, the bin count
      and the bounds of the source, on the sorted samples of each
      distribution, drawn from one source in turn, and the three inline
      conditions; [TestChiSquaredProb_spec] and [TestChiSquaredCDF_passes]
      say which rows the table tests log; [tables_bits] gives the tables
      bit for bit; [inlineChecks_expected] and [inlineChecks_NaN] are the
      inline checks on the distribution the test expects and on a NaN
      parameter.

    Every theorem with hypotheses is applied to a concrete input in the
    last section of its file.

    ** Bounds

    Integers are kept at 64 bits.  The theorems on the builders assume that
    the sizes the code computes fit an [int] ([fits], [fitsNew], or the
    explicit bound in the statement), which holds for every allocation that
    can exist; running out of memory is not modelled.  Lengths of slices are
    bounded by [Int.max_int] where a theorem needs it.  No definition uses
    fuel: every loop of the code is a [for] over a slice or a counting loop
    whose bound is fixed on entry, so [range_from], [range_find] and
    [for_lt] are structural recursions and every model is a total
    function.  The million samples of [testChiSquared] are never computed:
    its theorems are proved with the number of samples left unevaluated.

    ** Not modelled

    - The kernels under test, the implementations of [Dlasr], the random
      generator, [math.Sin], [math.Cos] and [blas64.Gemm] are not in
      [src/]: they are interfaces, with the stand-ins [scalInc],
      [strayStore], [idle], [scribble], [faulty], [replay], [still],
      [quarter], [wild] and [gemm_ref] to run the models on.  The sources
      [rand.New(rand.NewPCG(1, 1))] of [DlasrTest] and [TestChiSquared] are
      parameters: the theorems hold for every source.
    - [gemm_ref] sums every term of a product, in index order.  A product
      that skips the terms with a zero factor, as an optimised one may,
      lets fewer NaNs and infinities through; the theorems that speak of a
      matrix [P] that is not finite ([DlasrTrial_verdict],
      [DlasrTest_log_invariant]) are theorems of [gemm_ref].
    - The capacity of a slice: a slice expression is bounded by the length
      of its operand, where Go bounds it by the capacity.  No code under
      study appends or reslices past a length, and every slice sliced is one
      whose capacity is its length.  [make] allocates any length that is
      not negative: running out of memory is not modelled.
    - NaN payloads and the sign of NaN: the code only tests NaN-ness.
    - The text of the reports of [t.Errorf]; a report is a value of
      [violation] or of [chiError].  The report of [DlasrTest] names no
      configuration; the model logs the configuration of the failed trial,
      so that theorems can say which trials fail.
    - The chi-squared distribution itself, [sort.Float64s] and the six
      checks of the samples ([checkMean] and the like) are not in [src/]:
      they are the interfaces [Distribution] and [SampleChecks], with the
      stand-ins [expected] and [noChecks].  [generateSamples] is modelled
      as one draw per slot, [sort.Float64s] has no law, and a check is a
      total boolean, whether it logs: a check that panics or logs more than
      once is not modelled.
    - [t.Parallel()]: each test is modelled run on its own.
*)
From Stdlib Require Import ZArith Lia.
From stdpp Require Import prelude.

#[local] Open Scope Z_scope.

(** ** Run-time panics and the [result] monad

    Go code that indexes a slice out of range, slices with bad bounds, calls
    [make] with a negative length or divides an integer by zero panics; a
    library routine panics of its own accord on arguments it refuses
    ([Raised]).  A panicking computation is a value [Panic p]; a returning
    one is [Ok a]. *)

Inductive panic : Type :=
| IndexOutOfRange
| SliceBoundsOutOfRange
| MakeSliceLenOutOfRange
| IntegerDivideByZero
| Raised.

Inductive result (A : Type) : Type :=
| Ok (a : A)
| Panic (p : panic).

Arguments Ok {A} a.
Arguments Panic {A} p.

#[export] Instance panic_eq_dec : EqDecision panic.
Proof. solve_decision. Defined.

#[export] Instance result_eq_dec `{EqDecision A} : EqDecision (result A).
Proof. solve_decision. Defined.

#[export] Instance result_ret : MRet result := @Ok.

#[export] Instance result_bind : MBind result :=
  λ A B f m, match m with Ok a => f a | Panic p => Panic p end.

#[export] Instance result_fmap : FMap result :=
  λ A B f m, match m with Ok a => Ok (f a) | Panic p => Panic p end.

Definition is_Ok {A} (m : result A) : Prop := ∃ a, m = Ok a.

#[export] Instance is_Ok_dec {A} (m : result A) : Decision (is_Ok m).
Proof.
  refine (match m with Ok a => left _ | Panic p => right _ end);
    [by exists a | by intros [? ?]].
Defined.

(** [result_simpl] unfolds the monad operations of [result] wherever they meet
    a constructor; [result_inv] also splits every bind found in a hypothesis. *)
Ltac result_simpl :=
  cbn [mbind mret fmap result_bind result_ret result_fmap] in *;
  repeat change (@mret result result_ret ?A) with (@Ok A) in *.

(** ** Go's [int]: 64-bit two's complement

    Arithmetic on [int] wraps around silently; [/] and [%] truncate toward
    zero and panic on a zero divisor. *)
Module Int.

Definition min_int : Z := - 2 ^ 63.
Definition max_int : Z := 2 ^ 63 - 1.

Definition wrap (z : Z) : Z := (z + 2 ^ 63) `mod` 2 ^ 64 - 2 ^ 63.

Definition in_range (z : Z) : Prop := min_int ≤ z ≤ max_int.

Definition add (x y : Z) : Z := wrap (x + y).
Definition sub (x y : Z) : Z := wrap (x - y).
Definition mul (x y : Z) : Z := wrap (x * y).
Definition neg (x : Z) : Z := wrap (- x).

Definition quot (x y : Z) : result Z :=
  if decide (y = 0) then Panic IntegerDivideByZero else Ok (wrap (x `quot` y)).

Definition rem (x y : Z) : result Z :=
  if decide (y = 0) then Panic IntegerDivideByZero else Ok (x `rem` y).

End Int.

#[export] Instance int_in_range_dec z : Decision (Int.in_range z).
Proof. unfold Int.in_range. apply _. Defined.

Declare Scope go_scope.
Delimit Scope go_scope with go.
Notation "x ⊞ y" := (Int.add x y) (at level 50, left associativity) : go_scope.
Notation "x ⊟ y" := (Int.sub x y) (at level 50, left associativity) : go_scope.
Notation "x ⊠ y" := (Int.mul x y) (at level 40, left associativity) : go_scope.
#[local] Open Scope go_scope.

(** ** Slices

    A slice value is modelled by the list of its elements; its capacity is
    its length.  Where several slices share one backing array (the three
    results of [newGuardedVector]) the array is a list and each slice a
    [window] of it, so a write through one slice is seen through the others. *)
Section slices.
Context {A : Type}.
Implicit Types (s mem : list A) (i n lo hi : Z) (x : A).

Definition len s : Z := Z.of_nat (length s).

(** [s[i]] *)
Definition index s i : result A :=
  if decide (0 ≤ i) then from_option Ok (Panic IndexOutOfRange) (s !! Z.to_nat i)
  else Panic IndexOutOfRange.

(** [s[i] = x] *)
Definition store s i x : result (list A) :=
  if decide (0 ≤ i < len s) then Ok (<[Z.to_nat i := x]> s)
  else Panic IndexOutOfRange.

(** [make([]T, n)]: [n] copies of the zero value. *)
Definition make (zero : A) n : result (list A) :=
  if decide (0 ≤ n) then Ok (replicate (Z.to_nat n) zero)
  else Panic MakeSliceLenOutOfRange.

(** [s[lo:hi]], as a value: [slice_of] is its contents when the bounds are
    right. *)
Definition slice_of s lo hi : list A :=
  take (Z.to_nat (hi - lo)) (drop (Z.to_nat lo) s).

Definition subslice s lo hi : result (list A) :=
  if decide (0 ≤ lo ≤ hi ∧ hi ≤ len s) then Ok (slice_of s lo hi)
  else Panic SliceBoundsOutOfRange.

(** [copy(dst, src)]: the first [min (len dst) (len src)] elements of [dst]
    are overwritten; the result is the new contents of [dst]. *)
Definition copy (dst src : list A) : list A :=
  take (length dst) src ++ drop (length src) dst.

(** A window [mem[off : off+len]] of a backing array. *)
Record window : Type := Window { w_off : Z; w_len : Z }.

Definition window_of mem lo hi : result window :=
  if decide (0 ≤ lo ≤ hi ∧ hi ≤ len mem) then Ok (Window lo (hi - lo))
  else Panic SliceBoundsOutOfRange.

Definition view mem (w : window) : list A :=
  take (Z.to_nat (w_len w)) (drop (Z.to_nat (w_off w)) mem).

(** [v[i] = x] through the window [w]: bounds are those of the window. *)
Definition store_at mem (w : window) i x : result (list A) :=
  if decide (0 ≤ i < w_len w) then Ok (<[Z.to_nat (w_off w + i) := x]> mem)
  else Panic IndexOutOfRange.

(** [copy(w, src)] where [w] is a window of [mem]: the new contents of [mem]. *)
Definition copy_at mem (w : window) (src : list A) : list A :=
  take (Z.to_nat (w_off w)) mem ++ copy (view mem w) src
    ++ drop (Z.to_nat (w_off w + w_len w)) mem.

(** ** Loops

    [range_from body i l st] is [for j, x := range l { st = body (i+j) x st }];
    [range_find p i l] is a loop over [l] that returns [true] at the first
    element for which [p] does and [false] when it runs to the end. *)
Fixpoint range_from {S : Type} (body : Z → A → S → result S)
    (i : Z) (l : list A) (st : S) : result S :=
  match l with
  | [] => Ok st
  | x :: l' => st' ← body i x st; range_from body (i + 1) l' st'
  end.

Fixpoint range_find (p : Z → A → result bool) (i : Z) (l : list A) : result bool :=
  match l with
  | [] => Ok false
  | x :: l' => b ← p i x; if b : bool then Ok true else range_find p (i + 1) l'
  end.

End slices.

(** [for_lt lo hi body st] is the counting loop
    [for i := lo; i < hi; i++ { st = body i st }], whose body leaves [i]
    alone: [hi - lo] iterations. *)
Definition for_lt {S : Type} (lo hi : Z) (body : Z → S → result S) (st : S) : result S :=
  range_from (λ i (_ : unit), body i) lo (replicate (Z.to_nat (hi - lo)) ()) st.

Arguments window : clear implicits.

(** ** Scattered writes and interleaving

    [scatter f g i l w] is the array left by the loop
    [for j, v := range l { w[f(i+j)] = g(i+j, v) }] once every index is known
    to be in range; [interleave l a fill] lays the elements of [l] out at
    stride [a], each followed by [a-1] copies of [fill]. *)
Section scatter_def.
Context {A B : Type}.

Fixpoint scatter (f : Z → nat) (g : Z → A → B) (i : Z) (l : list A) (w : list B) : list B :=
  match l with
  | [] => w
  | v :: l' => scatter f g (i + 1) l' (<[f i := g i v]> w)
  end.

Fixpoint interleave (l : list A) (a : nat) (fill : A) : list A :=
  match l with
  | [] => []
  | d :: l' => d :: replicate (a - 1) fill ++ interleave l' a fill
  end.

End scatter_def.

(** ** Row-major square matrices

    [mat n f] is the data of the [n]×[n] matrix whose entry [(i, j)] is
    [f i j], row after row; [upd f i0 j0 x] is [f] with the entry
    [(i0, j0)] replaced by [x]. *)
Section matrix_def.
Context {A : Type}.
Implicit Types (f g : Z → Z → A) (x : A).

Definition mat (n : Z) f : list A :=
  (λ p, f (p `div` n) (p `mod` n)) <$> seqZ 0 (n * n).

Definition upd f (i0 j0 : Z) x : Z → Z → A :=
  λ i j, if decide (i = i0 ∧ j = j0) then x else f i j.
End matrix_def.

(** ** Streams

    A source of values is a state [r] with a step [next r] that gives a
    value and the state after it.  [drawn next k r] is the first [k] values
    of the source and the state after them: what a loop that stores one value
    per iteration leaves. *)
Section stream_def.
Context {A G : Type} (next : G → A * G).

Fixpoint drawn (k : nat) (r : G) : list A * G :=
  match k with
  | O => ([], r)
  | S k => let '(v, r) := next r in
           let '(l, r) := drawn k r in (v :: l, r)
  end.
End stream_def.


(** ** Lemmas: the [result] monad *)
Lemma result_bind_Ok {A B} (x : A) (f : A → result B) : Ok x ≫= f = f x.
Proof. reflexivity. Qed.

Lemma result_bind_Panic {A B} e (f : A → result B) : Panic e ≫= f = Panic e.
Proof. reflexivity. Qed.

Lemma bind_Ok_inv {A B} (m : result A) (f : A → result B) b :
  m ≫= f = Ok b ↔ ∃ a, m = Ok a ∧ f a = Ok b.
Proof.
  destruct m as [a|p]; simpl; split; try done.
  - eauto.
  - by intros (? & [= ->] & ?).
  - by intros (? & ? & ?).
Qed.

Lemma fmap_Ok_inv {A B} (m : result A) (f : A → B) b :
  f <$> m = Ok b ↔ ∃ a, m = Ok a ∧ b = f a.
Proof.
  destruct m as [a|p]; simpl; split; try done.
  - intros [= <-]. eauto.
  - by intros (? & [= ->] & ->).
  - by intros (? & ? & ?).
Qed.

Lemma fmap_negb_Ok_true (m : result bool) : negb <$> m = Ok true ↔ m = Ok false.
Proof. destruct m as [[]|]; simpl; split; intros; simplify_eq; done. Qed.

Lemma fmap_negb_Ok_false (m : result bool) : negb <$> m = Ok false ↔ m = Ok true.
Proof. destruct m as [[]|]; simpl; split; intros; simplify_eq; done. Qed.

(** ** Lemmas: [int] arithmetic without overflow *)
Lemma int_wrap_small z : Int.in_range z → Int.wrap z = z.
Proof. unfold Int.in_range, Int.min_int, Int.max_int, Int.wrap. intros. rewrite Z.mod_small; lia. Qed.

Lemma int_wrap_in_range z : Int.in_range (Int.wrap z).
Proof.
  unfold Int.in_range, Int.min_int, Int.max_int, Int.wrap.
  pose proof (Z.mod_pos_bound (z + 2 ^ 63) (2 ^ 64)). lia.
Qed.

Lemma int_add_small x y : Int.in_range (x + y) → x ⊞ y = x + y.
Proof. apply int_wrap_small. Qed.
Lemma int_sub_small x y : Int.in_range (x - y) → x ⊟ y = x - y.
Proof. apply int_wrap_small. Qed.
Lemma int_mul_small x y : Int.in_range (x * y) → x ⊠ y = x * y.
Proof. apply int_wrap_small. Qed.
Lemma int_neg_small x : Int.in_range (- x) → Int.neg x = - x.
Proof. apply int_wrap_small. Qed.
Lemma int_neg_min_int : Int.neg Int.min_int = Int.min_int.
Proof. reflexivity. Qed.

(** [list_len] turns every [len] into [length] and pushes [length] through
    the list constructors; [int_range] closes a range side condition;
    [int_simpl] removes every wrap-around whose argument it can show to be in
    range. *)
Ltac list_len :=
  unfold len in *;
  repeat (progress (rewrite ?length_app, ?length_replicate, ?length_insert in *;
                    simpl length in * )).

Ltac int_range :=
  unfold Int.in_range, Int.min_int, Int.max_int in *; list_len; first [lia | nia].

Ltac int_simpl :=
  repeat match goal with
  | |- context [Int.add ?x ?y] => rewrite (int_add_small x y) by int_range
  | |- context [Int.sub ?x ?y] => rewrite (int_sub_small x y) by int_range
  | |- context [Int.mul ?x ?y] => rewrite (int_mul_small x y) by int_range
  | |- context [Int.neg ?x] => rewrite (int_neg_small x) by int_range
  end.

Lemma int_rem_Ok x y : y ≠ 0 → Int.rem x y = Ok (x `rem` y).
Proof. intros. unfold Int.rem. by rewrite decide_False. Qed.

Lemma int_rem_panic x : Int.rem x 0 = Panic IntegerDivideByZero.
Proof. reflexivity. Qed.

Lemma int_quot_abs_le x y (q : Z) :
  y ≠ 0 → Z.abs x ≤ Z.abs y * q → Z.abs (x `quot` y) ≤ q.
Proof.
  intros Hy H. rewrite <- Z.quot_abs by done. apply Z.quot_le_upper_bound; lia.
Qed.

(** The one quotient that overflows is [min_int / -1]. *)
Lemma int_quot_Ok x y :
  y ≠ 0 → Int.in_range x → Int.min_int < x ∨ y ≠ -1 →
  Int.quot x y = Ok (x `quot` y).
Proof.
  intros Hy Hx Hm. unfold Int.quot. rewrite decide_False by done. f_equal.
  apply int_wrap_small.
  destruct (decide (Int.min_int < x)) as [Hlt|Hmin].
  - pose proof (int_quot_abs_le x y (Z.abs x) Hy ltac:(nia)). int_range.
  - assert (x = Int.min_int) as -> by int_range. destruct Hm as [?|Hy1]; [done|].
    destruct (decide (y = 1)) as [->|]; [by rewrite Z.quot_1_r|].
    pose proof (int_quot_abs_le Int.min_int y (2 ^ 62) Hy ltac:(int_range)).
    int_range.
Qed.

Lemma int_rem_nonneg x y : 0 ≤ x → 0 < y → Int.rem x y = Ok (x `mod` y).
Proof.
  intros. unfold Int.rem. case_decide; [lia|]. by rewrite Z.rem_mod_nonneg by lia.
Qed.

(** ** Lemmas: slices and loops *)
Section slice_lemmas.
Context {A : Type}.
Implicit Types (s mem w dst src : list A) (i n lo hi : Z) (x : A).

Lemma len_nonneg s : 0 ≤ len s.
Proof. unfold len. lia. Qed.
Lemma len_nil : len (@nil A) = 0.
Proof. reflexivity. Qed.
Lemma len_cons x s : len (x :: s) = len s + 1.
Proof. unfold len. simpl. lia. Qed.
Lemma len_app s1 s2 : len (s1 ++ s2) = len s1 + len s2.
Proof. unfold len. rewrite length_app. lia. Qed.
Lemma len_replicate (k : nat) x : len (replicate k x) = Z.of_nat k.
Proof. unfold len. by rewrite length_replicate. Qed.
Lemma len_insert s (k : nat) x : len (<[k:=x]> s) = len s.
Proof. unfold len. by rewrite length_insert. Qed.

Lemma index_Ok s i x : index s i = Ok x ↔ 0 ≤ i ∧ s !! Z.to_nat i = Some x.
Proof.
  unfold index. case_decide; [|by split; [|intros []]].
  destruct (s !! Z.to_nat i); simpl; split; try done.
  - by intros [= ->].
  - by intros [_ [= ->]].
  - by intros [].
Qed.

Lemma index_lookup s (k : nat) x : s !! k = Some x → index s (Z.of_nat k) = Ok x.
Proof. intros H. apply index_Ok. rewrite Nat2Z.id. split; [lia|done]. Qed.

Lemma index_bind {B} s (k : Z) x (f : A → result B) :
  0 ≤ k → s !! Z.to_nat k = Some x → index s k ≫= f = f x.
Proof. intros Hk Hx. by rewrite (proj2 (index_Ok s k x)). Qed.

Lemma index_panic s i : ¬ (0 ≤ i < len s) → index s i = Panic IndexOutOfRange.
Proof.
  unfold index, len. intros H. case_decide; [|done].
  rewrite (lookup_ge_None_2 s (Z.to_nat i)) by lia. done.
Qed.

Lemma index_is_Ok s i : is_Ok (index s i) ↔ 0 ≤ i < len s.
Proof.
  split.
  - intros [x [? Hx]%index_Ok]. apply lookup_lt_Some in Hx. unfold len. lia.
  - intros H. destruct (lookup_lt_is_Some_2 s (Z.to_nat i)) as [x Hx]; [unfold len in H; lia|].
    exists x. apply index_Ok. split; [lia|done].
Qed.

Lemma store_Ok s i x : 0 ≤ i < len s → store s i x = Ok (<[Z.to_nat i := x]> s).
Proof. intros. unfold store. by case_decide. Qed.

Lemma store_panic s i x : ¬ (0 ≤ i < len s) → store s i x = Panic IndexOutOfRange.
Proof. intros. unfold store. by case_decide. Qed.

Lemma make_Ok (z : A) n : 0 ≤ n → make z n = Ok (replicate (Z.to_nat n) z).
Proof. intros. unfold make. by case_decide. Qed.

Lemma make_panic (z : A) n : n < 0 → make z n = Panic MakeSliceLenOutOfRange.
Proof. intros. unfold make. case_decide; [lia|done]. Qed.

Lemma subslice_Ok s lo hi :
  0 ≤ lo ≤ hi → hi ≤ len s → subslice s lo hi = Ok (slice_of s lo hi).
Proof. intros. unfold subslice. by rewrite decide_True. Qed.

Lemma subslice_panic s lo hi :
  ¬ (0 ≤ lo ≤ hi ∧ hi ≤ len s) → subslice s lo hi = Panic SliceBoundsOutOfRange.
Proof. intros. unfold subslice. by rewrite decide_False. Qed.

Lemma copy_length dst src : length (copy dst src) = length dst.
Proof. unfold copy. rewrite length_app, length_take, length_drop. lia. Qed.

Lemma copy_same_length dst src : length dst = length src → copy dst src = src.
Proof.
  intros H. unfold copy. rewrite H, take_ge, drop_ge, app_nil_r by lia. done.
Qed.

(** Loops *)
Lemma range_from_app {S} (body : Z → A → S → result S) i l1 l2 st :
  range_from body i (l1 ++ l2) st
  = range_from body i l1 st ≫= range_from body (i + len l1) l2.
Proof.
  revert i st. induction l1 as [|x l1 IH]; intros i st; simpl.
  - by rewrite len_nil, Z.add_0_r.
  - destruct (body i x st) as [st'|p]; result_simpl; [|done].
    rewrite IH, len_cons. do 2 f_equal. lia.
Qed.

(** A loop whose body only appends to a log. *)
Lemma range_from_collect {E} (body : Z → A → list E → result (list E))
    (h : Z → A → list E) i l errs :
  (∀ (j : nat) v errs, l !! j = Some v →
     body (i + Z.of_nat j) v errs = Ok (errs ++ h (i + Z.of_nat j) v)) →
  range_from body i l errs
  = Ok (errs ++ mjoin (imap (λ j v, h (i + Z.of_nat j) v) l)).
Proof.
  revert i errs. induction l as [|v l IH]; intros i errs H; simpl.
  - by rewrite app_nil_r.
  - pose proof (H 0%nat v errs eq_refl) as H0. rewrite Z.add_0_r in H0.
    rewrite H0. result_simpl. rewrite IH.
    + rewrite <- app_assoc, Z.add_0_r. do 4 f_equal.
      apply imap_ext. intros j x _. simpl. f_equal. lia.
    + intros j x e Hj.
      replace (i + 1 + Z.of_nat j) with (i + Z.of_nat (S j)) by lia. by apply H.
Qed.

Lemma join_imap_nil {E} (h : nat → A → list E) l :
  mjoin (imap h l) = [] ↔ ∀ j v, l !! j = Some v → h j v = [].
Proof.
  revert h. induction l as [|x l IH]; intros h; simpl.
  - by split; [intros _ j v Hj|].
  - rewrite app_nil, IH. split.
    + intros [H0 H] [|j] v Hv; simpl in *; simplify_eq; [done|]. by apply H.
    + intros H. split; [by apply (H 0%nat)|]. intros j v Hv. by apply (H (S j)).
Qed.

Lemma range_find_false (p : Z → A → result bool) i l :
  range_find p i l = Ok false ↔
  ∀ (j : nat) x, l !! j = Some x → p (i + Z.of_nat j) x = Ok false.
Proof.
  revert i. induction l as [|x l IH]; intros i; simpl.
  - naive_solver.
  - split.
    + intros H [|j] y Hy; simpl in *; simplify_eq.
      * rewrite Z.add_0_r. destruct (p i y) as [[]|]; result_simpl; done.
      * destruct (p i x) as [[]|]; result_simpl; try done.
        rewrite IH in H. rewrite <- (H j y Hy). f_equal. lia.
    + intros H.
      pose proof (H 0%nat x eq_refl) as H0. rewrite Z.add_0_r in H0. rewrite H0. result_simpl.
      apply IH. intros j y Hy. rewrite <- (H (S j) y Hy). f_equal. lia.
Qed.

Lemma window_of_Ok mem lo hi :
  0 ≤ lo ≤ hi → hi ≤ len mem → window_of mem lo hi = Ok (Window lo (hi - lo)).
Proof. intros. unfold window_of. by rewrite decide_True. Qed.

Lemma window_of_panic mem lo hi :
  ¬ (0 ≤ lo ≤ hi ∧ hi ≤ len mem) → window_of mem lo hi = Panic SliceBoundsOutOfRange.
Proof. intros. unfold window_of. by rewrite decide_False. Qed.

Lemma view_app3 (pre mid post : list A) :
  view (pre ++ mid ++ post) (Window (len pre) (len mid)) = mid.
Proof.
  unfold view, len. simpl. rewrite !Nat2Z.id, drop_app_length.
  apply take_app_length.
Qed.

Lemma copy_at_app3 (pre mid post src : list A) :
  copy_at (pre ++ mid ++ post) (Window (len pre) (len mid)) src
  = pre ++ copy mid src ++ post.
Proof.
  unfold copy_at. rewrite view_app3. simpl. unfold len.
  rewrite Nat2Z.id, take_app_length. do 2 f_equal.
  replace (Z.to_nat (Z.of_nat (length pre) + Z.of_nat (length mid)))
    with (length pre + length mid)%nat by lia.
  rewrite app_assoc, <- length_app. apply drop_app_length.
Qed.

(** A loop whose body does not fail and computes a boolean. *)
Lemma range_find_pure (p : Z → A → result bool) (q : Z → A → bool) i l :
  (∀ (j : nat) x, l !! j = Some x → p (i + Z.of_nat j) x = Ok (q (i + Z.of_nat j) x)) →
  range_find p i l = Ok (existsb id (imap (λ j x, q (i + Z.of_nat j) x) l)).
Proof.
  revert i. induction l as [|x l IH]; intros i H; simpl; [done|].
  pose proof (H 0%nat x eq_refl) as H0. rewrite Z.add_0_r in *. rewrite H0. result_simpl.
  unfold id at 1. destruct (q i x); [done|]. simpl. rewrite IH.
  - do 2 f_equal. apply imap_ext. intros j y _. simpl. f_equal. lia.
  - intros j y Hj. replace (i + 1 + Z.of_nat j) with (i + Z.of_nat (S j)) by lia. by apply H.
Qed.

Lemma existsb_imap_false (q : nat → A → bool) l :
  existsb id (imap q l) = false ↔ ∀ j x, l !! j = Some x → q j x = false.
Proof.
  revert q. induction l as [|x l IH]; intros q; simpl.
  - by split; [intros _ j y Hj|].
  - rewrite orb_false_iff, IH. split.
    + intros [H0 H] [|j] y Hj; simpl in *; simplify_eq; [done|]. by apply H.
    + intros H. split; [by apply (H 0%nat)|]. intros j y Hj. by apply (H (S j)).
Qed.

Lemma range_find_is_Ok (p : Z → A → result bool) i l :
  (∀ (j : nat) x, l !! j = Some x → is_Ok (p (i + Z.of_nat j) x)) →
  is_Ok (range_find p i l).
Proof.
  revert i. induction l as [|x l IH]; intros i H; simpl; [by eexists|].
  destruct (H 0%nat x eq_refl) as [b Hb]. rewrite Z.add_0_r in Hb. rewrite Hb. result_simpl.
  destruct b; [by eexists|]. apply IH. intros j y Hj.
  replace (i + 1 + Z.of_nat j) with (i + Z.of_nat (S j)) by lia. by apply H.
Qed.

Lemma range_find_panic (p : Z → A → result bool) i l (j : nat) x e :
  l !! j = Some x → p (i + Z.of_nat j) x = Panic e →
  (∀ (j' : nat) y, (j' < j)%nat → l !! j' = Some y → p (i + Z.of_nat j') y = Ok false) →
  range_find p i l = Panic e.
Proof.
  revert i j. induction l as [|z l IH]; intros i j Hj Hp Hbefore; [done|].
  destruct j as [|j]; simpl in *; simplify_eq.
  - rewrite Z.add_0_r in Hp. by rewrite Hp.
  - pose proof (Hbefore 0%nat z ltac:(lia) eq_refl) as H0. rewrite Z.add_0_r in H0.
    rewrite H0. result_simpl. apply (IH _ j); [done|..].
    + rewrite <- Hp. f_equal. lia.
    + intros j' y Hlt Hy. replace (i + 1 + Z.of_nat j') with (i + Z.of_nat (S j')) by lia.
      apply Hbefore; [lia|done].
Qed.

Lemma is_Ok_fmap {B} (f : A → B) (m : result A) : is_Ok (f <$> m) ↔ is_Ok m.
Proof. destruct m as [a|e]; simpl; split; intros [? ?]; first [done | by eexists]. Qed.

Lemma index_Ok_nat s (k : nat) x : index s (Z.of_nat k) = Ok x ↔ s !! k = Some x.
Proof. rewrite index_Ok, Nat2Z.id. intuition lia. Qed.

Lemma insert_middle (l1 l2 : list A) x y (k : nat) :
  k = length l1 → <[k := y]> (l1 ++ x :: l2) = l1 ++ y :: l2.
Proof.
  intros ->. replace (length l1) with (length l1 + 0)%nat by lia.
  by rewrite insert_app_r.
Qed.

Lemma replicate_cons_middle (n : nat) x l :
  replicate n x ++ x :: l = x :: replicate n x ++ l.
Proof. by rewrite app_comm_cons, replicate_cons_app, <- app_assoc. Qed.

Lemma lookup_view mem (w : window) (j : nat) :
  0 ≤ w_off w →
  view mem w !! j
  = if decide (Z.of_nat j < w_len w) then mem !! (Z.to_nat (w_off w) + j)%nat else None.
Proof.
  intros Hoff. unfold view. case_decide.
  - rewrite lookup_take_lt by lia. apply lookup_drop.
  - apply lookup_take_ge. lia.
Qed.
Lemma length_view mem (w : window) :
  0 ≤ w_off w → 0 ≤ w_len w → w_off w + w_len w ≤ len mem →
  length (view mem w) = Z.to_nat (w_len w).
Proof. intros. unfold view. rewrite length_take, length_drop. unfold len in *. lia. Qed.
Lemma store_at_Ok mem (w : window) i x :
  0 ≤ i < w_len w → store_at mem w i x = Ok (<[Z.to_nat (w_off w + i) := x]> mem).
Proof. intros. unfold store_at. by rewrite decide_True. Qed.

Lemma store_at_panic mem (w : window) i x :
  ¬ (0 ≤ i < w_len w) → store_at mem w i x = Panic IndexOutOfRange.
Proof. intros. unfold store_at. by rewrite decide_False. Qed.

End slice_lemmas.

(** ** Hint databases

    [go] holds the facts that close the side conditions of the lemmas on
    slices and integers ([auto with go]); [go_len] rewrites the length of a
    slice built from constructors ([autorewrite with go_len]). *)
Create HintDb go discriminated.
Create Rewrite HintDb go_len.
#[export] Hint Resolve len_nonneg int_wrap_in_range : go.
#[export] Hint Rewrite @len_nil @len_cons @len_app @len_replicate @len_insert : go_len.

(** ** Lemmas: scattered writes *)
Section scatter_lemmas.
Context {A B : Type}.
Implicit Types (l : list A) (w : list B) (f : Z → nat) (g : Z → A → B).

Lemma length_scatter f g i l w : length (scatter f g i l w) = length w.
Proof. revert i w. induction l as [|v l IH]; intros i w; simpl; [done|]. by rewrite IH, length_insert. Qed.

Lemma range_from_scatter (body : Z → A → list B → result (list B)) f g i l w0 :
  (∀ (j : nat) v w, l !! j = Some v → length w = length w0 →
     body (i + Z.of_nat j) v w = Ok (<[f (i + Z.of_nat j) := g (i + Z.of_nat j) v]> w)) →
  range_from body i l w0 = Ok (scatter f g i l w0).
Proof.
  revert i w0. induction l as [|v l IH]; intros i w0 H; simpl; [done|].
  pose proof (H 0%nat v w0 eq_refl eq_refl) as H0. rewrite Z.add_0_r in H0.
  rewrite H0. result_simpl. apply IH. intros j v' w Hj Hw.
  rewrite length_insert in Hw.
  replace (i + 1 + Z.of_nat j) with (i + Z.of_nat (S j)) by lia. by apply H.
Qed.

Lemma lookup_scatter_notin f g i l w (k : nat) :
  (∀ j : nat, (j < length l)%nat → f (i + Z.of_nat j) ≠ k) →
  scatter f g i l w !! k = w !! k.
Proof.
  revert i w. induction l as [|v l IH]; intros i w H; simpl; [done|].
  rewrite IH.
  - apply list_lookup_insert_ne. specialize (H 0%nat). rewrite Z.add_0_r in H. apply H. simpl. lia.
  - intros j Hj. replace (i + 1 + Z.of_nat j) with (i + Z.of_nat (S j)) by lia. apply H. simpl. lia.
Qed.

Lemma lookup_scatter_in f g i l w (j : nat) v :
  (∀ j1 j2 : nat, (j1 < length l)%nat → (j2 < length l)%nat →
     f (i + Z.of_nat j1) = f (i + Z.of_nat j2) → j1 = j2) →
  (f (i + Z.of_nat j)%Z < length w)%nat →
  l !! j = Some v →
  scatter f g i l w !! f (i + Z.of_nat j) = Some (g (i + Z.of_nat j) v).
Proof.
  revert i w j. induction l as [|v0 l IH]; intros i w j Hinj Hlt Hj; simpl; [done|].
  destruct j as [|j]; simpl in *; simplify_eq.
  - rewrite Z.add_0_r in *. rewrite lookup_scatter_notin.
    + by apply list_lookup_insert_eq.
    + intros j Hj E. specialize (Hinj (S j) 0%nat). rewrite Z.add_0_r in Hinj.
      replace (i + 1 + Z.of_nat j) with (i + Z.of_nat (S j)) in E by lia.
      specialize (Hinj ltac:(lia) ltac:(lia) E). done.
  - replace (i + Z.of_nat (S j)) with (i + 1 + Z.of_nat j) by lia. apply IH.
    + intros j1 j2 H1 H2 E. 
      replace (i + 1 + Z.of_nat j1) with (i + Z.of_nat (S j1)) in E by lia.
      replace (i + 1 + Z.of_nat j2) with (i + Z.of_nat (S j2)) in E by lia.
      specialize (Hinj (S j1) (S j2) ltac:(lia) ltac:(lia) E). lia.
    + rewrite length_insert. by replace (i + 1 + Z.of_nat j) with (i + Z.of_nat (S j)) by lia.
    + done.
Qed.
End scatter_lemmas.

(** Filling a slice with one value is a scatter along the identity. *)
Lemma scatter_fill {A B} (x : B) (l : list A) (w : list B) :
  length w = length l →
  scatter (λ i, Z.to_nat i) (λ _ _, x) 0 l w = replicate (length l) x.
Proof.
  intros Hlen. apply list_eq. intros k.
  destruct (decide (k < length l)%nat) as [Hk|Hk].
  - destruct (lookup_lt_is_Some_2 l k Hk) as [v Hv].
    pose proof (lookup_scatter_in (λ i, Z.to_nat i) (λ _ _, x) 0 l w k v) as H.
    cbn beta in H. rewrite Z.add_0_l, Nat2Z.id in H.
    rewrite H; [by rewrite lookup_replicate_2|intros; lia|lia|done].
  - rewrite !lookup_ge_None_2; [done|rewrite length_replicate; lia|rewrite length_scatter; lia].
Qed.

Lemma range_from_fill {A} (x : A) (l : list A) :
  range_from (λ i _ w, store w i x) 0 l l = Ok (replicate (length l) x).
Proof.
  rewrite (range_from_scatter _ (λ i, Z.to_nat i) (λ _ _, x)).
  - by rewrite scatter_fill.
  - intros j v w Hj Hw. apply store_Ok. apply lookup_lt_Some in Hj. unfold len. lia.
Qed.

(** ** Lemmas: interleaving *)
Section interleave_lemmas.
Context {A : Type}.
Implicit Types (l pre post : list A) (a : nat) (fill : A).

Lemma length_interleave l a fill :
  (1 ≤ a)%nat → length (interleave l a fill) = (length l * a)%nat.
Proof.
  intros Ha. induction l as [|d l IH]; simpl; [done|].
  rewrite length_app, length_replicate, IH. lia.
Qed.

Lemma lookup_interleave l a fill (i r : nat) :
  (r < a)%nat →
  interleave l a fill !! (i * a + r)%nat
  = if decide (r = 0%nat) then l !! i else (λ _, fill) <$> l !! i.
Proof.
  intros Hr. revert i. induction l as [|d l IH]; intros i; simpl.
  - by case_decide.
  - destruct i as [|i]; simpl.
    + destruct r as [|r]; simpl; [done|].
      rewrite lookup_app_l by (rewrite length_replicate; lia).
      by rewrite lookup_replicate_2 by lia.
    + replace (a + i * a + r)%nat with (S (length (replicate (a - 1) fill) + (i * a + r)))%nat
        by (rewrite length_replicate; lia).
      simpl. by rewrite lookup_app_r, Nat.add_comm, Nat.add_sub, IH by lia.
Qed.

Lemma scatter_stride a fill l pre post (off i : Z) :
  (1 ≤ a)%nat → 0 ≤ off → 0 ≤ i →
  Z.of_nat (length pre) = off + i * Z.of_nat a →
  scatter (λ i, Z.to_nat (off + i * Z.of_nat a)) (λ _ v, v) i l
    (pre ++ replicate (length l * a) fill ++ post)
  = pre ++ interleave l a fill ++ post.
Proof.
  intros Ha Hoff. revert pre i. induction l as [|d l IH]; intros pre i Hi Hpre; simpl; [done|].
  replace (a + length l * a)%nat with (S (a - 1) + length l * a)%nat by lia.
  rewrite replicate_add. simpl.
  replace (Z.to_nat (off + i * Z.of_nat a)) with (length pre + 0)%nat by lia.
  rewrite insert_app_r. simpl.
  specialize (IH (pre ++ d :: replicate (a - 1) fill) (i + 1)).
  rewrite <- !app_assoc in IH. simpl in IH. rewrite <- !app_assoc. rewrite IH; [done|lia|].
  rewrite length_app. simpl. rewrite length_replicate. lia.
Qed.
Lemma interleave_tail l a fill :
  l ≠ [] → (1 ≤ a)%nat →
  interleave l a fill
  = take ((length l - 1) * a + 1) (interleave l a fill) ++ replicate (a - 1) fill.
Proof.
  intros Hl Ha. induction l as [|d l IH]; [done|]. clear Hl.
  destruct l as [|d' l].
  - simpl. by rewrite app_nil_r.
  - specialize (IH ltac:(done)). cbn [interleave length] in *.
    replace ((S (S (length l)) - 1) * a + 1)%nat
      with (S (length (replicate (a - 1) fill) + ((S (length l) - 1) * a + 1)))%nat
      by (rewrite length_replicate; lia).
    cbn [take]. rewrite take_app_add. cbn [app]. by rewrite <- app_assoc, <- IH.
Qed.
End interleave_lemmas.

(** ** Lemmas: loops that fill a slice block by block

    A loop whose [j]-th iteration overwrites the [j]-th block of [n] slots
    and nothing else leaves the blocks in iteration order: the invariant of
    a row-major nested loop, one level at a time. *)
(** The list monad's bind over rows of one length. *)
Lemma join_imap_const {A B} (f : A → list B) (l : list A) :
  mjoin (imap (λ _, f) l) = l ≫= f.
Proof. induction l as [|v l IH]; [done|]. cbn. by rewrite <- IH. Qed.

Lemma length_bind_const {A B} (f : A → list B) (l : list A) (n : nat) :
  (∀ v, length (f v) = n) → length (l ≫= f) = (length l * n)%nat.
Proof.
  intros Hf. induction l as [|v l IH]; [done|].
  cbn. rewrite length_app, Hf. cbn in IH. lia.
Qed.

Lemma join_imap_singleton {A B} (f : A → B) (l : list A) :
  mjoin (imap (λ _ v, [f v]) l) = f <$> l.
Proof. induction l as [|v l IH]; [done|]. cbn. by rewrite <- IH. Qed.

Lemma lookup_bind_const {A B} (f : A → list B) (l : list A) (n i r : nat) v :
  (∀ v, length (f v) = n) → l !! i = Some v → (r < n)%nat →
  (l ≫= f) !! (i * n + r)%nat = f v !! r.
Proof.
  intros Hf. revert i. induction l as [|u l IH]; intros i Hi Hr; [done|].
  rewrite bind_cons. destruct i as [|i]; simplify_eq/=.
  - by rewrite lookup_app_l by (rewrite Hf; lia).
  - rewrite lookup_app_r by (rewrite Hf; lia). rewrite Hf, <- (IH i) by done. f_equal. lia.
Qed.

Section blocks.
Context {A B : Type}.
Implicit Types (l : list A) (pre old post : list B).

Lemma store_middle pre (o x : B) post i :
  i = len pre → store (pre ++ o :: post) i x = Ok (pre ++ x :: post).
Proof.
  intros ->. rewrite store_Ok by (list_len; lia). f_equal. unfold len.
  rewrite Nat2Z.id. by rewrite insert_middle.
Qed.

Lemma range_from_blocks (body : Z → A → list B → result (list B))
    (row : Z → A → list B) (n : nat) i l pre old post :
  length old = (length l * n)%nat →
  (∀ j v, length (row j v) = n) →
  (∀ (j : nat) v p o q, l !! j = Some v →
     length p = (length pre + j * n)%nat → length o = n →
     body (i + Z.of_nat j) v (p ++ o ++ q) = Ok (p ++ row (i + Z.of_nat j) v ++ q)) →
  range_from body i l (pre ++ old ++ post)
  = Ok (pre ++ mjoin (imap (λ j v, row (i + Z.of_nat j) v) l) ++ post).
Proof.
  revert i pre old. induction l as [|v l IH]; intros i pre old Hold Hrow Hbody.
  { by destruct old. }
  cbn [range_from imap mjoin list_join]. cbn [length] in Hold.
  rewrite <- (take_drop n old), <- !app_assoc.
  pose proof (Hbody 0%nat v pre (take n old) (drop n old ++ post)) as H0.
  rewrite Z.add_0_r in H0. rewrite H0; [|done|lia|rewrite length_take; lia].
  result_simpl.
  rewrite (app_assoc pre), (IH (i + 1) (pre ++ row i v)); first last.
  - intros j v' p o q Hj Hp Ho. replace (i + 1 + Z.of_nat j) with (i + Z.of_nat (S j)) by lia.
    apply Hbody; [done| |done]. rewrite Hp, length_app, Hrow. lia.
  - done.
  - rewrite length_drop. lia.
  - rewrite Z.add_0_r, <- !app_assoc. do 5 f_equal. apply imap_ext. intros j v' _. simpl.
    f_equal. lia.
Qed.
End blocks.

(** ** Lemmas: loops on composite states *)

(** Filling one slice while ranging over another of its length. *)
Lemma range_from_fill_into {A B} (x : B) (l : list A) (w : list B) :
  length w = length l →
  range_from (λ i _ w, store w i x) 0 l w = Ok (replicate (length w) x).
Proof.
  intros Hl. rewrite (range_from_scatter _ (λ i, Z.to_nat i) (λ _ _, x)).
  - by rewrite scatter_fill, Hl.
  - intros j v w' Hj Hw. apply lookup_lt_Some in Hj. apply store_Ok. list_len. lia.
Qed.

(** Two loops run in step, each on its own half of the state, give what they
    give one after the other, when neither panics. *)
Lemma range_from_pair {A S T} (fa : Z → A → S → result S) (fb : Z → A → T → result T)
    i (l : list A) a b a' b' :
  range_from fa i l a = Ok a' → range_from fb i l b = Ok b' →
  range_from (λ i v '(a, b), a ← fa i v a; b ← fb i v b; mret (a, b)) i l (a, b)
  = Ok (a', b').
Proof.
  revert i a b. induction l as [|v l IH]; intros i a b; simpl.
  - by intros [= ->] [= ->].
  - destruct (fa i v a) as [a1|]; [|done]. destruct (fb i v b) as [b1|]; [|done].
    result_simpl. apply IH.
Qed.

(** Loops whose bodies ignore the index: over an image, and over the rows
    of a table laid end to end. *)
Lemma range_from_fmap {A B S} (g : A → B) (body : B → S → result S) (l : list A) st i j :
  range_from (λ _ a st, body (g a) st) i l st = range_from (λ _ x, body x) j (g <$> l) st.
Proof.
  revert st i j. induction l as [|a l IH]; intros st i j; [done|].
  simpl. destruct (body (g a) st); [|done]. result_simpl. apply IH.
Qed.

Lemma range_from_index_free {A S} (body : A → S → result S) (l : list A) st i j :
  range_from (λ _ x, body x) i l st = range_from (λ _ x, body x) j l st.
Proof. rewrite <- (list_fmap_id l) at 2. apply (range_from_fmap id). Qed.

Lemma range_from_bind {A B S} (f : A → list B) (inner : A → S → result S)
    (body : B → S → result S) (l : list A) st i j :
  (∀ a st, inner a st = range_from (λ _ x, body x) 0 (f a) st) →
  range_from (λ _ a st, inner a st) i l st = range_from (λ _ x, body x) j (l ≫= f) st.
Proof.
  intros Hin. revert st i j. induction l as [|a l IH]; intros st i j; [done|].
  cbn [range_from]. rewrite bind_cons, range_from_app, Hin.
  rewrite (range_from_index_free body (f a) st 0 j).
  destruct (range_from _ j (f a) st); [|done]. result_simpl. apply IH.
Qed.

(** A loop depends on its body pointwise. *)
#[export] Instance range_from_proper {A S : Type} :
  Proper (pointwise_relation Z (pointwise_relation A (pointwise_relation S eq))
          ==> eq ==> eq ==> eq ==> eq) (@range_from A S).
Proof.
  intros f g Hfg i ? <- l ? <- st ? <-. revert i st.
  induction l as [|x l IH]; intros i st; [done|]. cbn [range_from].
  rewrite Hfg. destruct (g i x st); [apply IH|done].
Qed.

(** ** Lemmas: loops that fill a slice from a source *)

Section stream.
Context {A G : Type} (next : G → A * G).

Lemma length_drawn k r : length (drawn next k r).1 = k.
Proof.
  revert r. induction k as [|k IH]; intros r; [done|]. simpl.
  destruct (next r) as [v r']. specialize (IH r'). destruct (drawn next k r'). simpl in *. lia.
Qed.

Lemma range_from_drawn {B} (l : list B) i pre old (r : G) :
  length old = length l → len pre = i →
  range_from (λ i _ '(x, r),
    let '(v, r) := next r in
    x ← store x i v; mret (x, r)) i l (pre ++ old, r)
  = Ok (pre ++ (drawn next (length l) r).1, (drawn next (length l) r).2).
Proof.
  revert i pre old r. induction l as [|u l IH]; intros i pre old r Hold Hpre.
  { destruct old; [|done]. done. }
  destruct old as [|o old]; [done|]. cbn [range_from length drawn].
  destruct (next r) as [v r']. rewrite store_middle by done. result_simpl.
  rewrite (cons_middle v pre old), app_assoc, (IH (i + 1) (pre ++ [v]) old r');
    [|simpl in *; lia|list_len; lia].
  destruct (drawn next (length l) r'). simpl. by rewrite <- app_assoc.
Qed.
End stream.

(** ** Lemmas: loops that collect reports *)

(** A loop that appends the elements it rejects collects them in order. *)
Lemma foldl_reject {A} (P : A → bool) (l acc : list A) :
  foldl (λ errs x, if P x then errs ++ [x] else errs) acc l
  = acc ++ filter (λ x, P x = true) l.
Proof.
  revert acc. induction l as [|x l IH]; intros acc; simpl; [by rewrite app_nil_r|].
  rewrite IH, filter_cons. case_decide as E; rewrite E || apply not_true_is_false in E; [|by rewrite E].
  by rewrite <- app_assoc.
Qed.

Lemma filter_nil_iff {A} (P : A → Prop) `{∀ x, Decision (P x)} (l : list A) :
  filter P l = [] ↔ Forall (λ x, ¬ P x) l.
Proof.
  induction l as [|x l IH]; [by split|]. rewrite filter_cons, Forall_cons.
  case_decide; [|by rewrite IH; intuition]. split; [done|]. by intros [? _].
Qed.

(** ** Lemmas: tests of every element *)

Lemma forallb_lookup {A} (f : A → bool) (l : list A) :
  forallb f l = true ↔ ∀ k x, l !! k = Some x → f x = true.
Proof.
  rewrite forallb_forall. setoid_rewrite <- list_elem_of_In.
  setoid_rewrite list_elem_of_lookup. split; [intros Hf k x Hx; apply Hf; eauto|intros Hf x [k Hx]; eauto].
Qed.

Lemma forallb_seqZ (f : Z → bool) (n : Z) :
  forallb f (seqZ 0 n) = true ↔ ∀ l, 0 ≤ l < n → f l = true.
Proof.
  rewrite forallb_forall. setoid_rewrite <- list_elem_of_In.
  setoid_rewrite elem_of_seqZ. split; intros H l ?; apply H; lia.
Qed.

Lemma lookup_total_square {A} `{Inhabited A} (P : A → Prop) (p : list A) (n : Z) :
  0 ≤ n → len p = n * n →
  Forall P p ↔ ∀ i l, 0 ≤ i < n → 0 ≤ l < n → P (p !!! Z.to_nat (i * n + l)).
Proof.
  intros Hn Hp. rewrite Forall_lookup. split.
  - intros Hall i l Hi Hl.
    assert (i * n ≤ (n - 1) * n) by (apply Z.mul_le_mono_nonneg_r; lia).
    assert (0 ≤ i * n + l < n * n) by nia.
    destruct (lookup_lt_is_Some_2 p (Z.to_nat (i * n + l))) as [x Hx]; [unfold len in *; lia|].
    rewrite (list_lookup_total_correct _ _ _ Hx). by eapply Hall.
  - intros Hall k x Hx. pose proof (lookup_lt_Some _ _ _ Hx) as Hk.
    assert (0 < n) by (destruct (decide (n = 0)) as [->|]; unfold len in *; lia).
    specialize (Hall (Z.of_nat k `div` n) (Z.of_nat k `mod` n)).
    rewrite <- Z.mul_comm, <- Z.div_mod, Nat2Z.id, (list_lookup_total_correct _ _ _ Hx) in Hall by lia.
    apply Hall; [|by apply Z.mod_pos_bound].
    split; [by apply Z.div_pos; lia|]. apply Z.div_lt_upper_bound; unfold len in *; lia.
Qed.

Lemma forallb_Forall {A} (f : A → bool) (l : list A) :
  forallb f l = true ↔ Forall (λ x, f x = true) l.
Proof. by rewrite forallb_lookup, Forall_lookup. Qed.

Lemma cell_div (i j n : Z) : 0 ≤ j < n → (i * n + j) `div` n = i.
Proof. intros. symmetry. apply (Z.div_unique _ _ i j); lia. Qed.

Lemma cell_mod (i j n : Z) : 0 ≤ j < n → (i * n + j) `mod` n = j.
Proof. intros. symmetry. apply (Z.mod_unique _ _ i j); lia. Qed.

(** ** Lemmas: row-major square matrices *)
Section matrices.
Context {A : Type}.
Implicit Types (f g : Z → Z → A) (x : A).

Lemma length_mat n f : 0 ≤ n → len (mat n f) = n * n.
Proof. intros. unfold len, mat. rewrite length_fmap, length_seqZ. nia. Qed.

Lemma lookup_mat n f (i j : Z) :
  0 ≤ i < n → 0 ≤ j < n → mat n f !! Z.to_nat (i * n + j) = Some (f i j).
Proof.
  intros Hi Hj. unfold mat. rewrite list_lookup_fmap, lookup_seqZ_lt by nia.
  simpl. f_equal. rewrite Z.add_0_l, Z2Nat.id by nia. f_equal.
  - rewrite Z.div_add_l, Z.div_small by lia. lia.
  - rewrite Z.add_comm, Z_mod_plus_full. by apply Z.mod_small.
Qed.

Lemma mat_ext n f g :
  0 ≤ n → (∀ i j, 0 ≤ i < n → 0 ≤ j < n → f i j = g i j) → mat n f = mat n g.
Proof.
  intros Hn H. unfold mat. apply list_fmap_ext. intros k p Hp.
  apply lookup_seqZ in Hp as [-> Hk]. assert (0 < n) by nia. apply H.
  - split; [apply Z.div_pos; lia|]. apply Z.div_lt_upper_bound; nia.
  - by apply Z.mod_pos_bound.
Qed.

Lemma cell_inj n (i j i' j' : Z) :
  0 ≤ j < n → 0 ≤ j' < n → i * n + j = i' * n + j' → i = i' ∧ j = j'.
Proof. intros Hj Hj' E. assert (i = i') by nia. split; [done|nia]. Qed.

Lemma insert_mat n f (i0 j0 : Z) x :
  0 ≤ i0 < n → 0 ≤ j0 < n →
  <[Z.to_nat (i0 * n + j0) := x]> (mat n f) = mat n (upd f i0 j0 x).
Proof.
  intros Hi Hj. unfold mat. apply list_eq. intros q.
  destruct (decide (q = Z.to_nat (i0 * n + j0))) as [->|Hq].
  - rewrite list_lookup_insert_eq by (rewrite length_fmap, length_seqZ; nia).
    fold (mat n (upd f i0 j0 x)). rewrite lookup_mat by done.
    unfold upd. by rewrite decide_True.
  - rewrite list_lookup_insert_ne by done. rewrite !list_lookup_fmap.
    destruct (seqZ 0 (n * n) !! q) as [p|] eqn:Hp; [|done]. simpl. f_equal.
    apply lookup_seqZ in Hp as [-> Hk]. unfold upd. rewrite decide_False; [done|].
    intros [E1 E2]. apply Hq. rewrite <- E1, <- E2, Z.add_0_l.
    rewrite Z.mul_comm, <- Z.div_mod by lia. lia.
Qed.

Lemma store_mat n f (i0 j0 p : Z) x :
  0 ≤ i0 < n → 0 ≤ j0 < n → p = i0 * n + j0 →
  store (mat n f) p x = Ok (mat n (upd f i0 j0 x)).
Proof.
  intros Hi Hj ->. rewrite store_Ok by (rewrite length_mat by lia; nia).
  by rewrite insert_mat.
Qed.

Lemma mat_const n x : 0 ≤ n → mat n (λ _ _, x) = replicate (Z.to_nat (n * n)) x.
Proof.
  intros. unfold mat. rewrite <- (length_seqZ 0 (n * n)).
  induction (seqZ 0 (n * n)) as [|p l IH]; [done|]. simpl. f_equal. apply IH.
Qed.

(** The loop that writes [x] down the diagonal. *)
Lemma diag_loop n f x (k : nat) (lo : Z) :
  0 ≤ lo → lo + Z.of_nat k = n → n * n ≤ Int.max_int →
  range_from (λ i (_ : unit) w, store w (i ⊠ n ⊞ i) x) lo (replicate k ()) (mat n f)
  = Ok (mat n (λ i j, if decide (lo ≤ i ∧ i = j) then x else f i j)).
Proof.
  revert lo f. induction k as [|k IH]; intros lo f Hlo Hk Hmax.
  { simpl. f_equal. apply mat_ext; [lia|]. intros i j Hi Hj. rewrite decide_False; [done|lia]. }
  cbn [replicate range_from]. int_simpl.
  rewrite (store_mat n f lo lo) by lia. result_simpl.
  rewrite IH by lia. f_equal. apply mat_ext; [lia|]. intros i j Hi Hj. unfold upd.
  repeat case_decide; try done; lia.
Qed.

Lemma for_lt_diag n f x :
  0 ≤ n → n * n ≤ Int.max_int →
  for_lt 0 n (λ i w, store w (i ⊠ n ⊞ i) x) (mat n f)
  = Ok (mat n (λ i j, if decide (i = j) then x else f i j)).
Proof.
  intros Hn Hmax. unfold for_lt. rewrite diag_loop by lia. f_equal.
  apply mat_ext; [lia|]. intros i j Hi Hj. repeat case_decide; try done; lia.
Qed.
End matrices.
