(* ===== verification/Steps.v ===== *)
(** * Steps: the loops as step relations

    A [for i, x := range l] loop of the code is the function [range_from] of
    the prelude.  This file gives the same loop as a transition system: a
    state [Loop i l st] holds the index of the next iteration, the elements
    still to visit and the value the loop carries, and [step body] runs the
    body once.  A panic of the body is a state that does not step.  The
    lemmas relate the two views ([range_from_steps], [range_from_panic]),
    and give the rules to reason on a run: determinism, an invariant by
    establishment and preservation ([run_invariant]), termination of every
    run ([step_sn]), progress and the turn of every element when the body
    returns ([run_progress], [run_reaches]). *)
From stdpp Require Import prelude relations.
From S2P Require Import Prelude.
#[local] Open Scope Z_scope.
#[local] Open Scope go_scope.

(** ** The transition system *)

Record loop (A S : Type) : Type := Loop { pos : Z; rest : list A; acc : S }.
Arguments Loop {A S} _ _ _.
Arguments pos {A S} _.
Arguments rest {A S} _.
Arguments acc {A S} _.

Section step_def.
Context {A S : Type} (body : Z → A → S → result S).

Inductive step : relation (loop A S) :=
| step_iter i x l st st' :
    body i x st = Ok st' → step (Loop i (x :: l) st) (Loop (i + 1) l st').

(** The loop is over when nothing is left to visit; a state that is not
    over and does not step is one whose body panics. *)
Definition finished (s : loop A S) : Prop := rest s = [].

Definition panics (s : loop A S) (e : panic) : Prop :=
  ∃ x l, rest s = x :: l ∧ body (pos s) x (acc s) = Panic e.
End step_def.

Create HintDb steps discriminated.
#[export] Hint Constructors step : steps.
#[export] Hint Resolve rtc_refl rtc_l rtc_once : steps.

(** ** Lemmas *)

Section steps.
Context {A S : Type} (body : Z → A → S → result S).
Implicit Types (s : loop A S) (l : list A) (st : S).

Lemma step_inv s s' :
  step body s s' ↔
  ∃ x, rest s = x :: rest s' ∧ pos s' = pos s + 1 ∧ body (pos s) x (acc s) = Ok (acc s').
Proof.
  split.
  - intros [i x l st st' Hb]. by exists x.
  - destruct s as [i l st], s' as [j l' st']. simpl. intros (x & -> & -> & Hb).
    by constructor.
Qed.

Lemma step_deterministic : deterministic (step body).
Proof.
  intros s s1 s2 (x & Hr1 & Hp1 & Hb1)%step_inv (y & Hr2 & Hp2 & Hb2)%step_inv.
  destruct s1, s2. simpl in *. simplify_eq. congruence.
Qed.

Lemma finished_nf s : finished s → nf (step body) s.
Proof. intros Hf (s' & (x & Hr & _)%step_inv). by rewrite Hf in Hr. Qed.

Lemma panics_nf s e : panics body s e → nf (step body) s.
Proof.
  intros (x & l & Hr & Hb) (s' & (y & Hr' & _ & Hb')%step_inv).
  rewrite Hr in Hr'. simplify_eq. congruence.
Qed.

(** A state is over, steps, or panics: there is no other way to stop. *)
Lemma step_trichotomy s :
  finished s ∨ red (step body) s ∨ ∃ e, panics body s e.
Proof.
  destruct s as [i [|x l] st]; [by left|right].
  destruct (body i x st) as [st'|e] eqn:Hb.
  - left. exists (Loop (i + 1) l st'). by constructor.
  - right. exists e, x, l. by split.
Qed.

(** Where a run is: some iterations on, with the elements not yet visited. *)
Lemma run_position s s' :
  rtc (step body) s s' →
  ∃ k : nat, pos s' = pos s + Z.of_nat k ∧ rest s' = drop k (rest s) ∧ (k ≤ length (rest s))%nat.
Proof.
  induction 1 as [s|s s1 s' (x & Hr & Hp & _)%step_inv _ (k & Hk & Hd & Hle)].
  - exists 0%nat. rewrite drop_0. split; [lia|split; [done|lia]].
  - exists (Datatypes.S k). rewrite Hr. simpl. rewrite Hk, Hp, Hd. split; [lia|split; [done|lia]].
Qed.

(** The function and the relation agree on what is left of a run. *)
Lemma run_range_from s s' :
  rtc (step body) s s' →
  range_from body (pos s) (rest s) (acc s) = range_from body (pos s') (rest s') (acc s').
Proof.
  induction 1 as [s|s s1 s' (x & Hr & Hp & Hb)%step_inv _ IH]; [done|].
  rewrite <- IH, Hr, Hp. cbn [range_from]. by rewrite Hb.
Qed.

Lemma range_from_run i l st st' :
  range_from body i l st = Ok st' →
  rtc (step body) (Loop i l st) (Loop (i + len l) [] st').
Proof.
  revert i st. induction l as [|x l IH]; intros i st; cbn [range_from].
  - intros [= ->]. rewrite len_nil, Z.add_0_r. constructor.
  - destruct (body i x st) as [st1|] eqn:Hb; [|done]. rewrite result_bind_Ok.
    intros Hl%IH. rewrite len_cons.
    replace (i + (len l + 1)) with (i + 1 + len l) by lia. eauto with steps.
Qed.

Lemma range_from_steps i l st st' :
  range_from body i l st = Ok st' ↔
  rtc (step body) (Loop i l st) (Loop (i + len l) [] st').
Proof.
  split; [apply range_from_run|]. intros Hr. by apply run_range_from in Hr.
Qed.

(** A panic of the loop is a run to a state whose body panics. *)
Lemma range_from_panic i l st e :
  range_from body i l st = Panic e ↔
  ∃ s, rtc (step body) (Loop i l st) s ∧ panics body s e.
Proof.
  split.
  - revert i st. induction l as [|x l IH]; intros i st; cbn [range_from]; [done|].
    destruct (body i x st) as [st1|e'] eqn:Hb.
    + rewrite result_bind_Ok. intros (s & Hs & Hp)%IH. exists s. eauto with steps.
    + intros [= ->]. exists (Loop i (x :: l) st). split; [done|]. by exists x, l.
  - intros (s & Hr%run_range_from & x & l' & Hl & Hb). simpl in Hr.
    rewrite Hr, Hl. cbn [range_from]. by rewrite Hb.
Qed.

(** Every run is finite: a step visits an element. *)
Lemma step_sn s : sn (step body) s.
Proof.
  destruct s as [i l st]. revert i st.
  induction l as [|x l IH]; intros i st; constructor; intros s' Hs; unfold flip in Hs;
    apply step_inv in Hs as (y & Hr & Hp & Hb); simpl in *; [done|].
  destruct s' as [j l' st']. simpl in *. simplify_eq. apply IH.
Qed.

(** An invariant: established at the start and preserved by the body. *)
Lemma run_invariant (I : Z → list A → S → Prop) s s' :
  (∀ i x l st st', I i (x :: l) st → body i x st = Ok st' → I (i + 1) l st') →
  I (pos s) (rest s) (acc s) → rtc (step body) s s' → I (pos s') (rest s') (acc s').
Proof.
  intros Hpres Hs Hrun. induction Hrun as [s|s s1 s' (x & Hr & Hp & Hb)%step_inv _ IH]; [done|].
  apply IH. rewrite Hp. apply (Hpres (pos s) x (rest s1) (acc s)); [by rewrite <- Hr|done].
Qed.

(** Progress and liveness, where the body returns on every state the
    invariant allows. *)
Section live.
Context (I : Z → list A → S → Prop).
Context (Hpres : ∀ i x l st st', I i (x :: l) st → body i x st = Ok st' → I (i + 1) l st').
Context (Htotal : ∀ i x l st, I i (x :: l) st → is_Ok (body i x st)).

Lemma run_progress s :
  I (pos s) (rest s) (acc s) → finished s ∨ red (step body) s.
Proof.
  destruct s as [i [|x l] st]; simpl; [by left|]. intros [st' Hb]%Htotal.
  right. exists (Loop (i + 1) l st'). by constructor.
Qed.

(** The element [k] places on gets its turn. *)
Lemma run_reaches i l st (k : nat) :
  I i l st → (k ≤ length l)%nat →
  ∃ st', rtc (step body) (Loop i l st) (Loop (i + Z.of_nat k) (drop k l) st')
        ∧ I (i + Z.of_nat k) (drop k l) st'.
Proof.
  revert i l st. induction k as [|k IH]; intros i l st HI Hk.
  { exists st. rewrite drop_0, Z.add_0_r. by split. }
  destruct l as [|x l]; [simpl in Hk; lia|].
  destruct (Htotal _ _ _ _ HI) as [st1 Hb].
  destruct (IH (i + 1) l st1) as (st' & Hrun & HI'); [by eapply Hpres|simpl in Hk; lia|].
  exists st'. replace (i + Z.of_nat (Datatypes.S k)) with (i + 1 + Z.of_nat k) by lia. simpl. eauto with steps.
Qed.

(** The loop comes to its end. *)
Lemma run_finishes i l st :
  I i l st → ∃ st', range_from body i l st = Ok st' ∧ I (i + len l) [] st'.
Proof.
  intros HI. destruct (run_reaches i l st (length l) HI) as (st' & Hrun & HI'); [done|].
  rewrite drop_all in *. exists st'. split; [|done]. by apply range_from_steps.
Qed.
End live.
End steps.
