(* ===== verification/Float64.v ===== *)
(** * Float64: Go's [float64] as IEEE 754 binary64

    A [float64] is a [spec_float] of the Standard Library at precision 53 and
    maximal exponent 1024, with the library's correctly rounded operations
    (round to nearest, ties to even).  NaN carries no payload: the code under
    study only tests NaN-ness.  The lemmas are the facts the harness relies
    on: [==] is symmetric and reflexive away from NaN, [|a-b|] does not
    depend on the order of its operands, a sum of products with zero is
    a zero or NaN ([zero_or_nan]), and a sum of zeros and a single one is
    one ([sum_one]). *)

From Stdlib Require Import ZArith Lia SpecFloat.
From stdpp Require Import prelude.
From S2P Require Import Prelude.

#[local] Open Scope Z_scope.

Abbreviation float64 := spec_float.

#[export] Instance float64_eq_dec : EqDecision float64.
Proof. solve_decision. Defined.

#[export] Instance float64_inhabited : Inhabited float64 := populate (S754_zero false).

Module F64.

Definition prec : Z := 53.
Definition emax : Z := 1024.

(** [math.NaN()], [math.Inf(sign)], [0.0], [1.0], [2.0]. *)
Definition NaN : float64 := S754_nan.
Definition Inf (negative : bool) : float64 := S754_infinity negative.
Definition zero : float64 := S754_zero false.
Definition one : float64 := S754_finite false 4503599627370496 (-52).
Definition two : float64 := S754_finite false 4503599627370496 (-51).

(** [math.IsNaN], [math.IsInf(x, 1)], [math.Signbit]. *)
Definition IsNaN (x : float64) : bool :=
  match x with S754_nan => true | _ => false end.
Definition IsPosInf (x : float64) : bool :=
  match x with S754_infinity false => true | _ => false end.
Definition Signbit (x : float64) : bool :=
  match x with
  | S754_zero s | S754_infinity s | S754_finite s _ _ => s
  | S754_nan => false
  end.
Definition is_finite (x : float64) : bool :=
  match x with S754_zero _ | S754_finite _ _ _ => true | _ => false end.
Definition is_zero (x : float64) : bool :=
  match x with S754_zero _ => true | _ => false end.

(** The comparison operators [==], [<], [<=], [>]. *)
Definition eqb (x y : float64) : bool := SFeqb x y.
Definition ltb (x y : float64) : bool := SFltb x y.
Definition leb (x y : float64) : bool := SFleb x y.
Definition gtb (x y : float64) : bool := SFltb y x.

(** The arithmetic operators and [math.Abs]. *)
Definition add : float64 → float64 → float64 := SFadd prec emax.
Definition sub : float64 → float64 → float64 := SFsub prec emax.
Definition mul : float64 → float64 → float64 := SFmul prec emax.
Definition div : float64 → float64 → float64 := SFdiv prec emax.
Definition neg : float64 → float64 := SFopp.
Definition Abs : float64 → float64 := SFabs.

(** [math.Max], with its special cases for infinities, NaN and signed zeros. *)
Definition Max (x y : float64) : float64 :=
  if IsPosInf x || IsPosInf y then Inf false
  else if IsNaN x || IsNaN y then NaN
  else if is_zero x && eqb x y then (if Signbit x then y else x)
  else if gtb x y then x else y.

(** The conversion [float64(n)] of an integer, and a decimal literal
    [m * 10^e], both rounded once. *)
Definition of_int (n : Z) : float64 := binary_normalize prec emax n 0 false.

Definition lit (m : Z) (e : Z) : float64 :=
  match e with
  | Zneg p => div (match m with
                   | Z0 => zero
                   | Zpos q => S754_finite false q 0
                   | Zneg q => S754_finite true q 0
                   end) (S754_finite false (10 ^ p)%positive 0)
  | _ => of_int (m * 10 ^ e)
  end.

(** Canonical representations: what the operations return on canonical
    arguments. *)
Definition valid (x : float64) : bool := valid_binary prec emax x.

End F64.

(** [zero_or_nan x b]: [x] is a zero when [b] holds and NaN when it does
    not; what a sum of products with zero is, by whether the other factors
    are all finite. *)
Definition zero_or_nan (x : float64) (b : bool) : Prop :=
  if b then F64.is_zero x = true else x = F64.NaN.

(** ** Comparison *)

Lemma SFcompare_antisym x y : SFcompare y x = CompOpp <$> SFcompare x y.
Proof.
  destruct x as [[]|[]| |[] m1 e1], y as [[]|[]| |[] m2 e2];
    try reflexivity; simpl;
    rewrite (Z.compare_antisym e1 e2); destruct (e1 ?= e2) eqn:E;
    simpl; try reflexivity;
    rewrite (Pos.compare_cont_antisym m1 m2 Eq); simpl; try reflexivity;
    destruct (Pos.compare_cont Eq m1 m2); reflexivity.
Qed.

Lemma SFcompare_refl x : F64.IsNaN x = false → SFcompare x x = Some Eq.
Proof.
  destruct x as [[]|[]| |[] m e]; try done; simpl; intros _;
    rewrite Z.compare_refl, ?Pos.compare_cont_refl; reflexivity.
Qed.

Lemma f64_eqb_sym x y : F64.eqb x y = F64.eqb y x.
Proof.
  unfold F64.eqb, SFeqb. rewrite (SFcompare_antisym x y).
  by destruct (SFcompare x y) as [[]|].
Qed.

Lemma f64_eqb_refl x : F64.IsNaN x = false → F64.eqb x x = true.
Proof. intros H. unfold F64.eqb, SFeqb. by rewrite SFcompare_refl. Qed.

Lemma f64_eqb_nan_l x : F64.eqb F64.NaN x = false.
Proof. by destruct x. Qed.

Lemma f64_eqb_nan_r x : F64.eqb x F64.NaN = false.
Proof. by destruct x as [[]|[]| |[]]. Qed.

Lemma f64_eqb_not_nan x y : F64.eqb x y = true → F64.IsNaN x = false ∧ F64.IsNaN y = false.
Proof. destruct x as [[]|[]| |[]], y as [[]|[]| |[]]; done. Qed.

Lemma f64_gtb_ltb x y : F64.gtb x y = F64.ltb y x.
Proof. reflexivity. Qed.

Lemma f64_ltb_eqb_gtb x y :
  F64.IsNaN x = false → F64.IsNaN y = false →
  F64.ltb x y || F64.eqb x y || F64.gtb x y = true.
Proof.
  unfold F64.ltb, F64.eqb, F64.gtb, SFltb, SFeqb. rewrite (SFcompare_antisym x y).
  destruct x as [[]|[]| |[] m1 e1], y as [[]|[]| |[] m2 e2]; try done; simpl; intros _ _;
    destruct (e1 ?= e2); try done; by destruct (Pos.compare_cont Eq m1 m2).
Qed.

(** Finite values that compare equal and carry the same sign are the same
    value: there is one representation per exponent and mantissa. *)
Lemma SFcompare_Eq_finite s m1 e1 m2 e2 :
  SFcompare (S754_finite s m1 e1) (S754_finite s m2 e2) = Some Eq →
  m1 = m2 ∧ e1 = e2.
Proof.
  destruct s; simpl; destruct (e1 ?= e2) eqn:E; try done;
    apply Z.compare_eq in E; intros H; split; try done;
    apply Pos.compare_eq; unfold Pos.compare;
    by destruct (Pos.compare_cont Eq m1 m2).
Qed.

(** ** Rounding is symmetric in the sign *)

Lemma binary_round_aux_negb s m e l :
  binary_round_aux F64.prec F64.emax (negb s) m e l
  = SFopp (binary_round_aux F64.prec F64.emax s m e l).
Proof.
  unfold binary_round_aux.
  destruct (shr_fexp _ _ m e l) as [mrs' e'].
  destruct (shr_fexp _ _ _ e' loc_Exact) as [mrs'' e''].
  destruct (shr_m mrs''); try reflexivity.
  by destruct (_ <=? _).
Qed.

Lemma SFabs_opp x : SFabs (SFopp x) = SFabs x.
Proof. by destruct x. Qed.

Lemma SFabs_binary_normalize_opp m e sz :
  SFabs (binary_normalize F64.prec F64.emax (- m) e sz)
  = SFabs (binary_normalize F64.prec F64.emax m e sz).
Proof.
  destruct m as [|p|p]; simpl; try reflexivity; unfold binary_round;
    destruct (shl_align _ _ _) as [mz ez];
    change true with (negb false);
    by rewrite binary_round_aux_negb, SFabs_opp.
Qed.

Lemma f64_abs_sub_comm x y : F64.Abs (F64.sub x y) = F64.Abs (F64.sub y x).
Proof.
  unfold F64.Abs, F64.sub.
  destruct x as [[]|[]| |sx mx ex], y as [[]|[]| |sy my ey]; try reflexivity.
  unfold SFsub. rewrite (Z.min_comm ey ex), <- SFabs_binary_normalize_opp.
  do 2 f_equal. lia.
Qed.

Lemma f64_abs_nonneg x : F64.Signbit (F64.Abs x) = false.
Proof. by destruct x. Qed.

Lemma f64_IsNaN_abs x : F64.IsNaN (F64.Abs x) = F64.IsNaN x.
Proof. by destruct x. Qed.

(** ** [math.Max] is commutative on magnitudes *)

Lemma f64_Max_abs_comm x y :
  F64.Max (F64.Abs x) (F64.Abs y) = F64.Max (F64.Abs y) (F64.Abs x).
Proof.
  unfold F64.Max.
  destruct x as [sx|sx| |sx m1 e1], y as [sy|sy| |sy m2 e2]; try reflexivity.
  cbn -[SFcompare]. unfold F64.gtb, SFltb.
  rewrite (SFcompare_antisym (S754_finite false m1 e1)).
  destruct (SFcompare (S754_finite false m1 e1) _) as [[]|] eqn:E;
    try reflexivity; [|done].
  apply SFcompare_Eq_finite in E as [-> ->]. reflexivity.
Qed.

(** ** Sums of products with zero *)

Lemma zero_or_nan_zero : zero_or_nan F64.zero true.
Proof. done. Qed.

Lemma zero_or_nan_add x y b1 b2 :
  zero_or_nan x b1 → zero_or_nan y b2 → zero_or_nan (F64.add x y) (b1 && b2).
Proof. destruct b1, b2; cbn [zero_or_nan andb]; intros Hx Hy; destruct x; try done; destruct y; try done.
  by destruct s, s0.
Qed.

Lemma zero_or_nan_mul_zero_r x : zero_or_nan (F64.mul x F64.zero) (F64.is_finite x).
Proof. by destruct x. Qed.

Lemma zero_or_nan_mul_zero_l x : zero_or_nan (F64.mul F64.zero x) (F64.is_finite x).
Proof. by destruct x. Qed.

Lemma zero_or_nan_mul_one x b : zero_or_nan x b → zero_or_nan (F64.mul F64.one x) b.
Proof. destruct b; simpl; intros Hx; subst; [by destruct x|done]. Qed.

Lemma zero_or_nan_sum {A} (f : A → float64) (fin : A → bool) (ls : list A) acc b :
  zero_or_nan acc b → (∀ l, zero_or_nan (f l) (fin l)) →
  zero_or_nan (foldl (λ acc l, F64.add acc (f l)) acc ls) (b && forallb fin ls).
Proof.
  intros Hacc Hf. revert acc b Hacc.
  induction ls as [|l ls IH]; intros acc b Hacc; simpl; [by rewrite andb_true_r|].
  rewrite andb_assoc. apply IH. by apply zero_or_nan_add.
Qed.

(** [f64]: the rules of [zero_or_nan], for [auto with f64]. *)
Create HintDb f64 discriminated.
#[export] Hint Resolve zero_or_nan_zero zero_or_nan_add zero_or_nan_mul_zero_r
  zero_or_nan_mul_zero_l zero_or_nan_mul_one : f64.

(** ** Sums of products with zeros and a one

    The arithmetic of a product of matrices that are the identity up to the
    sign of their zeros: zeros add to the positive zero, a one absorbs them,
    and a zero times a finite value is a zero. *)

Lemma f64_add_zero_zero z : F64.is_zero z = true → F64.add F64.zero z = F64.zero.
Proof. by destruct z as [[]| | |]. Qed.

Lemma f64_add_one_zero z : F64.is_zero z = true → F64.add F64.one z = F64.one.
Proof. by destruct z. Qed.

Lemma f64_mul_one_one : F64.mul F64.one F64.one = F64.one.
Proof. by vm_compute. Qed.

Lemma f64_mul_zero_l z x :
  F64.is_zero z = true → F64.is_finite x = true → F64.is_zero (F64.mul z x) = true.
Proof. by destruct z, x. Qed.

Lemma f64_mul_zero_r x z :
  F64.is_finite x = true → F64.is_zero z = true → F64.is_zero (F64.mul x z) = true.
Proof. by destruct z, x. Qed.

Lemma f64_is_zero_finite z : F64.is_zero z = true → F64.is_finite z = true.
Proof. by destruct z. Qed.

Lemma f64_neg_is_zero z : F64.is_zero (F64.neg z) = F64.is_zero z.
Proof. by destruct z. Qed.

Section sums.
Context {A : Type} (f : A → float64).

Lemma sum_zeros ls :
  (∀ l, l ∈ ls → F64.is_zero (f l) = true) →
  foldl (λ acc l, F64.add acc (f l)) F64.zero ls = F64.zero.
Proof.
  induction ls as [|l ls IH]; intros Hf; [done|]. cbn [foldl].
  rewrite f64_add_zero_zero by (apply Hf; left). apply IH. intros; apply Hf; by right.
Qed.

Lemma sum_one_keep ls :
  (∀ l, l ∈ ls → F64.is_zero (f l) = true) →
  foldl (λ acc l, F64.add acc (f l)) F64.one ls = F64.one.
Proof.
  induction ls as [|l ls IH]; intros Hf; [done|]. cbn [foldl].
  rewrite f64_add_one_zero by (apply Hf; left). apply IH. intros; apply Hf; by right.
Qed.
End sums.

(** A sum over [0 .. n-1] whose [i]-th term is one and whose other terms
    are zeros is one. *)
Lemma sum_one (f : Z → float64) (n i : Z) :
  0 ≤ i < n → f i = F64.one → (∀ l, 0 ≤ l < n → l ≠ i → F64.is_zero (f l) = true) →
  foldl (λ acc l, F64.add acc (f l)) F64.zero (seqZ 0 n) = F64.one.
Proof.
  intros Hi Hone Hz.
  replace n with (i + (n - i)) by lia. rewrite seqZ_app by lia.
  rewrite (seqZ_cons (0 + i)) by lia. rewrite foldl_app. cbn [foldl].
  rewrite sum_zeros by (intros l [? ?]%elem_of_seqZ; apply Hz; lia).
  rewrite Z.add_0_l, Hone. change (F64.add F64.zero F64.one) with F64.one.
  apply sum_one_keep. intros l [? ?]%elem_of_seqZ. apply Hz; lia.
Qed.
