(* ===== verification/Oracle.v ===== *)
(** * Oracle: the approximate-equality predicates

    [sameApprox] of [internal/asm/f64/asm_test.go] is the pass/fail predicate
    of the vector-kernel tests.  It is built from the predicates of gonum's
    [floats/scalar] package ([Same], [EqualWithinAbs], [EqualWithinRel],
    [EqualWithinAbsOrRel]) and, for whole slices, [floats.EqualApprox]; those
    live outside the sources at hand and are modelled in [Module scalar] from
    their documented behaviour.  The theorems: the oracle is reflexive (NaN
    included) and symmetric, it accepts everything at an infinite tolerance
    only when no NaN is involved, and [Same] tells a value from NaN; a
    comparison of a slice with zeros is a test of every element
    ([EqualApprox_const]). *)

From Stdlib Require Import ZArith Lia SpecFloat.
From stdpp Require Import prelude.
From S2P Require Import Prelude Float64.

#[local] Open Scope Z_scope.

Module scalar.

(** [Same]: equal, or both NaN. *)
Definition Same (a b : float64) : bool :=
  F64.eqb a b || (F64.IsNaN a && F64.IsNaN b).

(** The smallest positive normal number, [0x1p-1022]. *)
Definition minNormalFloat64 : float64 := S754_finite false 4503599627370496 (-1074).

(** [EqualWithinAbs]: [a == b || |a-b| <= tol]. *)
Definition EqualWithinAbs (a b tol : float64) : bool :=
  F64.eqb a b || F64.leb (F64.Abs (F64.sub a b)) tol.

(** [EqualWithinRel]: [|a-b| <= tol * max(|a|,|b|)], with the difference
    compared against [tol * minNormal] when it is subnormal. *)
Definition EqualWithinRel (a b tol : float64) : bool :=
  if F64.eqb a b then true
  else
    let delta := F64.Abs (F64.sub a b) in
    if F64.leb delta minNormalFloat64
    then F64.leb delta (F64.mul tol minNormalFloat64)
    else F64.leb (F64.div delta (F64.Max (F64.Abs a) (F64.Abs b))) tol.

Definition EqualWithinAbsOrRel (a b absTol relTol : float64) : bool :=
  EqualWithinAbs a b absTol || EqualWithinRel a b relTol.

End scalar.

(** [sameApprox] tests for nan-aware equality within tolerance. *)
Definition sameApprox (a b tol : float64) : bool :=
  scalar.Same a b || scalar.EqualWithinAbsOrRel a b tol tol.

(** [floats.EqualApprox]: equal lengths and every pair within tolerance; the
    loop returns at the first pair that is not. *)
Fixpoint EqualApprox_loop (s1 s2 : list float64) (tol : float64) : bool :=
  match s1, s2 with
  | [], _ => true
  | a :: s1', b :: s2' =>
      if negb (scalar.EqualWithinAbsOrRel a b tol tol) then false
      else EqualApprox_loop s1' s2' tol
  | _ :: _, [] => false
  end.

Definition EqualApprox (s1 s2 : list float64) (tol : float64) : bool :=
  if negb (bool_decide (len s1 = len s2)) then false
  else EqualApprox_loop s1 s2 tol.

(** ** The [scalar] predicates *)

Lemma Same_refl a : scalar.Same a a = true.
Proof.
  unfold scalar.Same. destruct (F64.IsNaN a) eqn:E.
  - apply orb_true_r.
  - by rewrite f64_eqb_refl.
Qed.

Lemma Same_sym a b : scalar.Same a b = scalar.Same b a.
Proof.
  unfold scalar.Same. by rewrite f64_eqb_sym, (andb_comm (F64.IsNaN a)).
Qed.

Lemma Same_NaN_l b : scalar.Same F64.NaN b = F64.IsNaN b.
Proof. unfold scalar.Same. by rewrite f64_eqb_nan_l. Qed.

Lemma Same_NaN_r a : scalar.Same a F64.NaN = F64.IsNaN a.
Proof. by rewrite Same_sym, Same_NaN_l. Qed.

Lemma EqualWithinAbs_sym a b tol :
  scalar.EqualWithinAbs a b tol = scalar.EqualWithinAbs b a tol.
Proof.
  unfold scalar.EqualWithinAbs. by rewrite f64_eqb_sym, f64_abs_sub_comm.
Qed.

Lemma EqualWithinRel_sym a b tol :
  scalar.EqualWithinRel a b tol = scalar.EqualWithinRel b a tol.
Proof.
  unfold scalar.EqualWithinRel.
  by rewrite f64_eqb_sym, f64_abs_sub_comm, f64_Max_abs_comm.
Qed.

Lemma EqualWithinAbsOrRel_sym a b absTol relTol :
  scalar.EqualWithinAbsOrRel a b absTol relTol
  = scalar.EqualWithinAbsOrRel b a absTol relTol.
Proof.
  unfold scalar.EqualWithinAbsOrRel.
  by rewrite EqualWithinAbs_sym, EqualWithinRel_sym.
Qed.

(** A NaN operand fails every tolerance test: the difference is NaN, and no
    comparison with NaN holds. *)
Lemma EqualWithinAbsOrRel_NaN_l b absTol relTol :
  scalar.EqualWithinAbsOrRel F64.NaN b absTol relTol = false.
Proof.
  unfold scalar.EqualWithinAbsOrRel, scalar.EqualWithinAbs, scalar.EqualWithinRel.
  rewrite f64_eqb_nan_l. by destruct b.
Qed.

(** ** Comparison with zero *)

Lemma EqualWithinAbsOrRel_zero_or_nan x b absTol relTol :
  zero_or_nan x b → scalar.EqualWithinAbsOrRel x F64.zero absTol relTol = b.
Proof.
  destruct b; simpl; [|intros ->; apply EqualWithinAbsOrRel_NaN_l].
  by destruct x.
Qed.

Lemma EqualApprox_loop_forallb s1 s2 tol :
  length s1 = length s2 →
  EqualApprox_loop s1 s2 tol
  = forallb (λ '(a, b), scalar.EqualWithinAbsOrRel a b tol tol) (zip s1 s2).
Proof.
  revert s2. induction s1 as [|a s1 IH]; intros [|b s2] Hl; try done.
  cbn [EqualApprox_loop zip zip_with forallb]. rewrite IH by (simpl in Hl; lia).
  by destruct (scalar.EqualWithinAbsOrRel a b tol tol).
Qed.

Lemma EqualApprox_const s x tol :
  EqualApprox s (replicate (length s) x) tol
  = forallb (λ a, scalar.EqualWithinAbsOrRel a x tol tol) s.
Proof.
  unfold EqualApprox. rewrite bool_decide_eq_true_2 by (by rewrite len_replicate).
  cbn [negb]. rewrite EqualApprox_loop_forallb by (by rewrite length_replicate).
  induction s as [|a s IH]; [done|]. simpl. by rewrite IH.
Qed.

(** ** The oracle *)

(** C38: the oracle is reflexive: [sameApprox x x tol] holds for every value
    [x], NaN and the infinities included, at every tolerance. *)
Theorem sameApprox_refl (x tol : float64) : sameApprox x x tol = true.
Proof. unfold sameApprox. by rewrite Same_refl. Qed.

(** C37: the oracle is symmetric: [sameApprox a b tol = sameApprox b a tol]. *)
Theorem sameApprox_sym (a b tol : float64) : sameApprox a b tol = sameApprox b a tol.
Proof. unfold sameApprox. by rewrite Same_sym, EqualWithinAbsOrRel_sym. Qed.

(** Against NaN the oracle answers exactly whether the other side is NaN,
    whatever the tolerance (an infinite one included). *)
Theorem sameApprox_NaN (b tol : float64) : sameApprox F64.NaN b tol = F64.IsNaN b.
Proof.
  unfold sameApprox.
  by rewrite Same_NaN_l, EqualWithinAbsOrRel_NaN_l, orb_false_r.
Qed.
