(* ===== verification/Guard.v ===== *)
(** * Guard: guarded vectors and their validators

    The builders and validators of [internal/asm/f64/asm_test.go]:
    [newGuardedVector], [allNaN], [equalStrided], [nonStridedWrite],
    [guardVector], [isValidGuard], [guardIncVector], [checkValidIncGuard];
    a trial of a kernel on a guarded vector ([guardedTrial]), and the
    well-formedness of a guarded vector ([wf_guarded]). *)

From Stdlib Require Import ZArith Lia SpecFloat.
From stdpp Require Import prelude.
From S2P Require Import Prelude Float64 Oracle.

#[local] Open Scope Z_scope.
#[local] Open Scope go_scope.

(** ** Data *)

(** The result of [newGuardedVector]: the backing array [whole] and the three
    slices of it the function returns. *)
Record guarded : Type := Guarded {
  g_whole : list float64;
  g_v : window;
  g_front : window;
  g_back : window;
}.

(** A report of [checkValidIncGuard] ([t.Errorf]): the offset printed and the
    region of the vector printed with it. *)
Inductive violation : Type :=
| FrontGuard (i : Z) (ctx : list float64)
| BackGuard (i : Z) (ctx : list float64)
| InternalGuard (i : Z) (ctx : list float64).

#[export] Instance violation_eq_dec : EqDecision violation.
Proof. solve_decision. Defined.

(** ** Operations *)

(** [if inc < 0 { inc = -inc }] *)
Definition abs_inc (inc : Z) : Z := if decide (inc < 0) then Int.neg inc else inc.

Definition newGuardedVector (data : list float64) (inc : Z) : result guarded :=
  let inc := abs_inc inc in
  let guard := 2 ⊠ inc in
  let size := (len data ⊟ 1) ⊠ inc ⊞ 1 in
  whole ← make F64.zero (size ⊞ 2 ⊠ guard);
  v ← window_of whole guard (len whole ⊟ guard);
  whole ← range_from (λ i _ w, store w i F64.NaN) 0 whole whole;
  whole ← range_from (λ i d w, store_at w v (i ⊠ inc) d) 0 data whole;
  front ← window_of whole 0 guard;
  back ← window_of whole (len whole ⊟ guard) (len whole);
  mret (Guarded whole v front back).

Fixpoint allNaN (x : list float64) : bool :=
  match x with
  | [] => true
  | v :: x' => if negb (F64.IsNaN v) then false else allNaN x'
  end.

Definition equalStrided (ref x : list float64) (inc : Z) : result bool :=
  let inc := abs_inc inc in
  negb <$> range_find
    (λ i v, xi ← index x (i ⊠ inc); mret (negb (scalar.Same xi v))) 0 ref.

Definition nonStridedWrite (x : list float64) (inc : Z) : result bool :=
  let inc := abs_inc inc in
  range_find
    (λ i v, r ← Int.rem i inc;
            mret (negb (bool_decide (r = 0)) && negb (F64.IsNaN v))) 0 x.

Definition guardVector (vec : list float64) (gdVal : float64) (gdLn : Z)
    : result (list float64) :=
  guarded ← make F64.zero (len vec ⊞ gdLn ⊠ 2);
  tail ← window_of guarded gdLn (len guarded);
  let guarded := copy_at guarded tail vec in
  range_from
    (λ i _ g, g ← store g i gdVal; store g (len g ⊟ 1 ⊟ i) gdVal)
    0 (seqZ 0 gdLn) guarded.

Definition isValidGuard (vec : list float64) (gdVal : float64) (gdLn : Z)
    : result bool :=
  negb <$> range_find
    (λ i _, a ← index vec i;
            if negb (scalar.Same a gdVal) then mret true
            else b ← index vec (len vec ⊟ 1 ⊟ i);
                 mret (negb (scalar.Same b gdVal)))
    0 (seqZ 0 gdLn).

Definition guardIncVector (vec : list float64) (gdVal : float64) (inc gdLen : Z)
    : result (list float64) :=
  let inc := abs_inc inc in
  let inrLen := len vec ⊠ inc in
  guarded ← make F64.zero (inrLen ⊞ gdLen ⊠ 2);
  guarded ← range_from (λ i _ g, store g i gdVal) 0 guarded guarded;
  range_from (λ i v g, store g (gdLen ⊞ i ⊠ inc) v) 0 vec guarded.

(** The second case of the [switch]: [(i-gdLen)%inc == 0 && (i-gdLen)/inc < len(vec)]. *)
Definition isInputSlot (vec : list float64) (inc gdLen i : Z) : result bool :=
  r ← Int.rem (i ⊟ gdLen) inc;
  if bool_decide (r = 0)
  then q ← Int.quot (i ⊟ gdLen) inc; mret (bool_decide (q < len vec))
  else mret false.

Definition checkValidIncGuard (vec : list float64) (gdVal : float64) (inc gdLen : Z)
    : result (list violation) :=
  let srcLn := len vec ⊟ 2 ⊠ gdLen in
  range_from
    (λ i vi errs,
       if scalar.Same vi gdVal then mret errs
       else
         input ← isInputSlot vec inc gdLen i;
         if input : bool then mret errs
         else if bool_decide (i < gdLen) then
           ctx ← subslice vec 0 gdLen;
           mret (errs ++ [FrontGuard i ctx])
         else if bool_decide (i > gdLen ⊞ srcLn) then
           ctx ← subslice vec (gdLen ⊞ srcLn) (len vec);
           mret (errs ++ [BackGuard (i ⊟ gdLen ⊟ srcLn) ctx])
         else
           ctx ← subslice vec gdLen (gdLen ⊞ srcLn);
           mret (errs ++ [InternalGuard (i ⊟ gdLen) ctx]))
    0 vec [].

(** ** A trial

    How the tests of the kernels use the guarded vector: build it, run the
    kernel on the slice [v], then check the guards, the slots between the
    strides and the values.  A kernel is given the slice as a window of the
    memory it lives in, since the kernels under test are assembly routines
    that can write anywhere around it; it returns the memory as it leaves
    it.  [footprint w n inc p]: offset [p] of the memory is one of the [n]
    elements at stride [|inc|] of the slice [w]. *)
Definition kernel : Type := list float64 → window → Z → Z → list float64.

Definition footprint (w : window) (n inc : Z) (p : Z) : Prop :=
  ∃ i, 0 ≤ i < n ∧ p = w_off w + i * Z.abs inc.

Definition confined (k : kernel) : Prop :=
  ∀ mem w n inc,
    length (k mem w n inc) = length mem ∧
    ∀ p : nat, ¬ footprint w n inc (Z.of_nat p) → k mem w n inc !! p = mem !! p.

Record verdict : Type := Verdict {
  guards_intact : bool;
  stride_intact : bool;
  values_match : bool;
}.

Definition guardedTrial (k : kernel) (data want : list float64) (inc : Z)
    : result verdict :=
  g ← newGuardedVector data inc;
  let mem := k (g_whole g) (g_v g) (len data) inc in
  let guards := allNaN (view mem (g_front g)) && allNaN (view mem (g_back g)) in
  stray ← nonStridedWrite (view mem (g_v g)) inc;
  same ← equalStrided want (view mem (g_v g)) inc;
  mret (Verdict guards (negb stray) same).

(** A guarded vector is well formed when its three windows tile the
    allocation: the front guard from offset 0, the vector after it, the back
    guard after the vector and up to the end, the guards of one length. *)
Definition wf_guarded (g : guarded) : Prop :=
  w_off (g_front g) = 0 ∧ 0 ≤ w_len (g_front g)
  ∧ w_off (g_v g) = w_len (g_front g) ∧ 0 ≤ w_len (g_v g)
  ∧ w_off (g_back g) = w_off (g_v g) + w_len (g_v g)
  ∧ w_len (g_back g) = w_len (g_front g)
  ∧ w_off (g_back g) + w_len (g_back g) = len (g_whole g).

#[export] Instance wf_guarded_dec g : Decision (wf_guarded g).
Proof. unfold wf_guarded. apply _. Defined.

(** The guarded vector after a kernel ran on its slice: the same windows of
    the memory the kernel left. *)
Definition after_kernel (k : kernel) (g : guarded) (n inc : Z) : guarded :=
  Guarded (k (g_whole g) (g_v g) n inc) (g_v g) (g_front g) (g_back g).

(** Two kernels to try the harness on.  [scalInc alpha] scales the [n]
    strided elements of the slice, as the kernel [ScalInc] does;
    [strayStore p c] stores [c] at offset [p] of the memory, wherever the
    slice lies. *)
Definition scalInc (alpha : float64) : kernel := λ mem w n inc,
  foldl (λ m (i : nat),
           let p := w_off w + Z.of_nat i * Z.abs inc in
           if decide (0 ≤ p) then alter (F64.mul alpha) (Z.to_nat p) m else m)
        mem (seq 0 (Z.to_nat n)).

Definition strayStore (p : nat) (c : float64) : kernel := λ mem _ _ _, <[p := c]> mem.

(** Concrete inputs: the data and the buffer of the scenario with guard
    length 4 and stride 3. *)
Definition data3 : list float64 := Eval vm_compute in F64.of_int <$> [1; 2; 3].
Definition nan3 : list float64 := [F64.NaN; F64.one; F64.NaN].
Definition buf17 : list float64 :=
  Eval vm_compute in
    match guardIncVector data3 F64.NaN 3 4 with Ok g => g | Panic _ => [] end.

(** ** Reference definitions

    What the validators compute, without loops or panics: [inputSlot] is the
    second case of the [switch] of [checkValidIncGuard], [classify] the report
    its last three cases produce at offset [i], and [violations] the whole
    log.  [fits] says that the sizes [guardIncVector] computes for a vector of
    [n] elements do not overflow an [int]. *)
Definition inputSlot (vec : list float64) (inc gdLen i : Z) : bool :=
  bool_decide ((i - gdLen) `rem` inc = 0)
  && bool_decide ((i - gdLen) `quot` inc < len vec).

Definition classify (vec : list float64) (gdLen i : Z) : violation :=
  let srcLn := len vec - 2 * gdLen in
  if bool_decide (i < gdLen) then FrontGuard i (slice_of vec 0 gdLen)
  else if bool_decide (i > gdLen + srcLn)
  then BackGuard (i - gdLen - srcLn) (slice_of vec (gdLen + srcLn) (len vec))
  else InternalGuard (i - gdLen) (slice_of vec gdLen (gdLen + srcLn)).

Definition violations (vec : list float64) (gdVal : float64) (inc gdLen : Z)
    : list violation :=
  mjoin (imap (λ j v, if scalar.Same v gdVal || inputSlot vec inc gdLen (Z.of_nat j)
                       then [] else [classify vec gdLen (Z.of_nat j)]) vec).

(** What [nonStridedWrite] looks for: a slot off the stride [a] that is not
    NaN. *)
Definition strayWrite (x : list float64) (a : Z) : bool :=
  existsb id (imap (λ j v, negb (bool_decide (Z.of_nat j `mod` a = 0))
                           && negb (F64.IsNaN v)) x).

(** One iteration of the loop of [isValidGuard]: whether the pair of guard
    elements at distance [i] from the two ends is damaged. *)
Definition guardPairBad (vec : list float64) (gdVal : float64) (i : Z) : result bool :=
  a ← index vec i;
  if negb (scalar.Same a gdVal) then mret true
  else b ← index vec (len vec ⊟ 1 ⊟ i); mret (negb (scalar.Same b gdVal)).

Definition fits (n inc gdLen : Z) : Prop :=
  0 ≤ gdLen ∧ (n + 1) * Z.abs inc + 2 * gdLen ≤ Int.max_int.

(** The sizes [newGuardedVector] computes for [n] elements at stride [inc] fit
    an [int]; [newGuardedLayout] is the allocation it returns then. *)
Definition fitsNew (n inc : Z) : Prop := (n + 4) * Z.abs inc + 1 ≤ Int.max_int.

Definition newGuardedLayout (data : list float64) (inc : Z) : guarded :=
  let a := Z.abs inc in
  let size := (len data - 1) * a + 1 in
  {| g_whole := replicate (Z.to_nat (2 * a)) F64.NaN
                ++ take (Z.to_nat size) (interleave data (Z.to_nat a) F64.NaN)
                ++ replicate (Z.to_nat (2 * a)) F64.NaN;
     g_v := Window (2 * a) size;
     g_front := Window 0 (2 * a);
     g_back := Window (size + 2 * a) (2 * a) |}.

#[export] Instance fits_dec n inc gdLen : Decision (fits n inc gdLen).
Proof. unfold fits. apply _. Defined.

(** ** The validators of [newGuardedVector] *)

Lemma abs_inc_spec inc : Int.min_int < inc ≤ Int.max_int → abs_inc inc = Z.abs inc.
Proof. intros H. unfold abs_inc. case_decide; int_simpl; int_range. Qed.

Lemma allNaN_Forall x : allNaN x = true ↔ Forall (λ v, F64.IsNaN v = true) x.
Proof.
  induction x as [|v x IH]; simpl; [by split|].
  rewrite Forall_cons. destruct (F64.IsNaN v); simpl; [by rewrite IH; intuition|].
  by split; [|intros [? ?]].
Qed.
Lemma allNaN_false x :
  allNaN x = false ↔ ∃ (j : nat) v, x !! j = Some v ∧ F64.IsNaN v = false.
Proof.
  rewrite <- not_true_iff_false, allNaN_Forall, Forall_lookup. split.
  - intros H. induction x as [|v x IH].
    + destruct H. intros ? ? ?. done.
    + destruct (F64.IsNaN v) eqn:E; [|by exists 0%nat, v].
      destruct IH as (j & w & Hj & Hw); [|by exists (S j), w].
      intros Hx. apply H. intros [|j] w Hj; simpl in *; simplify_eq; [done|]. by eapply Hx.
  - intros (j & v & Hj & Hv) H. specialize (H j v Hj). congruence.
Qed.
Lemma nonStridedWrite_eq x inc :
  inc ≠ 0 → Int.min_int < inc ≤ Int.max_int →
  nonStridedWrite x inc = Ok (strayWrite x (Z.abs inc)).
Proof.
  intros Hinc Hr. unfold nonStridedWrite, strayWrite. rewrite abs_inc_spec by done.
  rewrite (range_find_pure _
    (λ i v, negb (bool_decide (i `mod` Z.abs inc = 0)) && negb (F64.IsNaN v))); [done|].
  intros j v _. rewrite Z.add_0_l, int_rem_nonneg by lia. done.
Qed.

(** C26: for a non-zero stride [nonStridedWrite] does not panic and answers
    whether some slot off the stride holds a value other than NaN. *)
Theorem nonStridedWrite_spec x inc :
  inc ≠ 0 → Int.min_int < inc ≤ Int.max_int →
  nonStridedWrite x inc = Ok (strayWrite x (Z.abs inc)).
Proof. apply nonStridedWrite_eq. Qed.

(** At stride zero the stride check of a non-empty slice divides by
    zero. *)
Lemma nonStridedWrite_zero_panics v x :
  nonStridedWrite (v :: x) 0 = Panic IntegerDivideByZero.
Proof. reflexivity. Qed.

Lemma strayWrite_false x a :
  strayWrite x a = false ↔
  ∀ (j : nat) v, x !! j = Some v → Z.of_nat j `mod` a = 0 ∨ F64.IsNaN v = true.
Proof.
  unfold strayWrite. rewrite existsb_imap_false.
  apply forall_proper; intros j. apply forall_proper; intros v.
  apply forall_proper; intros _.
  case_bool_decide; destruct (F64.IsNaN v); simpl; intuition congruence.
Qed.
Lemma equalStrided_true ref x inc :
  Int.min_int < inc ≤ Int.max_int → len ref * Z.abs inc ≤ Int.max_int →
  equalStrided ref x inc = Ok true ↔
  ∀ (i : nat) v, ref !! i = Some v →
    ∃ xi, x !! (i * Z.to_nat (Z.abs inc))%nat = Some xi ∧ scalar.Same xi v = true.
Proof.
  intros Hr Hmax. unfold equalStrided. rewrite abs_inc_spec by done.
  rewrite fmap_negb_Ok_true, range_find_false.
  apply forall_proper; intros i. apply forall_proper; intros v.
  apply forall_proper; intros Hi. apply lookup_lt_Some in Hi.
  rewrite Z.add_0_l. int_simpl.
  replace (Z.of_nat i * Z.abs inc) with (Z.of_nat (i * Z.to_nat (Z.abs inc))) by lia.
  destruct (x !! (i * Z.to_nat (Z.abs inc))%nat) as [xi|] eqn:E.
  - rewrite (proj2 (index_Ok_nat _ _ _) E). result_simpl.
    destruct (scalar.Same xi v) eqn:ES; simpl.
    + split; [intros _; eauto | done].
    + split; [done | intros (? & [= <-] & ?); congruence].
  - rewrite index_panic.
    + simpl. split; [done|]. by intros (? & ? & ?).
    + apply lookup_ge_None in E. int_range.
Qed.

(** C28: [equalStrided] answers [true] exactly when the slot [i*|inc|] of [x]
    exists and is [Same] as [ref[i]], for every [i]. *)
Theorem equalStrided_true_iff ref x inc :
  Int.min_int < inc ≤ Int.max_int → len ref * Z.abs inc ≤ Int.max_int →
  equalStrided ref x inc = Ok true ↔
  ∀ (i : nat) v, ref !! i = Some v →
    ∃ xi, x !! (i * Z.to_nat (Z.abs inc))%nat = Some xi ∧ scalar.Same xi v = true.
Proof. apply equalStrided_true. Qed.

Lemma equalStrided_is_Ok ref x inc :
  Int.min_int < inc ≤ Int.max_int → len ref * Z.abs inc ≤ Int.max_int →
  (len ref - 1) * Z.abs inc < len x →
  is_Ok (equalStrided ref x inc).
Proof.
  intros Hr Hmax Hx. unfold equalStrided. rewrite abs_inc_spec by done.
  apply is_Ok_fmap, range_find_is_Ok. intros j v Hj. apply lookup_lt_Some in Hj.
  rewrite Z.add_0_l. int_simpl.
  destruct (proj2 (index_is_Ok x (Z.of_nat j * Z.abs inc))) as [xi ->]; [int_range|].
  by eexists.
Qed.

(** Every element of a strided layout is the filler or an element of the
    source, at its stride. *)
Lemma lookup_strided_layout (vec : list float64) (v : float64) (a g1 g2 k : nat) (x : float64) :
  (1 ≤ a)%nat →
  (replicate g1 v ++ interleave vec a v ++ replicate g2 v) !! k = Some x →
  x = v ∨ ∃ i : nat, vec !! i = Some x ∧ k = (g1 + i * a)%nat.
Proof.
  intros Ha. rewrite lookup_app_Some, length_replicate.
  intros [[-> _]%lookup_replicate | [Hk H]]; [by left|].
  apply lookup_app_Some in H as [H | [_ [-> _]%lookup_replicate]]; [|by left].
  pose proof (Nat.div_mod_eq (k - g1) a) as E.
  pose proof (Nat.mod_upper_bound (k - g1) a ltac:(lia)) as Hr.
  rewrite E, (Nat.mul_comm a) in H. rewrite lookup_interleave in H by done.
  case_decide as Hz.
  - right. exists ((k - g1) / a)%nat. split; [done|]. lia.
  - left. destruct (vec !! _); by simplify_eq/=.
Qed.

Lemma view_allNaN mem (w : window) :
  0 ≤ w_off w →
  (∀ (p : nat) x, mem !! p = Some x → w_off w ≤ Z.of_nat p < w_off w + w_len w →
     F64.IsNaN x = true) →
  allNaN (view mem w) = true.
Proof.
  intros Hoff H. apply allNaN_Forall, Forall_lookup. intros j x.
  rewrite lookup_view by done. case_decide; [|done]. intros Hx. eapply H; [done|lia].
Qed.

Lemma strayWrite_true x a (j : nat) v :
  x !! j = Some v → Z.of_nat j `mod` a ≠ 0 → F64.IsNaN v = false → strayWrite x a = true.
Proof.
  intros Hj Hm Hv. destruct (strayWrite x a) eqn:E; [done|].
  rewrite strayWrite_false in E. destruct (E j v Hj); [done|congruence].
Qed.

(** ** [newGuardedVector] *)

Lemma newGuardedVector_layout_eq data inc :
  data ≠ [] → inc ≠ 0 → fitsNew (len data) inc →
  newGuardedVector data inc = Ok (newGuardedLayout data inc).
Proof.
  intros Hdata Hinc Hfit. unfold newGuardedVector, newGuardedLayout, fitsNew in *.
  assert (1 ≤ len data) by (destruct data; [done|list_len; lia]).
  rewrite abs_inc_spec by int_range.
  set (a := Z.abs inc) in *. assert (1 ≤ a) as Ha by lia.
  set (size := (len data - 1) * a + 1).
  int_simpl. fold size. rewrite make_Ok by nia. result_simpl.
  rewrite len_replicate, Z2Nat.id by nia.
  int_simpl. rewrite window_of_Ok by (rewrite ?len_replicate; nia). result_simpl.
  rewrite range_from_fill, length_replicate. result_simpl.
  rewrite (range_from_scatter _ (λ i, Z.to_nat (2 * a + i * Z.of_nat (Z.to_nat a))) (λ _ v, v)).
  2:{ intros j v w Hj Hw. apply lookup_lt_Some in Hj. rewrite Z.add_0_l, Z2Nat.id by lia.
      int_simpl. apply store_at_Ok. simpl. unfold size. int_range. }
  result_simpl.
  replace (Z.to_nat (size + 2 * (2 * a)))
    with (Z.to_nat (2 * a) + (length data * Z.to_nat a + Z.to_nat (a + 1)))%nat
    by (unfold size; int_range).
  rewrite !replicate_add, scatter_stride; [|lia..|rewrite length_replicate; lia].
  set (whole := _ ++ _ ++ _).
  assert (len whole = size + 4 * a) as Hlen.
  { unfold whole, size. list_len. rewrite length_interleave by lia. nia. }
  rewrite Hlen. int_simpl. rewrite !window_of_Ok by (rewrite ?Hlen; nia). result_simpl.
  f_equal.
  replace (size + 2 * (2 * a) - 2 * a - 2 * a) with size by lia.
  replace (2 * a - 0) with (2 * a) by lia.
  replace (size + 4 * a - 2 * a) with (size + 2 * a) by lia.
  replace (size + 4 * a - (size + 2 * a)) with (2 * a) by lia.
  f_equal. unfold whole. f_equal.
  rewrite (interleave_tail data (Z.to_nat a)) at 1 by (done || lia).
  rewrite <- app_assoc. f_equal; [f_equal; unfold size; int_range|].
  rewrite <- replicate_add. f_equal. lia.
Qed.

(** C14: for a non-empty [data] and a non-zero stride, [newGuardedVector]
    allocates [2|inc|] NaNs, the data at stride [|inc|] with NaN between, and
    [2|inc|] NaNs, and returns the three windows of that allocation. *)
Theorem newGuardedVector_layout data inc :
  data ≠ [] → inc ≠ 0 → fitsNew (len data) inc →
  newGuardedVector data inc = Ok (newGuardedLayout data inc).
Proof. apply newGuardedVector_layout_eq. Qed.

(** C31: an empty data sequence cannot be guarded at a stride of two or
    more: the vector view would end before it starts, and the builder
    panics. *)
Theorem newGuardedVector_empty_panics inc :
  2 ≤ Z.abs inc → 4 * Z.abs inc < Int.max_int →
  newGuardedVector [] inc = Panic SliceBoundsOutOfRange.
Proof.
  intros Ha Hmax. unfold newGuardedVector.
  rewrite abs_inc_spec by (unfold Int.min_int, Int.max_int in *; lia).
  set (a := Z.abs inc) in *. clearbody a. change (len (@nil float64)) with 0.
  int_simpl. rewrite make_Ok by lia. result_simpl.
  rewrite window_of_panic; [done|]. list_len. int_simpl. lia.
Qed.

(** Multiples of [math.MinInt64] wrap to zero or to itself, by parity. *)
Lemma int_mul_min_int k : k ⊠ Int.min_int = if Z.even k then 0 else Int.min_int.
Proof.
  unfold Int.mul, Int.wrap, Int.min_int.
  destruct (Z.even k) eqn:E.
  - apply Z.even_spec in E as [j ->].
    replace (2 * j * - 2 ^ 63 + 2 ^ 63) with (2 ^ 63 + (- j) * 2 ^ 64) by lia.
    by rewrite Z_mod_plus_full.
  - apply (f_equal negb) in E. rewrite Z.negb_even in E. apply Z.odd_spec in E as [j ->].
    replace ((2 * j + 1) * - 2 ^ 63 + 2 ^ 63) with (0 + (- j) * 2 ^ 64) by lia.
    by rewrite Z_mod_plus_full.
Qed.

(** C30: at the stride [math.MinInt64] the negation [-inc] wraps to [inc]
    itself, the guard length [2*inc] wraps to 0 and the size [(n-1)*inc+1]
    to 1 or to a negative number, by the parity of [n].  So for one datum
    the builder returns a vector with no guards; for any other odd number
    of data the second store [v[1*inc]] is out of range; and for an even
    number, none included, the allocation has a negative length. *)
Theorem newGuardedVector_min_int data :
  len data ≤ Int.max_int →
  newGuardedVector data Int.min_int
  = match data with
    | [d] => Ok (Guarded [d] (Window 0 1) (Window 0 0) (Window 1 0))
    | _ => Panic (if Z.even (len data) then MakeSliceLenOutOfRange else IndexOutOfRange)
    end.
Proof.
  intros Hmax. destruct data as [|d0 [|d1 data]]; [by vm_compute|by vm_compute|].
  unfold newGuardedVector. change (abs_inc Int.min_int) with Int.min_int.
  change (2 ⊠ Int.min_int) with 0.
  set (n := len (d0 :: d1 :: data)) in *.
  assert (2 ≤ n) by (unfold n; rewrite !len_cons; pose proof (len_nonneg data); lia).
  rewrite (int_sub_small n 1), int_mul_min_int by int_range.
  replace (Z.even (n - 1)) with (negb (Z.even n))
    by (rewrite Z.even_sub; by destruct (Z.even n)).
  destruct (Z.even n); cbn [negb].
  - by rewrite make_panic by (by vm_compute).
  - change (0 ⊞ 1 ⊞ 2 ⊠ 0) with 1. by vm_compute.
Qed.

(** The scaling kernel keeps to its footprint. *)
Lemma scalInc_confined alpha : confined (scalInc alpha).
Proof.
  intros mem w n inc. unfold scalInc.
  assert (∀ i, i ∈ seq 0 (Z.to_nat n) → 0 ≤ Z.of_nat i < n) as Hin
    by (intros i ?%elem_of_seq; lia).
  revert mem Hin. induction (seq 0 (Z.to_nat n)) as [|i l IH]; intros mem Hin; [done|].
  cbn [foldl]. pose proof (Hin i ltac:(left)).
  match goal with |- context [foldl _ ?m l] => destruct (IH m) as [Hl Hp] end.
  { intros j Hj. apply Hin. by right. }
  rewrite Hl. case_decide; [|by split; [|intros p Hf; rewrite Hp]].
  split; [by rewrite length_alter|].
  intros p Hf. rewrite Hp by done. apply list_lookup_alter_ne.
  intros <-. apply Hf. exists (Z.of_nat i). split; [done|lia].
Qed.

Section layout.
#[local] Set Default Proof Using "All".
Context (data : list float64) (inc : Z).
Context (Hdata : data ≠ []) (Hinc : inc ≠ 0) (Hfit : fitsNew (len data) inc).
Let a := Z.abs inc.
Let size := (len data - 1) * a + 1.
Let g := newGuardedLayout data inc.

Lemma layout_len_data : 1 ≤ len data.
Proof. destruct data; [done|list_len; lia]. Qed.

Lemma layout_whole_alt :
  g_whole g = replicate (Z.to_nat (2 * a)) F64.NaN
              ++ interleave data (Z.to_nat a) F64.NaN
              ++ replicate (Z.to_nat (a + 1)) F64.NaN.
Proof.
  pose proof layout_len_data.
  unfold g, newGuardedLayout. simpl. fold a. f_equal.
  rewrite (interleave_tail data (Z.to_nat a)) at 2 by (done || lia).
  rewrite <- app_assoc. f_equal; [f_equal; int_range|].
  rewrite <- replicate_add. f_equal. lia.
Qed.

Lemma layout_length : len (g_whole g) = size + 4 * a.
Proof.
  pose proof layout_len_data.
  rewrite layout_whole_alt. list_len. rewrite length_interleave by lia. unfold size. nia.
Qed.

Lemma layout_off_footprint (p : nat) :
  (p < length (g_whole g))%nat → ¬ footprint (g_v g) (len data) inc (Z.of_nat p) →
  g_whole g !! p = Some F64.NaN.
Proof.
  intros Hp Hf. destruct (lookup_lt_is_Some_2 _ _ Hp) as [x Hx]. rewrite Hx.
  rewrite layout_whole_alt in Hx.
  apply lookup_strided_layout in Hx as [->|(i & Hi & ->)]; [done| |lia].
  destruct Hf. exists (Z.of_nat i). apply lookup_lt_Some in Hi. simpl. fold a. int_range.
Qed.

Lemma layout_range : Int.min_int < inc ≤ Int.max_int.
Proof. pose proof layout_len_data. unfold fitsNew in *. int_range. Qed.

Section trial.
Context (k : kernel) (want : list float64).
Let mem' := k (g_whole g) (g_v g) (len data) inc.
Context (Hlen : length mem' = length (g_whole g)) (Hwant : len want ≤ len data).

Lemma layout_len_view : len (view mem' (g_v g)) = size.
Proof.
  pose proof layout_len_data. pose proof layout_length as HL.
  assert (0 ≤ size) by (unfold size; nia).
  unfold len. rewrite length_view; simpl; fold a size; [lia..|].
  unfold len in *. rewrite Hlen, HL. lia.
Qed.

Lemma trial_unfold :
  guardedTrial k data want inc
  = Verdict (allNaN (view mem' (g_front g)) && allNaN (view mem' (g_back g)))
            (negb (strayWrite (view mem' (g_v g)) a))
    <$> equalStrided want (view mem' (g_v g)) inc.
Proof.
  pose proof layout_range.
  unfold guardedTrial. rewrite newGuardedVector_layout_eq by done. result_simpl.
  fold g mem'. rewrite nonStridedWrite_eq by done. result_simpl.
  by destruct (equalStrided _ _ _).
Qed.

Lemma trial_values_Ok : is_Ok (equalStrided want (view mem' (g_v g)) inc).
Proof.
  pose proof layout_len_data. pose proof layout_range.
  apply equalStrided_is_Ok; [done|unfold fitsNew in *; int_range|].
  rewrite layout_len_view. fold a. unfold size. nia.
Qed.

(** Whatever the kernel leaves NaN off its footprint, the validators see as
    untouched. *)
Lemma trial_clean :
  (∀ (p : nat) x, mem' !! p = Some x →
     ¬ footprint (g_v g) (len data) inc (Z.of_nat p) → F64.IsNaN x = true) →
  allNaN (view mem' (g_front g)) && allNaN (view mem' (g_back g)) = true
  ∧ strayWrite (view mem' (g_v g)) a = false.
Proof.
  intros Hnan. pose proof layout_len_data. pose proof layout_length as HL. split.
  - apply andb_true_intro.
    split; apply view_allNaN; simpl; try nia; intros p x Hp Hr;
      apply (Hnan p x Hp); intros (i & Hi & E); simpl in E; nia.
  - apply strayWrite_false. intros j x. rewrite lookup_view by (simpl; lia).
    case_decide; [|done]. intros Hx.
    destruct (decide (Z.of_nat j `mod` Z.abs inc = 0)) as [|Hm]; [by left|right].
    apply (Hnan _ x Hx). intros (i & Hi & E). simpl in E. apply Hm.
    replace (Z.of_nat j) with (i * Z.abs inc) by lia. apply Z.mod_mul. lia.
Qed.
End trial.

Lemma confined_off_footprint (k : kernel) (p : nat) x :
  confined k → k (g_whole g) (g_v g) (len data) inc !! p = Some x →
  ¬ footprint (g_v g) (len data) inc (Z.of_nat p) → F64.IsNaN x = true.
Proof.
  intros Hk Hp Hf. destruct (Hk (g_whole g) (g_v g) (len data) inc) as [Hlen Hout].
  rewrite (Hout p Hf) in Hp. pose proof (lookup_lt_Some _ _ _ Hp) as Hlt.
  rewrite (layout_off_footprint p Hlt Hf) in Hp. by simplify_eq.
Qed.

(** C1: a kernel that writes only the [n] strided elements of the slice it
    is handed leaves both guards NaN and every slot between the strides NaN:
    the trial reports no guard and no stride violation. *)
Theorem confined_kernel_clean (k : kernel) (want : list float64) :
  confined k → len want ≤ len data →
  ∃ b, guardedTrial k data want inc = Ok (Verdict true true b).
Proof.
  intros Hk Hwant. destruct (Hk (g_whole g) (g_v g) (len data) inc) as [Hlen _].
  rewrite trial_unfold by done.
  destruct (trial_clean k want Hlen Hwant (λ p x, confined_off_footprint k p x Hk))
    as [-> ->].
  destruct (trial_values_Ok k want Hlen Hwant) as [b ->]. by exists b.
Qed.

(** C2: a kernel that leaves a value other than NaN anywhere in the
    allocation outside its strided footprint fails the trial: the guard check
    or the stride check reports it. *)
Theorem stray_write_detected (k : kernel) (want : list float64) (p : nat) x :
  length (k (g_whole g) (g_v g) (len data) inc) = length (g_whole g) →
  len want ≤ len data →
  k (g_whole g) (g_v g) (len data) inc !! p = Some x → F64.IsNaN x = false →
  ¬ footprint (g_v g) (len data) inc (Z.of_nat p) →
  ∃ vd, guardedTrial k data want inc = Ok vd
        ∧ guards_intact vd && stride_intact vd = false.
Proof.
  intros Hlen Hwant Hp Hx Hf. rewrite trial_unfold by done.
  destruct (trial_values_Ok k want Hlen Hwant) as [b ->].
  pose proof layout_len_data. pose proof layout_length as HL.
  set (mem' := k _ _ _ _) in *. eexists. split; [done|].
  cbn [guards_intact stride_intact].
  pose proof (lookup_lt_Some _ _ _ Hp) as Hlt. rewrite Hlen in Hlt.
  assert (0 ≤ size) by (unfold size; nia).
  destruct (decide (Z.of_nat p < 2 * a)) as [Hfront|Hnf].
  { replace (allNaN (view mem' (g_front g))) with false; [reflexivity|]. symmetry.
    apply allNaN_false. exists p, x. split; [|done].
    rewrite lookup_view by done. simpl. fold a. by rewrite decide_True by lia. }
  destruct (decide (Z.of_nat p < 2 * a + size)) as [Hmid|Hback].
  - replace (strayWrite (view mem' (g_v g)) a) with true; [apply andb_false_r|]. symmetry.
    apply (strayWrite_true _ _ (p - Z.to_nat (2 * a)) x); [| |done].
    + rewrite lookup_view by (simpl; lia). simpl. fold a size.
      rewrite decide_True by lia. rewrite <- Hp. f_equal. lia.
    + intros Hm. apply Hf. exists ((Z.of_nat p - 2 * a) `div` a). simpl. fold a.
      replace (Z.of_nat (p - Z.to_nat (2 * a))) with (Z.of_nat p - 2 * a) in Hm by lia.
      pose proof (Z.div_mod (Z.of_nat p - 2 * a) a ltac:(lia)) as E.
      pose proof (Z.div_pos (Z.of_nat p - 2 * a) a ltac:(lia) ltac:(lia)).
      unfold size in *. split; [|lia]. split; [done|]. nia.
  - replace (allNaN (view mem' (g_back g))) with false; [by rewrite andb_false_r|].
    symmetry.
    apply allNaN_false. exists (p - Z.to_nat (size + 2 * a))%nat, x. split; [|done].
    rewrite lookup_view by (simpl; fold a size; lia). simpl. fold a size.
    unfold len in HL. rewrite decide_True by lia. rewrite <- Hp. f_equal. lia.
Qed.

Lemma layout_on_footprint (i : nat) d :
  data !! i = Some d →
  g_whole g !! (Z.to_nat (2 * a) + i * Z.to_nat a)%nat = Some d.
Proof.
  intros E. rewrite layout_whole_alt, lookup_app_r by (rewrite length_replicate; lia).
  rewrite length_replicate, Nat.add_comm, Nat.add_sub, lookup_app_l.
  - replace (i * Z.to_nat a)%nat with (i * Z.to_nat a + 0)%nat by lia.
    by rewrite lookup_interleave by lia.
  - apply lookup_lt_Some in E. rewrite length_interleave by lia. nia.
Qed.

(** C16: a guarded vector validated at once, with no kernel call in between,
    passes all three checks against its own data. *)
Theorem identity_kernel_passes :
  guardedTrial (λ mem _ _ _, mem) data data inc = Ok (Verdict true true true).
Proof.
  pose proof layout_range. pose proof layout_len_data.
  rewrite trial_unfold by (done || lia).
  destruct (trial_clean (λ mem _ _ _, mem) data eq_refl ltac:(lia)) as [-> ->].
  { intros p x Hp Hf. pose proof (lookup_lt_Some _ _ _ Hp) as Hlt.
    rewrite (layout_off_footprint p Hlt Hf) in Hp. by simplify_eq. }
  assert (equalStrided data (view (g_whole g) (g_v g)) inc = Ok true) as ->; [|done].
  apply equalStrided_true; [done|unfold fitsNew in *; int_range|].
  intros i v Hi. exists v. split; [|apply Same_refl].
  pose proof (lookup_lt_Some _ _ _ Hi).
  rewrite lookup_view by (simpl; lia). simpl. fold a size.
  rewrite decide_True by (unfold size; int_range). by apply layout_on_footprint.
Qed.
End layout.

(** ** [guardVector] and [isValidGuard] *)

Lemma guard_ends_loop {B} (v : float64) (l : list B) (D pre mid post D' : list float64) :
  length pre = length l → length post = length l → length D = length D' →
  len (D ++ pre ++ mid ++ post ++ D') ≤ Int.max_int →
  range_from (λ i _ g, g ← store g i v; store g (len g ⊟ 1 ⊟ i) v) (len D) l
    (D ++ pre ++ mid ++ post ++ D')
  = Ok (D ++ replicate (length l) v ++ mid ++ replicate (length l) v ++ D').
Proof.
  revert D pre post D'. induction l as [|b l IH]; intros D pre post D' Hpre Hpost HD Hmax.
  - destruct pre, post; done.
  - destruct pre as [|x pre]; [done|]. destruct post as [|y post _] using rev_ind; [done|].
    cbn [range_from].
    rewrite store_Ok by (list_len; lia). result_simpl. cbn [app].
    rewrite (insert_middle D _ x v) by (list_len; lia).
    rewrite <- (app_assoc post [y] D'). cbn [app].
    assert (D ++ v :: pre ++ mid ++ post ++ y :: D'
            = (D ++ v :: pre ++ mid ++ post) ++ y :: D') as ->
      by (rewrite <- !app_assoc; cbn [app]; by rewrite <- !app_assoc).
    int_simpl.
    rewrite store_Ok by (list_len; lia).
    rewrite (insert_middle _ D' y v) by (list_len; lia).
    specialize (IH (D ++ [v]) pre post (v :: D')).
    rewrite <- !app_assoc in IH. cbn [app] in IH.
    replace (len D + 1) with (len (D ++ [v])) by (list_len; lia).
    rewrite <- !app_assoc. cbn [app]. rewrite <- !app_assoc.
    result_simpl. rewrite IH by (list_len; lia).
    cbn [length replicate app]. by rewrite replicate_cons_middle.
Qed.

Lemma guardVector_layout_eq vec gdVal gdLn :
  0 ≤ gdLn → len vec + 2 * gdLn ≤ Int.max_int →
  guardVector vec gdVal gdLn
  = Ok (replicate (Z.to_nat gdLn) gdVal ++ vec ++ replicate (Z.to_nat gdLn) gdVal).
Proof.
  intros Hgd Hmax. unfold guardVector. pose proof (len_nonneg vec).
  int_simpl. rewrite make_Ok by lia. result_simpl.
  set (g := Z.to_nat gdLn).
  replace (Z.to_nat (len vec + gdLn * 2)) with (g + (length vec + g))%nat by int_range.
  rewrite !replicate_add.
  rewrite window_of_Ok by int_range. result_simpl.
  replace (Window gdLn _) with
    (Window (len (replicate g F64.zero)) (len (replicate (length vec) F64.zero ++ replicate g F64.zero)))
    by (f_equal; int_range).
  rewrite <- (app_nil_r (replicate (length vec) F64.zero ++ _)) at 1.
  rewrite copy_at_app3, app_nil_r.
  unfold copy. rewrite length_app, !length_replicate, take_ge by lia.
  rewrite drop_app_length' by (by rewrite length_replicate).
  pose proof (guard_ends_loop gdVal (seqZ 0 gdLn) [] (replicate g F64.zero) vec
                (replicate g F64.zero) []) as L.
  rewrite length_seqZ, !length_replicate, app_nil_r in L. simpl in L.
  rewrite app_nil_r in L. apply L; [done..|int_range].
Qed.

(** [guardVector] returns [gdLn] sigils, the source vector, and [gdLn]
    sigils. *)
Theorem guardVector_layout vec gdVal gdLn :
  0 ≤ gdLn → len vec + 2 * gdLn ≤ Int.max_int →
  guardVector vec gdVal gdLn
  = Ok (replicate (Z.to_nat gdLn) gdVal ++ vec ++ replicate (Z.to_nat gdLn) gdVal).
Proof. apply guardVector_layout_eq. Qed.

Lemma guardPairBad_false vec gdVal (j : nat) :
  len vec ≤ Int.max_int → (j < length vec)%nat →
  guardPairBad vec gdVal (Z.of_nat j) = Ok false ↔
  (∃ a, vec !! j = Some a ∧ scalar.Same a gdVal = true) ∧
  (∃ b, vec !! (length vec - 1 - j)%nat = Some b ∧ scalar.Same b gdVal = true).
Proof.
  intros Hmax Hj. unfold guardPairBad. int_simpl. unfold len.
  replace (Z.of_nat (length vec) - 1 - Z.of_nat j) with (Z.of_nat (length vec - 1 - j)) by lia.
  destruct (lookup_lt_is_Some_2 vec j Hj) as [a Ha].
  destruct (lookup_lt_is_Some_2 vec (length vec - 1 - j)) as [b Hb]; [lia|].
  rewrite (proj2 (index_Ok_nat _ _ _) Ha). result_simpl.
  rewrite (proj2 (index_Ok_nat _ _ _) Hb).
  destruct (scalar.Same a gdVal) eqn:Ea; simpl;
    [destruct (scalar.Same b gdVal) eqn:Eb; simpl|];
    (split; [intros E | intros [(a' & ? & ?) (b' & ? & ?)]];
     simplify_eq; try done; try congruence; eauto 10).
Qed.

(** [isValidGuard] answers [true] exactly when the first and the last [gdLn]
    elements all are the sigil, up to [Same]. *)
Lemma isValidGuard_true_iff vec gdVal gdLn :
  0 ≤ gdLn ≤ len vec → len vec ≤ Int.max_int →
  isValidGuard vec gdVal gdLn = Ok true ↔
  Forall (λ x, scalar.Same x gdVal = true)
    (take (Z.to_nat gdLn) vec ++ drop (length vec - Z.to_nat gdLn) vec).
Proof.
  intros Hgd Hmax. unfold isValidGuard.
  change (range_find _ 0 _) with (range_find (λ i (_ : Z), guardPairBad vec gdVal i) 0 (seqZ 0 gdLn)).
  rewrite fmap_negb_Ok_true, range_find_false, Forall_app, !Forall_lookup.
  split.
  - intros H. split; intros j x Hx.
    + apply lookup_take_Some in Hx as [Hx Hj]. 
      specialize (H j (Z.of_nat j)). rewrite Z.add_0_l in H.
      apply guardPairBad_false in H as [(a & ? & ?) _]; [by simplify_eq|done|int_range|].
      apply lookup_seqZ. lia.
    + rewrite lookup_drop in Hx. pose proof (lookup_lt_Some _ _ _ Hx) as Hlt.
      set (j' := (Z.to_nat gdLn - 1 - j)%nat).
      specialize (H j' (Z.of_nat j')). rewrite Z.add_0_l in H.
      apply guardPairBad_false in H as [_ (b & Hb & ?)]; [|done|int_range|apply lookup_seqZ; lia].
      replace (length vec - 1 - j')%nat with (length vec - Z.to_nat gdLn + j)%nat in Hb by int_range.
      by simplify_eq.
  - intros [H1 H2] j x [-> Hj]%lookup_seqZ. rewrite !Z.add_0_l.
    apply guardPairBad_false; [done|int_range|].
    destruct (lookup_lt_is_Some_2 vec j) as [a Ha]; [int_range|].
    destruct (lookup_lt_is_Some_2 vec (length vec - 1 - j)) as [b Hb]; [int_range|].
    split; [exists a|exists b]; (split; [done|]).
    + apply (H1 j). apply lookup_take_Some. split; [done|lia].
    + apply (H2 (Z.to_nat gdLn - 1 - j)%nat). rewrite lookup_drop, <- Hb. f_equal. int_range.
Qed.

Lemma guardPairBad_is_Ok vec gdVal (j : nat) :
  len vec ≤ Int.max_int → (j < length vec)%nat →
  is_Ok (guardPairBad vec gdVal (Z.of_nat j)).
Proof.
  intros Hmax Hj. unfold guardPairBad. int_simpl. unfold len.
  replace (Z.of_nat (length vec) - 1 - Z.of_nat j) with (Z.of_nat (length vec - 1 - j)) by lia.
  destruct (lookup_lt_is_Some_2 vec j Hj) as [a Ha].
  destruct (lookup_lt_is_Some_2 vec (length vec - 1 - j)) as [b Hb]; [lia|].
  rewrite (proj2 (index_Ok_nat _ _ _) Ha). result_simpl.
  rewrite (proj2 (index_Ok_nat _ _ _) Hb).
  destruct (negb _); by eexists.
Qed.

(** C27: with a guard length within the vector, [isValidGuard] does not panic
    and answers whether the first and the last [gdLn] elements all are the
    sigil, up to [Same]. *)
Theorem isValidGuard_spec vec gdVal gdLn :
  0 ≤ gdLn ≤ len vec → len vec ≤ Int.max_int →
  isValidGuard vec gdVal gdLn
  = Ok (bool_decide (Forall (λ x, scalar.Same x gdVal = true)
          (take (Z.to_nat gdLn) vec ++ drop (length vec - Z.to_nat gdLn) vec))).
Proof.
  intros Hgd Hmax.
  destruct (isValidGuard vec gdVal gdLn) as [[]|e] eqn:E.
  - by rewrite bool_decide_eq_true_2 by (by apply isValidGuard_true_iff).
  - rewrite bool_decide_eq_false_2; [done|].
    rewrite <- isValidGuard_true_iff by done. congruence.
  - assert (is_Ok (isValidGuard vec gdVal gdLn)) as [b Hb]; [|congruence].
    apply is_Ok_fmap, range_find_is_Ok. intros j x [-> Hj]%lookup_seqZ.
    rewrite !Z.add_0_l. apply (guardPairBad_is_Ok vec gdVal j Hmax). int_range.
Qed.

(** a vector built by [guardVector] passes [isValidGuard] at the same
    sigil and guard length. *)
Theorem isValidGuard_guardVector vec gdVal gdLn :
  0 ≤ gdLn → len vec + 2 * gdLn ≤ Int.max_int →
  guardVector vec gdVal gdLn ≫= (λ g, isValidGuard g gdVal gdLn) = Ok true.
Proof.
  intros Hgd Hmax. rewrite guardVector_layout_eq by done. result_simpl.
  apply isValidGuard_true_iff; [int_range..|].
  rewrite take_app_length' by (by rewrite length_replicate).
  rewrite !length_app, !length_replicate.
  rewrite app_assoc, drop_app_length' by (rewrite length_app, length_replicate; lia).
  rewrite <- replicate_add. apply Forall_replicate, Same_refl.
Qed.

(** C32: asked for guards longer than the vector, [isValidGuard] runs off its
    end: it panics with an index out of range when every element it reads
    before is the sigil. *)
Theorem isValidGuard_short_panics vec gdVal gdLn :
  len vec < gdLn → len vec ≤ Int.max_int →
  Forall (λ x, scalar.Same x gdVal = true) vec →
  isValidGuard vec gdVal gdLn = Panic IndexOutOfRange.
Proof.
  intros Hlt Hmax Hall. unfold isValidGuard.
  rewrite (range_find_panic _ 0 _ (length vec) (len vec) IndexOutOfRange); [done|..].
  - apply lookup_seqZ. int_range.
  - rewrite Z.add_0_l. cbn beta.
    by rewrite (index_panic vec (Z.of_nat (length vec))) by int_range.
  - intros j y Hj [-> _]%lookup_seqZ. rewrite !Z.add_0_l.
    apply guardPairBad_false; [done..|].
    destruct (lookup_lt_is_Some_2 vec j) as [a Ha]; [int_range|].
    destruct (lookup_lt_is_Some_2 vec (length vec - 1 - j)) as [b Hb]; [int_range|].
    rewrite Forall_lookup in Hall. split; eexists; split; eauto.
Qed.

(** ** [guardIncVector] and [checkValidIncGuard] *)

Lemma isInputSlot_spec vec inc gdLen i :
  inc ≠ 0 → Int.in_range inc → 0 ≤ i < len vec → 0 ≤ gdLen ≤ len vec →
  len vec ≤ Int.max_int →
  isInputSlot vec inc gdLen i = Ok (inputSlot vec inc gdLen i).
Proof.
  intros Hinc Hr Hi Hgd Hlen. unfold isInputSlot, inputSlot.
  int_simpl. rewrite int_rem_Ok by done. result_simpl.
  case_bool_decide; [|done].
  rewrite int_quot_Ok; [done|done|int_range|left; int_range].
Qed.

Lemma checkValidIncGuard_eq vec gdVal inc gdLen :
  inc ≠ 0 → Int.in_range inc → 0 ≤ gdLen ≤ len vec →
  len vec ≤ Int.max_int → 2 * gdLen ≤ Int.max_int →
  checkValidIncGuard vec gdVal inc gdLen = Ok (violations vec gdVal inc gdLen).
Proof.
  intros Hinc Hr Hgd Hlen Hgd2. unfold checkValidIncGuard, violations.
  rewrite (range_from_collect _
    (λ i v, if scalar.Same v gdVal || inputSlot vec inc gdLen i
            then [] else [classify vec gdLen i])); [done|].
  intros j v errs Hj. apply lookup_lt_Some in Hj. rewrite Z.add_0_l.
  destruct (scalar.Same v gdVal); simpl; [by rewrite app_nil_r|].
  rewrite isInputSlot_spec by (first [done | int_range]). result_simpl.
  destruct (inputSlot _ _ _ _); [by rewrite app_nil_r|].
  unfold classify. int_simpl.
  repeat case_bool_decide; int_simpl; by rewrite subslice_Ok by int_range.
Qed.

(** C10: for a non-zero stride and a guard length within the vector,
    [checkValidIncGuard] does not panic, scans every offset and logs exactly
    the reports of [violations], in offset order. *)
Theorem checkValidIncGuard_spec vec gdVal inc gdLen :
  inc ≠ 0 → Int.in_range inc → 0 ≤ gdLen ≤ len vec →
  len vec ≤ Int.max_int → 2 * gdLen ≤ Int.max_int →
  checkValidIncGuard vec gdVal inc gdLen = Ok (violations vec gdVal inc gdLen).
Proof. apply checkValidIncGuard_eq. Qed.

Lemma guardIncVector_layout_eq vec gdVal inc gdLen :
  inc ≠ 0 → fits (len vec) inc gdLen →
  guardIncVector vec gdVal inc gdLen
  = Ok (replicate (Z.to_nat gdLen) gdVal
        ++ interleave vec (Z.to_nat (Z.abs inc)) gdVal
        ++ replicate (Z.to_nat gdLen) gdVal).
Proof.
  intros Hinc [Hgd Hfit]. unfold guardIncVector.
  pose proof (len_nonneg vec) as Hn.
  rewrite abs_inc_spec by int_range.
  set (a := Z.abs inc) in *. assert (1 ≤ a) as Ha by lia.
  int_simpl. rewrite make_Ok by nia. result_simpl.
  rewrite range_from_fill, length_replicate. result_simpl.
  rewrite (range_from_scatter _ (λ i, Z.to_nat (gdLen + i * Z.of_nat (Z.to_nat a))) (λ _ v, v)).
  - f_equal.
    replace (Z.to_nat (len vec * a + gdLen * 2))
      with (Z.to_nat gdLen + (length vec * Z.to_nat a + Z.to_nat gdLen))%nat by (unfold len; nia).
    rewrite !replicate_add. apply scatter_stride; [lia..|].
    rewrite length_replicate. lia.
  - intros j v w Hj Hw. apply lookup_lt_Some in Hj. rewrite length_replicate in Hw.
    rewrite Z.add_0_l, Z2Nat.id by lia. int_simpl.
    apply store_Ok. int_range.
Qed.

(** C29: [guardIncVector] returns the front guard, then every element of
    [vec] followed by [|inc|-1] sigils, then the back guard. *)
Theorem guardIncVector_layout vec gdVal inc gdLen :
  inc ≠ 0 → fits (len vec) inc gdLen →
  guardIncVector vec gdVal inc gdLen
  = Ok (replicate (Z.to_nat gdLen) gdVal
        ++ interleave vec (Z.to_nat (Z.abs inc)) gdVal
        ++ replicate (Z.to_nat gdLen) gdVal).
Proof. apply guardIncVector_layout_eq. Qed.

Lemma inputSlot_stride (vec : list float64) inc gdLen i :
  inc ≠ 0 → 0 ≤ i < len vec →
  inputSlot vec inc gdLen (gdLen + i * Z.abs inc) = true.
Proof.
  intros Hinc Hi. unfold inputSlot.
  replace (gdLen + i * Z.abs inc - gdLen) with (i * Z.abs inc) by lia.
  pose proof (Z.quot_rem' (i * Z.abs inc) inc) as E.
  assert ((i * Z.abs inc) `rem` inc = 0) as Hr.
  { apply Z.rem_divide; [done|]. exists (i * Z.sgn inc). lia. }
  rewrite Hr, bool_decide_eq_true_2 by done. simpl.
  apply bool_decide_eq_true_2. nia.
Qed.

Lemma violations_nil_iff vec gdVal inc gdLen :
  violations vec gdVal inc gdLen = [] ↔
  ∀ (j : nat) x, vec !! j = Some x →
    scalar.Same x gdVal = true ∨ inputSlot vec inc gdLen (Z.of_nat j) = true.
Proof.
  unfold violations. rewrite join_imap_nil.
  apply forall_proper; intros j. apply forall_proper; intros x.
  destruct (scalar.Same x gdVal), (inputSlot vec inc gdLen (Z.of_nat j));
    simpl; intuition congruence.
Qed.

(** C23: a vector built by [guardIncVector] and validated at once, with no
    kernel call in between, yields no violation. *)
Theorem checkValidIncGuard_fresh vec gdVal inc gdLen :
  inc ≠ 0 → fits (len vec) inc gdLen →
  guardIncVector vec gdVal inc gdLen ≫= (λ g, checkValidIncGuard g gdVal inc gdLen)
  = Ok [].
Proof.
  intros Hinc Hfit. rewrite guardIncVector_layout_eq by done. result_simpl.
  destruct Hfit as [Hgd Hfit]. pose proof (len_nonneg vec).
  set (g := _ ++ _ ++ _).
  assert (len g = len vec * Z.abs inc + 2 * gdLen) as Hlen.
  { unfold g, len. rewrite !length_app, !length_replicate, length_interleave by lia. nia. }
  rewrite checkValidIncGuard_eq by int_range. f_equal.
  apply violations_nil_iff. intros j x Hj.
  apply lookup_strided_layout in Hj as [->|(i & Hi%lookup_lt_Some & ->)]; [| |lia].
  - left. apply Same_refl.
  - right. rewrite <- (inputSlot_stride g inc gdLen (Z.of_nat i)) by int_range.
    f_equal. lia.
Qed.


(** [checkValidIncGuard] logs nothing exactly when every offset holds the
    sigil (up to [Same]) or is exempted as an input slot: no other offset is
    ever missed, and no early exit hides a later one. *)
Lemma checkValidIncGuard_passes_iff vec gdVal inc gdLen :
  inc ≠ 0 → Int.in_range inc → 0 ≤ gdLen ≤ len vec →
  len vec ≤ Int.max_int → 2 * gdLen ≤ Int.max_int →
  checkValidIncGuard vec gdVal inc gdLen = Ok [] ↔
  ∀ (j : nat) x, vec !! j = Some x →
    scalar.Same x gdVal = true ∨ inputSlot vec inc gdLen (Z.of_nat j) = true.
Proof.
  intros. rewrite checkValidIncGuard_eq by done.
  rewrite <- violations_nil_iff. split; [by intros [= ->]|by intros ->].
Qed.

(** C25: for a positive stride the bound [(i-gdLen)/inc < len(vec)] of the
    input-slot test never fails: the test is the divisibility test alone, in
    the guards as in the data region. *)
Theorem isInputSlot_bound_vacuous vec inc gdLen i :
  0 < inc → Int.in_range inc → 0 ≤ gdLen → 0 ≤ i < len vec → len vec ≤ Int.max_int →
  gdLen ≤ Int.max_int →
  isInputSlot vec inc gdLen i = Ok (bool_decide ((i - gdLen) `rem` inc = 0)).
Proof.
  intros Hinc Hr Hgd Hi Hlen Hgd2. unfold isInputSlot.
  int_simpl. rewrite int_rem_Ok by lia. result_simpl.
  case_bool_decide; [|done].
  rewrite int_quot_Ok; [|lia|int_range|left; int_range]. result_simpl.
  f_equal. apply bool_decide_eq_true_2.
  pose proof (Z.quot_rem' (i - gdLen) inc). nia.
Qed.

Lemma inputSlot_unit (vec : list float64) gdLen i :
  0 ≤ gdLen → i < len vec → inputSlot vec 1 gdLen i = true.
Proof.
  intros. unfold inputSlot. rewrite Z.rem_1_r, Z.quot_1_r.
  rewrite !bool_decide_eq_true_2; [done|lia|done].
Qed.

(** C34: at stride 1 every offset counts as an input slot, so
    [checkValidIncGuard] accepts every vector whatever it holds. *)
Theorem checkValidIncGuard_unit_stride vec gdVal gdLen :
  0 ≤ gdLen ≤ len vec → len vec ≤ Int.max_int → 2 * gdLen ≤ Int.max_int →
  checkValidIncGuard vec gdVal 1 gdLen = Ok [].
Proof.
  intros. apply checkValidIncGuard_passes_iff; [done|int_range|done..|].
  intros j x Hj. right. apply inputSlot_unit; [lia|].
  apply lookup_lt_Some in Hj. unfold len. lia.
Qed.

Lemma inputSlot_insert (vec : list float64) inc gdLen i (k : nat) x :
  inputSlot (<[k:=x]> vec) inc gdLen i = inputSlot vec inc gdLen i.
Proof. unfold inputSlot. by rewrite len_insert. Qed.

(** C12: overwriting an exempted offset with any value, a guard offset at a
    multiple of the stride from the data start included, turns no passing
    vector into a failing one. *)
Theorem checkValidIncGuard_blind vec gdVal inc gdLen (k : nat) x :
  inc ≠ 0 → Int.in_range inc → 0 ≤ gdLen ≤ len vec →
  len vec ≤ Int.max_int → 2 * gdLen ≤ Int.max_int →
  inputSlot vec inc gdLen (Z.of_nat k) = true →
  checkValidIncGuard vec gdVal inc gdLen = Ok [] →
  checkValidIncGuard (<[k:=x]> vec) gdVal inc gdLen = Ok [].
Proof.
  intros Hinc Hr Hgd Hlen Hgd2 Hk.
  rewrite !checkValidIncGuard_passes_iff by (rewrite ?len_insert; done).
  intros H j y Hj. rewrite inputSlot_insert.
  destruct (decide (k = j)) as [->|Hne]; [by right|].
  rewrite list_lookup_insert_ne in Hj by done. by apply H.
Qed.

(** C24: an offset that is not exempted and holds a value other than the
    sigil is logged, with the report of its region. *)
Theorem checkValidIncGuard_detects vec gdVal inc gdLen (k : nat) x :
  inc ≠ 0 → Int.in_range inc → 0 ≤ gdLen ≤ len vec →
  len vec ≤ Int.max_int → 2 * gdLen ≤ Int.max_int →
  vec !! k = Some x → scalar.Same x gdVal = false →
  inputSlot vec inc gdLen (Z.of_nat k) = false →
  ∃ vs, checkValidIncGuard vec gdVal inc gdLen = Ok vs
        ∧ classify vec gdLen (Z.of_nat k) ∈ vs.
Proof.
  intros Hinc Hr Hgd Hlen Hgd2 Hk Hx Hs. eexists. split; [by apply checkValidIncGuard_eq|].
  unfold violations. apply list_elem_of_join. eexists. split; [|apply elem_of_lookup_imap; eauto].
  rewrite Hx, Hs. simpl. by apply list_elem_of_singleton.
Qed.

(** C33: the first slot of the back guard is not counted as back guard: the
    case [i > gdLen+srcLn] starts one slot late, so damage at offset
    [gdLen+srcLn] is logged as an internal guard violation, and no back
    guard report carries the offset 0. *)
Theorem checkValidIncGuard_back_first vec gdVal inc gdLen x :
  inc ≠ 0 → Int.in_range inc → 0 < gdLen → 2 * gdLen ≤ len vec →
  len vec ≤ Int.max_int →
  vec !! Z.to_nat (len vec - gdLen) = Some x → scalar.Same x gdVal = false →
  inputSlot vec inc gdLen (len vec - gdLen) = false →
  ∃ vs, checkValidIncGuard vec gdVal inc gdLen = Ok vs
        ∧ InternalGuard (len vec - 2 * gdLen) (slice_of vec gdLen (len vec - gdLen)) ∈ vs
        ∧ ∀ i ctx, BackGuard i ctx ∈ vs → 0 < i.
Proof.
  intros Hinc Hr Hgd Hlen Hmax Hk Hx Hs. eexists.
  split; [apply checkValidIncGuard_eq; done || lia|]. unfold violations. split.
  - apply list_elem_of_join. eexists. split; [|apply elem_of_lookup_imap; eauto].
    rewrite Hx, Z2Nat.id, Hs by lia. simpl. unfold classify.
    rewrite bool_decide_eq_false_2, bool_decide_eq_false_2 by lia.
    apply list_elem_of_singleton. f_equal; [lia|f_equal; lia].
  - intros i ctx (l & Hl & (j & y & -> & Hj)%elem_of_lookup_imap)%list_elem_of_join.
    destruct (_ || _); [by apply elem_of_nil in Hl|].
    apply list_elem_of_singleton in Hl. unfold classify in Hl.
    repeat case_bool_decide; simplify_eq. lia.
Qed.

(** ** Well-formedness of guarded vectors *)

Lemma wf_guarded_tile g :
  wf_guarded g →
  view (g_whole g) (g_front g) ++ view (g_whole g) (g_v g) ++ view (g_whole g) (g_back g)
  = g_whole g.
Proof.
  destruct g as [whole [vo vl] [fo fl] [bo bl]]. unfold wf_guarded, view. simpl.
  intros (-> & Hfl & -> & Hvl & -> & -> & Hlen). rewrite drop_0.
  rewrite Z2Nat.inj_add, <- drop_drop by lia.
  rewrite (take_ge (drop _ (drop _ _))) by (rewrite !length_drop; unfold len in *; lia).
  by rewrite !take_drop.
Qed.

Lemma wf_guarded_kernel (k : kernel) g n inc :
  confined k → wf_guarded g → wf_guarded (after_kernel k g n inc).
Proof.
  intros Hk Hwf. destruct (Hk (g_whole g) (g_v g) n inc) as [Hlen _].
  unfold wf_guarded, after_kernel, len in *. simpl. by rewrite Hlen.
Qed.

Lemma newGuardedLayout_wf data inc :
  data ≠ [] → inc ≠ 0 → fitsNew (len data) inc → wf_guarded (newGuardedLayout data inc).
Proof.
  intros Hdata Hinc Hfit. pose proof (layout_length data inc Hdata Hinc Hfit) as Hlen.
  pose proof (layout_len_data data inc Hdata Hinc Hfit).
  unfold wf_guarded. rewrite Hlen. simpl. repeat split; nia.
Qed.

(** C18: the builder returns a well-formed guarded vector, and a kernel that
    keeps to its footprint leaves it well formed: the front guard, the
    vector and the back guard tile the allocation before and after the
    kernel ran, so the validators read the guards where the builder put
    them. *)
Theorem newGuardedVector_wf data inc (k : kernel) :
  data ≠ [] → inc ≠ 0 → fitsNew (len data) inc → confined k →
  ∃ g, newGuardedVector data inc = Ok g ∧ wf_guarded g
       ∧ wf_guarded (after_kernel k g (len data) inc).
Proof.
  intros Hdata Hinc Hfit Hk. exists (newGuardedLayout data inc).
  rewrite newGuardedVector_layout_eq by done.
  auto using newGuardedLayout_wf, wf_guarded_kernel.
Qed.

(** ** The theorems at concrete inputs *)

Lemma nonStridedWrite_spec_witness :
  nonStridedWrite nan3 (-2) = Ok (strayWrite nan3 (Z.abs (-2))).
Proof. apply (nonStridedWrite_spec nan3 (-2)); [done|int_range]. Defined.

Lemma equalStrided_true_iff_witness :
  equalStrided [F64.one] nan3 (-1) = Ok true ↔
  ∀ (i : nat) v, [F64.one] !! i = Some v →
    ∃ xi, nan3 !! (i * Z.to_nat (Z.abs (-1)))%nat = Some xi ∧ scalar.Same xi v = true.
Proof. apply (equalStrided_true_iff [F64.one] nan3 (-1)); int_range. Defined.

Lemma newGuardedVector_layout_witness :
  newGuardedVector data3 (-3) = Ok (newGuardedLayout data3 (-3)).
Proof. apply (newGuardedVector_layout data3 (-3)); [done|done|unfold fitsNew; int_range]. Defined.

Lemma newGuardedVector_empty_panics_witness :
  newGuardedVector [] 2 = Panic SliceBoundsOutOfRange.
Proof. apply (newGuardedVector_empty_panics 2); int_range. Defined.

Lemma confined_kernel_clean_witness :
  ∃ b, guardedTrial (scalInc F64.two) data3 data3 (-3) = Ok (Verdict true true b).
Proof.
  apply (confined_kernel_clean data3 (-3));
    [done|done|unfold fitsNew; int_range|apply scalInc_confined|int_range].
Defined.

Lemma stray_write_detected_witness :
  ∃ vd, guardedTrial (strayStore 8 F64.one) data3 data3 3 = Ok vd
        ∧ guards_intact vd && stride_intact vd = false.
Proof.
  apply (stray_write_detected data3 3 ltac:(done) ltac:(done) ltac:(unfold fitsNew; int_range)
           (strayStore 8 F64.one) data3 8 F64.one); [done|int_range|done|done|].
  intros (i & Hi & E). simpl in E. lia.
Defined.

Lemma identity_kernel_passes_witness :
  guardedTrial (λ mem _ _ _, mem) data3 data3 3 = Ok (Verdict true true true).
Proof. apply (identity_kernel_passes data3 3); [done|done|unfold fitsNew; int_range]. Defined.

Lemma guardVector_layout_witness :
  guardVector data3 F64.NaN 2
  = Ok (replicate (Z.to_nat 2) F64.NaN ++ data3 ++ replicate (Z.to_nat 2) F64.NaN).
Proof. apply (guardVector_layout data3 F64.NaN 2); int_range. Defined.

Lemma isValidGuard_spec_witness :
  isValidGuard nan3 F64.NaN 1
  = Ok (bool_decide (Forall (λ x, scalar.Same x F64.NaN = true)
          (take (Z.to_nat 1) nan3 ++ drop (length nan3 - Z.to_nat 1) nan3))).
Proof. apply (isValidGuard_spec nan3 F64.NaN 1); int_range. Defined.

Lemma isValidGuard_guardVector_witness :
  guardVector data3 F64.NaN 2 ≫= (λ g, isValidGuard g F64.NaN 2) = Ok true.
Proof. apply (isValidGuard_guardVector data3 F64.NaN 2); int_range. Defined.

Lemma isValidGuard_short_panics_witness :
  isValidGuard [F64.NaN] F64.NaN 2 = Panic IndexOutOfRange.
Proof.
  apply (isValidGuard_short_panics [F64.NaN] F64.NaN 2); [int_range..|].
  by repeat constructor.
Defined.

Lemma checkValidIncGuard_spec_witness :
  checkValidIncGuard buf17 F64.NaN 3 4 = Ok (violations buf17 F64.NaN 3 4).
Proof. apply (checkValidIncGuard_spec buf17 F64.NaN 3 4); [done|int_range..]. Defined.

Lemma guardIncVector_layout_witness :
  guardIncVector data3 F64.NaN (-3) 4
  = Ok (replicate (Z.to_nat 4) F64.NaN
        ++ interleave data3 (Z.to_nat (Z.abs (-3))) F64.NaN
        ++ replicate (Z.to_nat 4) F64.NaN).
Proof. apply (guardIncVector_layout data3 F64.NaN (-3) 4); [done|unfold fits; int_range]. Defined.

Lemma checkValidIncGuard_fresh_witness :
  guardIncVector data3 F64.NaN 3 4 ≫= (λ g, checkValidIncGuard g F64.NaN 3 4) = Ok [].
Proof. apply (checkValidIncGuard_fresh data3 F64.NaN 3 4); [done|unfold fits; int_range]. Defined.

Lemma isInputSlot_bound_vacuous_witness :
  isInputSlot buf17 3 4 13 = Ok (bool_decide ((13 - 4) `rem` 3 = 0)).
Proof. apply (isInputSlot_bound_vacuous buf17 3 4 13); int_range. Defined.

Lemma checkValidIncGuard_unit_stride_witness :
  checkValidIncGuard data3 F64.NaN 1 1 = Ok [].
Proof. apply (checkValidIncGuard_unit_stride data3 F64.NaN 1); int_range. Defined.

Lemma checkValidIncGuard_blind_witness :
  checkValidIncGuard (<[13%nat := F64.one]> buf17) F64.NaN 3 4 = Ok [].
Proof.
  apply (checkValidIncGuard_blind buf17 F64.NaN 3 4 13 F64.one); [done|int_range..|done|done].
Defined.

Lemma checkValidIncGuard_detects_witness :
  ∃ vs, checkValidIncGuard (<[14%nat := F64.one]> buf17) F64.NaN 3 4 = Ok vs
        ∧ classify (<[14%nat := F64.one]> buf17) 4 (Z.of_nat 14) ∈ vs.
Proof.
  apply (checkValidIncGuard_detects (<[14%nat := F64.one]> buf17) F64.NaN 3 4 14 F64.one);
    [done|int_range..|done|done|done].
Defined.

Lemma newGuardedVector_wf_witness :
  ∃ g, newGuardedVector data3 3 = Ok g ∧ wf_guarded g
       ∧ wf_guarded (after_kernel (scalInc F64.two) g (len data3) 3).
Proof.
  apply (newGuardedVector_wf data3 3 (scalInc F64.two));
    [done|done|by vm_compute|apply scalInc_confined].
Defined.

Lemma newGuardedVector_min_int_witness :
  newGuardedVector [F64.one; F64.two; F64.one] Int.min_int = Panic IndexOutOfRange.
Proof.
  apply (newGuardedVector_min_int [F64.one; F64.two; F64.one]). by vm_compute.
Defined.

Lemma checkValidIncGuard_back_first_witness :
  ∃ vs, checkValidIncGuard (replicate 10 F64.one) F64.NaN 3 4 = Ok vs
        ∧ InternalGuard (len (replicate 10 F64.one) - 2 * 4)
            (slice_of (replicate 10 F64.one) 4 (len (replicate 10 F64.one) - 4)) ∈ vs
        ∧ ∀ i ctx, BackGuard i ctx ∈ vs → 0 < i.
Proof.
  apply (checkValidIncGuard_back_first (replicate 10 F64.one) F64.NaN 3 4 F64.one);
    [done|int_range..|done|done|done].
Defined.
