(* ===== verification/IncSet.v ===== *)
(** * IncSet: the parameter-space enumerator and the random inputs

    Models the part of [src/internal/asm/f64/asm_test.go] that produces the
    configurations and the inputs of the trials: the alignment sets
    [align1], [align2], [align3], the enumerators [newIncSet] and
    [newIncToSet] with their nested index loops, and [randomSlice] and
    [randSlice] over an abstract pseudo-random source ([Rand]).  The
    enumerators are proved equal to the Cartesian product in lexicographic
    order, addressable by index; the random slices are proved to consume
    the source sequentially and to hold values of the unit interval. *)
From stdpp Require Import prelude.
From S2P Require Import Prelude.
From S2P Require Import Float64.
#[local] Open Scope Z_scope.
#[local] Open Scope go_scope.

(** ** Data *)

Record incSet : Type := IncSet { is_x : Z; is_y : Z }.

Record incToSet : Type := IncToSet { its_dst : Z; its_x : Z; its_y : Z }.

#[export] Instance incSet_eq_dec : EqDecision incSet.
Proof. solve_decision. Defined.

#[export] Instance incToSet_eq_dec : EqDecision incToSet.
Proof. solve_decision. Defined.

(** ** Operations *)

Definition newIncSet (inc : list Z) : result (list incSet) :=
  let n := len inc in
  is_ ← make (IncSet 0 0) (n ⊠ n);
  range_from (λ x _ is_,
    range_from (λ y _ is_,
      ix ← index inc x;
      iy ← index inc y;
      store is_ (x ⊠ n ⊞ y) (IncSet ix iy)) 0 inc is_) 0 inc is_.

Definition newIncToSet (inc : list Z) : result (list incToSet) :=
  let n := len inc in
  is_ ← make (IncToSet 0 0 0) (n ⊠ n ⊠ n);
  range_from (λ i dst is_,
    range_from (λ x _ is_,
      range_from (λ y _ is_,
        ix ← index inc x;
        iy ← index inc y;
        store is_ (i ⊠ n ⊠ n ⊞ x ⊠ n ⊞ y) (IncToSet dst ix iy)) 0 inc is_) 0 inc is_) 0 inc is_.

Definition align1 : list Z := [0; 1].
Definition align2 : result (list incSet) := newIncSet [0; 1].
Definition align3 : result (list incToSet) := newIncToSet [0; 1].

(** ** Reference definitions: the Cartesian product in lexicographic order *)

Definition incPairs (inc : list Z) : list incSet :=
  vx ← inc; IncSet vx <$> inc.

Definition incTriples (inc : list Z) : list incToSet :=
  d ← inc; vx ← inc; IncToSet d vx <$> inc.

(** ** The pseudo-random source *)

Definition in_unit (v : float64) : bool := F64.leb F64.zero v && F64.ltb v F64.one.

Class Rand (G : Type) : Type := {
  Float64 : G → float64 * G;
  Float64_unit : ∀ r, in_unit (Float64 r).1 = true;
}.

Definition replay_next (r : list float64) : float64 * list float64 :=
  match r with
  | [] => (F64.zero, [])
  | v :: r' => (if in_unit v then v else F64.zero, r')
  end.

#[export] Instance replay : Rand (list float64).
Proof.
  refine {| Float64 := replay_next |}.
  intros [|v r]; [done|]. simpl. by destruct (in_unit v) eqn:E.
Defined.

Section random.
Context `{Rand G}.

Definition randomSlice (n inc : Z) (global : G) : result (list float64 * G) :=
  let inc := if decide (inc < 0) then Int.neg inc else inc in
  x ← make F64.zero ((n ⊟ 1) ⊠ inc ⊞ 1);
  range_from (λ i _ '(x, global),
    let '(v, global) := Float64 global in
    x ← store x i v; mret (x, global)) 0 x (x, global).

Definition randSlice (n inc : Z) (r : G) : result (list float64 * G) :=
  let inc := if decide (inc < 0) then Int.neg inc else inc in
  x ← make F64.zero ((n ⊟ 1) ⊠ inc ⊞ 1);
  range_from (λ i _ '(x, r),
    let '(v, r) := Float64 r in
    x ← store x i v; mret (x, r)) 0 x (x, r).

(** The first [k] values of the stream, and the source after them. *)
Fixpoint draws (k : nat) (r : G) : list float64 * G :=
  match k with
  | O => ([], r)
  | S k => let '(v, r) := Float64 r in
           let '(l, r) := draws k r in (v :: l, r)
  end.
End random.

(** Concrete inputs: three increments, and a recorded stream to replay. *)
Definition incs3 : list Z := [1; -2; 4].
Definition tape : list float64 :=
  Eval vm_compute in [F64.lit 5 (-1); F64.lit 25 (-2); F64.NaN; F64.lit 75 (-2); F64.one].

(** ** Lemmas: the loops of the enumerators, one level at a time *)

(** One row of the pair table: the inner loop of [newIncSet]. *)
Lemma newIncSet_row (inc : list Z) (j : nat) v (p o q : list incSet) :
  len inc * len inc ≤ Int.max_int →
  inc !! j = Some v → length p = (j * length inc)%nat → length o = length inc →
  range_from (λ y _ is_,
      ix ← index inc (Z.of_nat j); iy ← index inc y;
      store is_ (Z.of_nat j ⊠ len inc ⊞ y) (IncSet ix iy)) 0 inc (p ++ o ++ q)
  = Ok (p ++ (IncSet v <$> inc) ++ q).
Proof.
  intros Hmax Hj Hp Ho. pose proof (lookup_lt_Some _ _ _ Hj) as Hlt.
  rewrite (range_from_blocks _ (λ _ vy, [IncSet v vy]) 1); [|lia|done|].
  { by rewrite join_imap_singleton. }
  intros j' v' p' o' q' Hj' Hp' Ho'. pose proof (lookup_lt_Some _ _ _ Hj') as Hlt'.
  rewrite Z.add_0_l, (index_lookup _ _ _ Hj), (index_lookup _ _ _ Hj'). result_simpl.
  destruct o' as [|o1 [|]]; [done| |done]. int_simpl.
  apply store_middle. list_len. lia.
Qed.

Lemma newIncSet_eq (inc : list Z) :
  len inc * len inc ≤ Int.max_int → newIncSet inc = Ok (incPairs inc).
Proof.
  intros Hmax. unfold newIncSet. int_simpl. rewrite make_Ok by (list_len; nia).
  result_simpl.
  rewrite <- (app_nil_r (replicate _ _)), <- (app_nil_l (replicate _ _ ++ [])).
  rewrite (range_from_blocks _ (λ _ vx, IncSet vx <$> inc) (length inc)).
  - by rewrite join_imap_const, app_nil_r.
  - rewrite length_replicate. list_len. lia.
  - intros. by rewrite length_fmap.
  - intros j v p o q Hj Hp Ho. rewrite Z.add_0_l. by apply newIncSet_row.
Qed.

Lemma newIncToSet_row (inc : list Z) (i j : nat) d v (p o q : list incToSet) :
  len inc * len inc * len inc ≤ Int.max_int →
  inc !! i = Some d → inc !! j = Some v →
  length p = (i * length inc * length inc + j * length inc)%nat → length o = length inc →
  range_from (λ y _ is_,
      ix ← index inc (Z.of_nat j); iy ← index inc y;
      store is_ (Z.of_nat i ⊠ len inc ⊠ len inc ⊞ Z.of_nat j ⊠ len inc ⊞ y)
            (IncToSet d ix iy)) 0 inc (p ++ o ++ q)
  = Ok (p ++ (IncToSet d v <$> inc) ++ q).
Proof.
  intros Hmax Hi Hj Hp Ho. pose proof (lookup_lt_Some _ _ _ Hj) as Hlt.
  pose proof (lookup_lt_Some _ _ _ Hi) as Hlti.
  rewrite (range_from_blocks _ (λ _ vy, [IncToSet d v vy]) 1); [|lia|done|].
  { by rewrite join_imap_singleton. }
  intros j' v' p' o' q' Hj' Hp' Ho'. pose proof (lookup_lt_Some _ _ _ Hj') as Hlt'.
  rewrite Z.add_0_l, (index_lookup _ _ _ Hj), (index_lookup _ _ _ Hj'). result_simpl.
  destruct o' as [|o1 [|]]; [done| |done]. int_simpl.
  apply store_middle. list_len. lia.
Qed.

Lemma newIncToSet_plane (inc : list Z) (i : nat) d (p o q : list incToSet) :
  len inc * len inc * len inc ≤ Int.max_int →
  inc !! i = Some d →
  length p = (i * (length inc * length inc))%nat → length o = (length inc * length inc)%nat →
  range_from (λ x _ is_,
    range_from (λ y _ is_,
      ix ← index inc x; iy ← index inc y;
      store is_ (Z.of_nat i ⊠ len inc ⊠ len inc ⊞ x ⊠ len inc ⊞ y)
            (IncToSet d ix iy)) 0 inc is_) 0 inc (p ++ o ++ q)
  = Ok (p ++ (vx ← inc; IncToSet d vx <$> inc) ++ q).
Proof.
  intros Hmax Hi Hp Ho.
  rewrite (range_from_blocks _ (λ _ vx, IncToSet d vx <$> inc) (length inc)).
  - by rewrite join_imap_const.
  - done.
  - intros. by rewrite length_fmap.
  - intros j v p' o' q' Hj Hp' Ho'. rewrite Z.add_0_l.
    apply newIncToSet_row; [done..|lia|done].
Qed.

Lemma newIncToSet_eq (inc : list Z) :
  len inc * len inc * len inc ≤ Int.max_int → newIncToSet inc = Ok (incTriples inc).
Proof.
  intros Hmax. unfold newIncToSet. int_simpl. rewrite make_Ok by (list_len; nia).
  result_simpl.
  rewrite <- (app_nil_r (replicate _ _)), <- (app_nil_l (replicate _ _ ++ [])).
  rewrite (range_from_blocks _ (λ _ d, vx ← inc; IncToSet d vx <$> inc)
             (length inc * length inc)).
  - by rewrite join_imap_const, app_nil_r.
  - rewrite length_replicate. list_len. lia.
  - intros j d. by rewrite (length_bind_const _ _ (length inc)) by (intros; apply length_fmap).
  - intros j v p o q Hj Hp Ho. rewrite Z.add_0_l. apply newIncToSet_plane; [done..|simpl in *; lia|done].
Qed.

(** ** Theorems: the enumerators *)

(** C20: [newIncSet] returns the Cartesian square of its arguments in
    lexicographic order, whenever the square of their number is an [int]. *)
Theorem newIncSet_spec (inc : list Z) :
  len inc * len inc ≤ Int.max_int → newIncSet inc = Ok (incPairs inc).
Proof. apply newIncSet_eq. Qed.

(** C19: [newIncToSet] returns the Cartesian cube of its arguments in
    lexicographic order, destination first, whenever the cube of their number
    is an [int]. *)
Theorem newIncToSet_spec (inc : list Z) :
  len inc * len inc * len inc ≤ Int.max_int → newIncToSet inc = Ok (incTriples inc).
Proof. apply newIncToSet_eq. Qed.

(** a configuration of [newIncSet] is found by its index: the pair of
    the [i]-th and the [j]-th argument is the element [i*n+j]. *)
Theorem newIncSet_lookup (inc : list Z) (i j : nat) vx vy :
  len inc * len inc ≤ Int.max_int → inc !! i = Some vx → inc !! j = Some vy →
  newIncSet inc ≫= (λ l, index l (Z.of_nat i * len inc + Z.of_nat j)) = Ok (IncSet vx vy).
Proof.
  intros Hmax Hi Hj. rewrite newIncSet_eq by done. result_simpl.
  pose proof (lookup_lt_Some _ _ _ Hj).
  replace (Z.of_nat i * len inc + Z.of_nat j) with (Z.of_nat (i * length inc + j))
    by (list_len; lia).
  apply index_lookup. unfold incPairs.
  rewrite (lookup_bind_const _ _ (length inc) i j vx); [|intros; apply length_fmap|done..].
  by rewrite list_lookup_fmap, Hj.
Qed.

(** a configuration of [newIncToSet] is found by its index: the triple
    of the [d]-th, [i]-th and [j]-th argument is the element [d*n*n+i*n+j]. *)
Theorem newIncToSet_lookup (inc : list Z) (d i j : nat) vd vx vy :
  len inc * len inc * len inc ≤ Int.max_int →
  inc !! d = Some vd → inc !! i = Some vx → inc !! j = Some vy →
  newIncToSet inc
    ≫= (λ l, index l (Z.of_nat d * len inc * len inc + Z.of_nat i * len inc + Z.of_nat j))
  = Ok (IncToSet vd vx vy).
Proof.
  intros Hmax Hd Hi Hj. rewrite newIncToSet_eq by done. result_simpl.
  pose proof (lookup_lt_Some _ _ _ Hj). pose proof (lookup_lt_Some _ _ _ Hi).
  replace (_ + Z.of_nat j)
    with (Z.of_nat (d * (length inc * length inc) + (i * length inc + j)))
    by (list_len; lia).
  apply index_lookup. unfold incTriples.
  rewrite (lookup_bind_const _ _ (length inc * length inc) d _ vd); [| |done|nia].
  - rewrite (lookup_bind_const _ _ (length inc) i j vx); [|intros; apply length_fmap|done..].
    by rewrite list_lookup_fmap, Hj.
  - intros. apply length_bind_const. intros. apply length_fmap.
Qed.

(** the enumeration is sound and complete: a pair is enumerated exactly
    when both its components are arguments. *)
Theorem newIncSet_complete (inc : list Z) (p : incSet) :
  len inc * len inc ≤ Int.max_int →
  (∃ l, newIncSet inc = Ok l ∧ p ∈ l) ↔ is_x p ∈ inc ∧ is_y p ∈ inc.
Proof.
  intros Hmax. rewrite newIncSet_eq by done. unfold incPairs. split.
  - intros (l & [= <-] & (vx & (vy & -> & Hy)%list_elem_of_fmap & Hx)%list_elem_of_bind).
    done.
  - intros [Hx Hy]. eexists. split; [done|]. apply list_elem_of_bind.
    exists (is_x p). split; [|done]. apply list_elem_of_fmap. exists (is_y p).
    by destruct p.
Qed.

(** distinct arguments give distinct configurations: no trial is run
    twice. *)
Theorem newIncSet_NoDup (inc : list Z) :
  len inc * len inc ≤ Int.max_int → NoDup inc →
  ∃ l, newIncSet inc = Ok l ∧ NoDup l.
Proof.
  intros Hmax Hnd. rewrite newIncSet_eq by done. eexists. split; [done|].
  apply NoDup_bind; [|intros; apply NoDup_fmap_2; [by intros ?? [=]|done]|done].
  intros x1 x2 p _ _ (? & -> & _)%list_elem_of_fmap (? & [=] & _)%list_elem_of_fmap. done.
Qed.

(** the alignment sets of the unitary kernels are the offsets 0 and 1,
    their four pairs and their eight triples, in lexicographic order. *)
Theorem align_sets :
  align1 = [0; 1]
  ∧ align2 = Ok [IncSet 0 0; IncSet 0 1; IncSet 1 0; IncSet 1 1]
  ∧ align3 = Ok [IncToSet 0 0 0; IncToSet 0 0 1; IncToSet 0 1 0; IncToSet 0 1 1;
                 IncToSet 1 0 0; IncToSet 1 0 1; IncToSet 1 1 0; IncToSet 1 1 1].
Proof. by vm_compute. Qed.

(** ** Lemmas: random slices *)

Section random_lemmas.
Context `{Rand G}.

Lemma draws_length k r : length (draws k r).1 = k.
Proof.
  revert r. induction k as [|k IH]; intros r; [done|]. simpl.
  destruct (Float64 r) as [v r']. specialize (IH r'). destruct (draws k r'). simpl in *. lia.
Qed.

Lemma draws_add k1 k2 r :
  draws (k1 + k2) r
  = ((draws k1 r).1 ++ (draws k2 (draws k1 r).2).1, (draws k2 (draws k1 r).2).2).
Proof.
  revert r. induction k1 as [|k1 IH]; intros r; simpl.
  - by destruct (draws k2 r).
  - destruct (Float64 r) as [v r']. rewrite IH. by destruct (draws k1 r').
Qed.

Lemma draws_unit k r v : v ∈ (draws k r).1 → in_unit v = true.
Proof.
  revert r. induction k as [|k IH]; intros r; simpl; [by intros ?%elem_of_nil|].
  pose proof (Float64_unit r) as Hu. destruct (Float64 r) as [u r'].
  specialize (IH r'). destruct (draws k r'). simpl in *.
  intros [->|?]%elem_of_cons; auto.
Qed.

Lemma draws_drawn k (r : G) : draws k r = drawn Float64 k r.
Proof.
  revert r. induction k as [|k IH]; intros r; [done|]. simpl.
  destruct (Float64 r). by rewrite IH.
Qed.

Lemma fill_loop (l : list float64) i pre old (r : G) :
  length old = length l → len pre = i →
  range_from (λ i _ '(x, r),
    let '(v, r) := Float64 r in
    x ← store x i v; mret (x, r)) i l (pre ++ old, r)
  = Ok (pre ++ (draws (length l) r).1, (draws (length l) r).2).
Proof. intros. rewrite (range_from_drawn Float64) by done. by rewrite <- draws_drawn. Qed.

Lemma randSlice_eq n inc r :
  Int.min_int < inc ≤ Int.max_int → 1 ≤ n ≤ Int.max_int → (n - 1) * Z.abs inc + 1 ≤ Int.max_int →
  randSlice n inc r = Ok (draws (Z.to_nat ((n - 1) * Z.abs inc + 1)) r).
Proof.
  intros Hinc Hn Hmax. unfold randSlice.
  replace (if decide (inc < 0) then Int.neg inc else inc) with (Z.abs inc)
    by (case_decide; int_simpl; lia).
  pose proof (Z.abs_nonneg inc). set (a := Z.abs inc) in *. clearbody a.
  int_simpl. rewrite make_Ok by nia. result_simpl.
  rewrite <- (app_nil_l (replicate _ _)) at 2.
  rewrite fill_loop by done. rewrite length_replicate. by destruct (draws _ _).
Qed.

(** ** Theorems: the random slices *)

(** C39: [randSlice] returns a slice of [(n-1)*|inc|+1] elements holding the
    next values of the source in order, and the source advanced past them. *)
Theorem randSlice_spec n inc r :
  Int.min_int < inc ≤ Int.max_int → 1 ≤ n ≤ Int.max_int →
  (n - 1) * Z.abs inc + 1 ≤ Int.max_int →
  randSlice n inc r = Ok (draws (Z.to_nat ((n - 1) * Z.abs inc + 1)) r).
Proof. apply randSlice_eq. Qed.

(** every element of a random slice lies in the unit interval; none is
    NaN, so it cannot be mistaken for a guard. *)
Theorem randSlice_unit_interval n inc r x r' v :
  Int.min_int < inc ≤ Int.max_int → 1 ≤ n ≤ Int.max_int →
  (n - 1) * Z.abs inc + 1 ≤ Int.max_int →
  randSlice n inc r = Ok (x, r') → v ∈ x → in_unit v = true ∧ F64.IsNaN v = false.
Proof.
  intros Hinc Hn Hmax. rewrite randSlice_eq by done. intros [= E] Hv.
  assert (in_unit v = true) as Hu by (eapply draws_unit; by rewrite E).
  split; [done|]. by destruct v.
Qed.

(** two random slices drawn one after the other hold the values one
    draw of both lengths would: the source is consumed sequentially. *)
Theorem randSlice_sequential n1 n2 r x1 r1 x2 r2 :
  1 ≤ n1 → 1 ≤ n2 → n1 + n2 ≤ Int.max_int →
  randSlice n1 1 r = Ok (x1, r1) → randSlice n2 1 r1 = Ok (x2, r2) →
  randSlice (n1 + n2) 1 r = Ok (x1 ++ x2, r2).
Proof.
  intros Hn1 Hn2 Hmax.
  rewrite !randSlice_eq by (unfold Int.min_int, Int.max_int in *; lia).
  replace (Z.to_nat ((n1 + n2 - 1) * Z.abs 1 + 1))
    with (Z.to_nat ((n1 - 1) * Z.abs 1 + 1) + Z.to_nat ((n2 - 1) * Z.abs 1 + 1))%nat by lia.
  rewrite draws_add. intros [= ->]. cbn [fst snd]. by intros [= ->].
Qed.

(** C40: asked for no element at a stride of two or more, [randSlice] panics
    on a negative length. *)
Theorem randSlice_empty_panics inc r :
  2 ≤ Z.abs inc ≤ Int.max_int → randSlice 0 inc r = Panic MakeSliceLenOutOfRange.
Proof.
  intros Hinc. unfold randSlice.
  replace (if decide (inc < 0) then Int.neg inc else inc) with (Z.abs inc)
    by (case_decide; int_simpl; lia).
  set (a := Z.abs inc) in *. clearbody a. int_simpl. by rewrite make_panic by lia.
Qed.
End random_lemmas.

(** ** The theorems at concrete inputs *)

Lemma newIncSet_spec_witness : newIncSet incs3 = Ok (incPairs incs3).
Proof. apply (newIncSet_spec incs3); int_range. Defined.

Lemma newIncToSet_spec_witness : newIncToSet incs3 = Ok (incTriples incs3).
Proof. apply (newIncToSet_spec incs3); int_range. Defined.

Lemma newIncSet_lookup_witness :
  newIncSet incs3 ≫= (λ l, index l (Z.of_nat 2 * len incs3 + Z.of_nat 1)) = Ok (IncSet 4 (-2)).
Proof. apply (newIncSet_lookup incs3 2 1 4 (-2)); [int_range|done|done]. Defined.

Lemma newIncToSet_lookup_witness :
  newIncToSet incs3
    ≫= (λ l, index l (Z.of_nat 1 * len incs3 * len incs3 + Z.of_nat 2 * len incs3 + Z.of_nat 0))
  = Ok (IncToSet (-2) 4 1).
Proof. apply (newIncToSet_lookup incs3 1 2 0 (-2) 4 1); [int_range|done..]. Defined.

Lemma newIncSet_complete_witness :
  (∃ l, newIncSet incs3 = Ok l ∧ IncSet 4 1 ∈ l)
  ↔ is_x (IncSet 4 1) ∈ incs3 ∧ is_y (IncSet 4 1) ∈ incs3.
Proof. apply (newIncSet_complete incs3 (IncSet 4 1)); int_range. Defined.

Lemma newIncSet_NoDup_witness : ∃ l, newIncSet incs3 = Ok l ∧ NoDup l.
Proof.
  apply (newIncSet_NoDup incs3); [int_range|].
  by apply (bool_decide_unpack (NoDup incs3)).
Defined.

Lemma randSlice_spec_witness :
  randSlice 2 (-3) tape = Ok (draws (Z.to_nat ((2 - 1) * Z.abs (-3) + 1)) tape).
Proof. apply (randSlice_spec 2 (-3) tape); int_range. Defined.

Lemma randSlice_unit_interval_witness :
  in_unit F64.zero = true ∧ F64.IsNaN F64.zero = false.
Proof.
  apply (randSlice_unit_interval 2 2 tape (draws 3 tape).1 (draws 3 tape).2);
    [int_range..|done|].
  by apply (bool_decide_unpack (_ ∈ _)).
Defined.

Lemma randSlice_sequential_witness :
  randSlice (2 + 1) 1 tape
  = Ok ((draws 2 tape).1 ++ (draws 1 (draws 2 tape).2).1, (draws 1 (draws 2 tape).2).2).
Proof.
  apply (randSlice_sequential 2 1 tape _ (draws 2 tape).2); try int_range; done.
Defined.

Lemma randSlice_empty_panics_witness :
  randSlice 0 (-2) tape = Panic MakeSliceLenOutOfRange.
Proof. apply (randSlice_empty_panics (-2) tape). int_range. Defined.
