(* ===== verification/Dlasr.v ===== *)
(** * Dlasr: the reference-model cross-checker

    Models [DlasrTest] of [src/lapack/testlapack/dlasr.go]: the table of
    configurations it enumerates, the random matrix and rotations of a trial,
    the explicit rotation matrices [P_k] for the three pivot policies, their
    composition into [P] in the order the direction asks for, the product
    with [A] on the side under test and the comparison with what the
    implementation left.  The implementation under test ([Dlasrer]), the
    dense product ([Gemmer]) and the sine and cosine ([Trig]) are
    interfaces; the random source is [Rand] of [IncSet].  A matrix is its
    row-major data with its sizes, as [blas64.General] is.

    The theorems give each piece in closed form, show that a trial is the
    abstract trial [trialZero] on zero matrices, that its verdict with the
    reference product is whether [P] is finite, that rotations by no angle
    compose to the identity, and that the test returns on every
    configuration of its table. *)
From stdpp Require Import prelude.
From S2P Require Import Prelude.
From S2P Require Import Float64.
From S2P Require Import Oracle.
From S2P Require Import IncSet.
#[local] Open Scope Z_scope.
#[local] Open Scope go_scope.

(** ** Data *)

Module blas.
Inductive Side : Type := Left | Right.
Inductive Transpose : Type := NoTrans | Trans.
End blas.

Module lapack.
Inductive Pivot : Type := Variable_ | Top | Bottom.
Inductive Direct : Type := Forward | Backward.
End lapack.

Module blas64.
Record General : Type := MkGeneral {
  Rows : Z;
  Cols : Z;
  Stride : Z;
  Data : list float64;
}.
Definition with_Data (g : General) (d : list float64) : General :=
  MkGeneral (Rows g) (Cols g) (Stride g) d.
End blas64.

#[export] Instance Side_eq_dec : EqDecision blas.Side.
Proof. solve_decision. Defined.
#[export] Instance Transpose_eq_dec : EqDecision blas.Transpose.
Proof. solve_decision. Defined.
#[export] Instance Pivot_eq_dec : EqDecision lapack.Pivot.
Proof. solve_decision. Defined.
#[export] Instance Direct_eq_dec : EqDecision lapack.Direct.
Proof. solve_decision. Defined.

(** One row of the table of sizes, and one configuration of a trial. *)
Record test : Type := Test { t_m : Z; t_n : Z; t_lda : Z }.

Record config : Type := Config {
  cf_side : blas.Side;
  cf_pivot : lapack.Pivot;
  cf_direct : lapack.Direct;
  cf_test : test;
}.

#[export] Instance test_eq_dec : EqDecision test.
Proof. solve_decision. Defined.
#[export] Instance config_eq_dec : EqDecision config.
Proof. solve_decision. Defined.

(** Lines 75-78: the order of [P], the side of [A] the rotations act on. *)
Definition pSizeOf (side : blas.Side) (m n : Z) : Z :=
  if decide (side = blas.Right) then n else m.

(** ** Interfaces *)

(** The routine under test.  It is handed the slices [c], [s] and [a] and
    can write to each; it returns what they hold when it returns.  It cannot
    change their lengths ([DlasrerOk]). *)
Class Dlasrer : Type := {
  Dlasr : blas.Side → lapack.Pivot → lapack.Direct → Z → Z →
          list float64 → list float64 → list float64 → Z →
          result (list float64 * list float64 * list float64);
}.

Class DlasrerOk (impl : Dlasrer) : Prop := {
  Dlasr_length side pivot direct m n c s a lda c' s' a' :
    Dlasr side pivot direct m n c s a lda = Ok (c', s', a') →
    length c' = length c ∧ length s' = length s ∧ length a' = length a;
}.

(** An implementation returns when the sizes fit: [a] holds [m] rows of
    [lda >= max(1, n)] entries, [c] and [s] one entry per rotation. *)
Class DlasrerTotal (impl : Dlasrer) : Prop := {
  Dlasr_returns side pivot direct m n c s a lda :
    0 ≤ m → 0 ≤ n → Z.max 1 n ≤ lda → len a = m * lda →
    len c = pSizeOf side m n - 1 → len s = pSizeOf side m n - 1 →
    is_Ok (Dlasr side pivot direct m n c s a lda);
}.

(** An implementation reads the rotations and does not write them: the [c]
    and [s] it leaves are those it was given. *)
Class DlasrerKeeps (impl : Dlasrer) : Prop := {
  Dlasr_keeps side pivot direct m n c s a lda c' s' a' :
    Dlasr side pivot direct m n c s a lda = Ok (c', s', a') → c' = c ∧ s' = s;
}.

(** The dense product [C = alpha*A*B + beta*C]; it returns the data of [C],
    as long as [C]'s was ([GemmerOk]). *)
Class Gemmer : Type := {
  Gemm : blas.Transpose → blas.Transpose → float64 → blas64.General →
         blas64.General → float64 → blas64.General → result (list float64);
}.

Class GemmerOk (gemm : Gemmer) : Prop := {
  Gemm_length tA tB alpha a b beta c d :
    Gemm tA tB alpha a b beta c = Ok d → length d = length (blas64.Data c);
}.

Class Trig : Type := {
  Sin : float64 → float64;
  Cos : float64 → float64;
}.

(** [math.Pi], rounded to [float64]. *)
Definition Pi : float64 := SpecFloat.S754_finite false 7074237752028440 (-51).

Definition tol : float64 := Eval vm_compute in F64.lit 1 (-12).

(** ** Reference instances

    [gemm_ref] is the product as its contract states it, summed in index
    order; it refuses shapes that do not fit.  [still] and [quarter] answer
    the sine and cosine of no turn and of a quarter turn, whatever the
    angle; [idle] is an implementation that does nothing, [scribble] one
    that fills [a] with ones. *)
Definition shape_ok (g : blas64.General) : bool :=
  bool_decide (0 ≤ blas64.Rows g ∧ 0 ≤ blas64.Cols g ∧ blas64.Cols g ≤ blas64.Stride g
               ∧ 1 ≤ blas64.Stride g
               ∧ blas64.Rows g * blas64.Stride g ≤ len (blas64.Data g)).

Definition entry (g : blas64.General) (i j : Z) : float64 :=
  blas64.Data g !!! Z.to_nat (i * blas64.Stride g + j).

Definition dot (a b : blas64.General) (i j : Z) : float64 :=
  foldl (λ acc l, F64.add acc (F64.mul (entry a i l) (entry b l j)))
        F64.zero (seqZ 0 (blas64.Cols a)).

Definition gemm_data (alpha : float64) (a b : blas64.General) (beta : float64)
    (c : blas64.General) : list float64 :=
  imap (λ p old,
    let i := Z.of_nat p `div` blas64.Stride c in
    let j := Z.of_nat p `mod` blas64.Stride c in
    if bool_decide (i < blas64.Rows c ∧ j < blas64.Cols c)
    then if F64.is_zero beta then F64.mul alpha (dot a b i j)
         else F64.add (F64.mul alpha (dot a b i j)) (F64.mul beta old)
    else old) (blas64.Data c).

Definition gemm_ref (tA tB : blas.Transpose) (alpha : float64) (a b : blas64.General)
    (beta : float64) (c : blas64.General) : result (list float64) :=
  if negb (bool_decide (tA = blas.NoTrans ∧ tB = blas.NoTrans)
           && shape_ok a && shape_ok b && shape_ok c
           && bool_decide (blas64.Cols a = blas64.Rows b ∧ blas64.Rows c = blas64.Rows a
                           ∧ blas64.Cols c = blas64.Cols b))
  then Panic Raised
  else Ok (gemm_data alpha a b beta c).

(** A product returns when the three shapes are well formed and fit each
    other. *)
Class GemmerTotal (gemm : Gemmer) : Prop := {
  Gemm_returns alpha a b beta c :
    shape_ok a = true → shape_ok b = true → shape_ok c = true →
    blas64.Cols a = blas64.Rows b → blas64.Rows c = blas64.Rows a →
    blas64.Cols c = blas64.Cols b →
    is_Ok (Gemm blas.NoTrans blas.NoTrans alpha a b beta c);
}.

#[export] Instance reference_gemm : Gemmer := {| Gemm := gemm_ref |}.

Definition still : Trig := {| Sin _ := F64.zero; Cos _ := F64.one |}.
Definition quarter : Trig := {| Sin _ := F64.one; Cos _ := F64.zero |}.

Definition idle : Dlasrer := {| Dlasr _ _ _ _ _ c s a _ := Ok (c, s, a) |}.
Definition scribble : Dlasrer :=
  {| Dlasr _ _ _ _ _ c s a _ := Ok (c, s, replicate (length a) F64.one) |}.

(** ** Operations *)

Definition sides : list blas.Side := [blas.Left; blas.Right].
Definition pivots : list lapack.Pivot := [lapack.Variable_; lapack.Top; lapack.Bottom].
Definition directs : list lapack.Direct := [lapack.Forward; lapack.Backward].
Definition tests : list test :=
  [Test 5 5 0; Test 5 10 0; Test 10 5 0; Test 5 5 20; Test 5 10 20; Test 10 5 20].

Section trial.
Context {G : Type} {rand : Rand G} {impl : Dlasrer} {gemm : Gemmer} {trig : Trig}.

(** Lines 45-48: the matrix [A], filled from the source. *)
Definition randomMatrix (m lda : Z) (rnd : G) : result (list float64 * G) :=
  a ← make F64.zero (m ⊠ lda);
  range_from (λ i _ '(a, rnd),
    let '(v, rnd) := Float64 rnd in
    a ← store a i v; mret (a, rnd)) 0 a (a, rnd).

(** Lines 52-65: the sines and cosines of the rotations. *)
Definition randomRotations (side : blas.Side) (m n : Z) (rnd : G)
    : result (list float64 * list float64 * G) :=
  let k := if decide (side = blas.Left) then m ⊟ 1 else n ⊟ 1 in
  s ← make F64.zero k;
  c ← make F64.zero k;
  range_from (λ k _ '(s, c, rnd),
    let '(u, rnd) := Float64 rnd in
    let theta := F64.mul (F64.mul u F64.two) Pi in
    s ← store s k (Sin theta);
    c ← store c k (Cos theta);
    mret (s, c, rnd)) 0 s (s, c, rnd).

(** Lines 100-103: [P] and [ptmp] start as the identity. *)
Definition identityInit (pSize stride : Z) (p ptmp : list float64)
    : result (list float64 * list float64) :=
  for_lt 0 pSize (λ i '(p, ptmp),
    p ← store p (i ⊠ stride ⊞ i) F64.one;
    ptmp ← store ptmp (i ⊠ stride ⊞ i) F64.one;
    mret (p, ptmp)) (p, ptmp).

(** Lines 106-130: [P_k], the identity with the entries of the [k]-th
    rotation written over it at the place the pivot policy names. *)
Definition setPk (pivot : lapack.Pivot) (pSize stride k : Z) (c s p pk : list float64)
    : result (list float64) :=
  pk ← range_from (λ i _ pk, store pk i F64.zero) 0 p pk;
  pk ← for_lt 0 pSize (λ i pk, store pk (i ⊠ stride ⊞ i) F64.one) pk;
  match pivot with
  | lapack.Variable_ =>
      ck ← index c k; pk ← store pk (k ⊠ stride ⊞ k) ck;
      sk ← index s k; pk ← store pk (k ⊠ stride ⊞ k ⊞ 1) sk;
      sk ← index s k; pk ← store pk ((k ⊞ 1) ⊠ stride ⊞ k) (F64.neg sk);
      ck ← index c k; store pk ((k ⊞ 1) ⊠ stride ⊞ k ⊞ 1) ck
  | lapack.Top =>
      ck ← index c k; pk ← store pk 0 ck;
      sk ← index s k; pk ← store pk (k ⊞ 1) sk;
      sk ← index s k; pk ← store pk ((k ⊞ 1) ⊠ stride) (F64.neg sk);
      ck ← index c k; store pk ((k ⊞ 1) ⊠ stride ⊞ k ⊞ 1) ck
  | lapack.Bottom =>
      ck ← index c k; pk ← store pk ((pSize ⊟ 1 ⊟ k) ⊠ stride ⊞ pSize ⊟ k ⊟ 1) ck;
      sk ← index s k; pk ← store pk ((pSize ⊟ 1 ⊟ k) ⊠ stride ⊞ pSize ⊟ 1) sk;
      sk ← index s k; pk ← store pk ((pSize ⊟ 1) ⊠ stride ⊞ pSize ⊟ 1 ⊟ k) (F64.neg sk);
      ck ← index c k; store pk ((pSize ⊟ 1) ⊠ stride ⊞ pSize ⊟ 1) ck
  end.

(** Lines 131-136: [P <- P_k * P] or [P <- P * P_k], by the direction. *)
Definition gemmStep (direct : lapack.Direct) (pSize : Z) (pk ptmp p : list float64)
    : result (list float64) :=
  let gen := blas64.MkGeneral pSize pSize pSize in
  if decide (direct = lapack.Forward)
  then Gemm blas.NoTrans blas.NoTrans F64.one (gen pk) (gen ptmp) F64.zero (gen p)
  else Gemm blas.NoTrans blas.NoTrans F64.one (gen ptmp) (gen pk) F64.zero (gen p).

(** Lines 105-138: the rotations composed into [P], one product each. *)
Definition composeP (pivot : lapack.Pivot) (direct : lapack.Direct) (pSize : Z)
    (c s p pk ptmp : list float64) : result (list float64 * list float64 * list float64) :=
  range_from (λ k _ '(p, pk, ptmp),
    pk ← setPk pivot pSize pSize k c s p pk;
    p ← gemmStep direct pSize pk ptmp p;
    mret (p, pk, copy ptmp p)) 0 s (p, pk, ptmp).

(** Lines 75-138: the explicit matrix [P] of the whole sequence. *)
Definition buildP (side : blas.Side) (pivot : lapack.Pivot) (direct : lapack.Direct)
    (m n : Z) (c s : list float64) : result (list float64) :=
  let pSize := pSizeOf side m n in
  p ← make F64.zero (pSize ⊠ pSize);
  pk ← make F64.zero (pSize ⊠ pSize);
  ptmp ← make F64.zero (pSize ⊠ pSize);
  '(p, ptmp) ← identityInit pSize pSize p ptmp;
  '(p, _, _) ← composeP pivot direct pSize c s p pk ptmp;
  mret p.

(** Lines 38-162: one trial; [true] when the comparison passes. *)
Definition DlasrTrial (cf : config) (rnd : G) : result (bool * G) :=
  let '(Config side pivot direct (Test m n lda)) := cf in
  let lda := if decide (lda = 0) then n else lda in
  '(a, rnd) ← randomMatrix m lda rnd;
  '(s, c, rnd) ← randomRotations side m n rnd;
  aCopy ← make F64.zero (len a);
  let a := copy a aCopy in
  '(c, s, a) ← Dlasr side pivot direct m n c s a lda;
  p ← buildP side pivot direct m n c s;
  let pSize := pSizeOf side m n in
  let pMat := blas64.MkGeneral pSize pSize pSize p in
  aMatData ← make F64.zero (m ⊠ lda);
  let aMat := blas64.MkGeneral m n lda aMatData in
  let a := copy a aCopy in
  newAData ← make F64.zero (m ⊠ lda);
  let newA := blas64.MkGeneral m n lda newAData in
  newAData ← (if decide (side = blas.Left)
              then Gemm blas.NoTrans blas.NoTrans F64.one pMat aMat F64.zero newA
              else Gemm blas.NoTrans blas.NoTrans F64.one aMat pMat F64.zero newA);
  mret (EqualApprox newAData a tol, rnd).

(** Lines 160-162: a trial whose comparison fails is logged, and the test
    goes on. *)
Definition logTrial (cf : config) (st : list config * G) : result (list config * G) :=
  let '(errs, rnd) := st in
  '(ok, rnd) ← DlasrTrial cf rnd;
  mret (if (ok : bool) then errs else errs ++ [cf], rnd).

(** Lines 22-37: every trial in turn, on one source; the configurations
    whose comparison failed, in the order met. *)
Definition DlasrTest (rnd : G) : result (list config * G) :=
  range_from (λ _ side st,
    range_from (λ _ pivot st,
      range_from (λ _ direct st,
        range_from (λ _ test st,
          logTrial (Config side pivot direct test) st) 0 tests st) 0 directs st) 0 pivots st)
    0 sides ([], rnd).

End trial.

(** ** Reference definitions

    [identity] and [rotation] are the entries of the identity and of [P_k]:
    the identity with the four writes of the pivot policy over it, the last
    write outermost.  [composeRef] is the product the loop of [composeP]
    accumulates, with one matrix where the loop keeps [p] and its copy
    [ptmp], and [P_k] given by its entries.  [configs] is the table of
    trials. *)
Definition identity (i j : Z) : float64 := if decide (i = j) then F64.one else F64.zero.

Definition rotation (pivot : lapack.Pivot) (n k : Z) (ck sk : float64) : Z → Z → float64 :=
  match pivot with
  | lapack.Variable_ =>
      upd (upd (upd (upd identity k k ck) k (k + 1) sk) (k + 1) k (F64.neg sk))
          (k + 1) (k + 1) ck
  | lapack.Top =>
      upd (upd (upd (upd identity 0 0 ck) 0 (k + 1) sk) (k + 1) 0 (F64.neg sk))
          (k + 1) (k + 1) ck
  | lapack.Bottom =>
      upd (upd (upd (upd identity (n - 1 - k) (n - 1 - k) ck) (n - 1 - k) (n - 1) sk)
             (n - 1) (n - 1 - k) (F64.neg sk)) (n - 1) (n - 1) ck
  end.

(** [idlike n f]: the [n] by [n] matrix of entries [f] is the identity up to
    the sign of its zeros. *)
Definition idlike (n : Z) (f : Z → Z → float64) : Prop :=
  ∀ i j, 0 ≤ i < n → 0 ≤ j < n →
    if decide (i = j) then f i j = F64.one else F64.is_zero (f i j) = true.

Fixpoint composeRef `{Gemmer} (pivot : lapack.Pivot) (direct : lapack.Direct) (n : Z)
    (c s : list float64) (k : Z) (todo : list float64) (p : list float64)
    : result (list float64) :=
  match todo with
  | [] => Ok p
  | _ :: todo =>
      ck ← index c k;
      sk ← index s k;
      p ← gemmStep direct n (mat n (rotation pivot n k ck sk)) p p;
      composeRef pivot direct n c s (k + 1) todo p
  end.

(** The angle of a rotation, from a value of the source; and the sizes a
    trial can run on: a row of [A] holds its [n] entries, and the sizes of
    [A] and [P] are those of slices. *)
Definition theta (u : float64) : float64 := F64.mul (F64.mul u F64.two) Pi.

Definition trial_fits (cf : config) : bool :=
  let '(Config side _ _ (Test m n lda)) := cf in
  let lda := if decide (lda = 0) then n else lda in
  bool_decide (1 ≤ m ∧ 1 ≤ n ∧ n ≤ lda ∧ m * lda ≤ Int.max_int
               ∧ pSizeOf side m n * pSizeOf side m n ≤ Int.max_int).

Definition configs : list config :=
  side ← sides; pivot ← pivots; direct ← directs; Config side pivot direct <$> tests.

(** Two implementations agree on what the trial reads of them: both panic
    alike, or both return with the same [c] and [s]. *)
Definition agree (r1 r2 : result (list float64 * list float64 * list float64)) : Prop :=
  match r1, r2 with
  | Ok (c1, s1, _), Ok (c2, s2, _) => c1 = c2 ∧ s1 = s2
  | Panic e1, Panic e2 => e1 = e2
  | _, _ => False
  end.

(** Two implementations agree when they agree on every call. *)
Definition agree_impl (I1 I2 : Dlasrer) : Prop :=
  ∀ side pivot direct m n c s a lda,
    agree (Dlasr (Dlasrer := I1) side pivot direct m n c s a lda)
          (Dlasr (Dlasrer := I2) side pivot direct m n c s a lda).

(** A trial, abstractly.  [trialP] is the matrix [P] of a trial: what
    [buildP] makes of the rotations the implementation leaves in [c] and [s]
    when handed a zero matrix; the matrix and the rotations it was to test
    are the next values of the source.  [trialZero] is the trial without
    its slices [a], [aCopy], [aMat] and [newA]: the product of [P] with a
    zero matrix, compared with zeros. *)
Section abstract.
Context {G : Type} {rand : Rand G} {trig : Trig} {impl : Dlasrer} {gemm : Gemmer}.

Definition trialP (cf : config) (rnd : G) : result (list float64 * G) :=
  let '(Config side pivot direct (Test m n lda)) := cf in
  let lda := if decide (lda = 0) then n else lda in
  let a := draws (Z.to_nat (m * lda)) rnd in
  let u := draws (Z.to_nat (pSizeOf side m n - 1)) a.2 in
  '(c, s, _) ← Dlasr side pivot direct m n (Cos ∘ theta <$> u.1) (Sin ∘ theta <$> u.1)
                 (replicate (Z.to_nat (m * lda)) F64.zero) lda;
  p ← buildP side pivot direct m n c s;
  mret (p, u.2).

Definition trialZero (cf : config) (rnd : G) : result (bool * G) :=
  let '(Config side pivot direct (Test m n lda)) := cf in
  let lda := if decide (lda = 0) then n else lda in
  let pSize := pSizeOf side m n in
  '(p, rnd) ← trialP cf rnd;
  let zeros := replicate (Z.to_nat (m * lda)) F64.zero in
  let pMat := blas64.MkGeneral pSize pSize pSize p in
  let aMat := blas64.MkGeneral m n lda zeros in
  d ← (if decide (side = blas.Left)
       then Gemm blas.NoTrans blas.NoTrans F64.one pMat aMat F64.zero aMat
       else Gemm blas.NoTrans blas.NoTrans F64.one aMat pMat F64.zero aMat);
  mret (EqualApprox d zeros tol, rnd).
End abstract.

(** Whose panic it is.  [blamed e]: the implementation under test or the
    product panicked with [e] on arguments of sizes that fit (those
    [DlasrerTotal] and [GemmerTotal] speak of).  [blameless Q r]: the
    computation [r] returns a value that satisfies [Q], or panics with a
    panic that is theirs. *)
Section blame_def.
Context {impl : Dlasrer} {gemm : Gemmer}.

Definition blamed (e : panic) : Prop :=
  (∃ side pivot direct m n c s a lda,
     0 ≤ m ∧ 0 ≤ n ∧ Z.max 1 n ≤ lda ∧ len a = m * lda
     ∧ len c = pSizeOf side m n - 1 ∧ len s = pSizeOf side m n - 1
     ∧ Dlasr side pivot direct m n c s a lda = Panic e)
  ∨ (∃ alpha a b beta c,
       shape_ok a = true ∧ shape_ok b = true ∧ shape_ok c = true
       ∧ blas64.Cols a = blas64.Rows b ∧ blas64.Rows c = blas64.Rows a
       ∧ blas64.Cols c = blas64.Cols b
       ∧ Gemm blas.NoTrans blas.NoTrans alpha a b beta c = Panic e).

Definition blameless {A} (Q : A → Prop) (r : result A) : Prop :=
  match r with Ok x => Q x | Panic e => blamed e end.
End blame_def.

(** An implementation that panics on every call. *)
Definition faulty : Dlasrer := {| Dlasr _ _ _ _ _ _ _ _ _ := Panic Raised |}.

(** Concrete inputs: a recorded stream, and the cosines and sines of four
    rotations. *)
Definition tape200 : list float64 := Eval vm_compute in replicate 200 (F64.lit 5 (-1)).
Definition half : float64 := Eval vm_compute in F64.lit 5 (-1).
Definition c4 : list float64 := [half; F64.zero; F64.zero; F64.one].
Definition s4 : list float64 := [half; F64.one; F64.two; F64.zero].
Definition cf0 : config := Config blas.Left lapack.Variable_ lapack.Forward (Test 5 5 0).

(** ** Lemmas: the explicit rotation matrices *)

Lemma zeros_mat n : 0 ≤ n → replicate (Z.to_nat (n * n)) F64.zero = mat n (λ _ _, F64.zero).
Proof. intros. by rewrite mat_const. Qed.

(** One statement of [setPk]: the read of [c[k]] or [s[k]], or the store
    into the cell of rows and columns [a] or [b] that the index names. *)
Ltac setPk_step c s k ck sk a b :=
  first [ rewrite (index_bind c k ck) by done
        | rewrite (index_bind s k sk) by done
        | first [ rewrite (store_mat _ _ a a) by (lia || (int_simpl; lia))
                | rewrite (store_mat _ _ a b) by (lia || (int_simpl; lia))
                | rewrite (store_mat _ _ b a) by (lia || (int_simpl; lia))
                | rewrite (store_mat _ _ b b) by (lia || (int_simpl; lia)) ];
          rewrite ?result_bind_Ok ].

Lemma setPk_eq pivot n k c s p pk ck sk :
  0 ≤ k → k + 1 < n → n * n ≤ Int.max_int → len p = n * n → len pk = n * n →
  c !! Z.to_nat k = Some ck → s !! Z.to_nat k = Some sk →
  setPk pivot n n k c s p pk = Ok (mat n (rotation pivot n k ck sk)).
Proof.
  intros Hk Hn Hmax Hp Hpk Hc Hs. unfold setPk.
  rewrite range_from_fill_into by (unfold len in *; lia).
  replace (length pk) with (Z.to_nat (n * n)) by (unfold len in *; lia).
  rewrite zeros_mat, result_bind_Ok, for_lt_diag, result_bind_Ok by lia.
  clear Hp Hpk. destruct pivot.
  - do 8 setPk_step c s k ck sk k (k + 1). reflexivity.
  - do 8 setPk_step c s k ck sk 0 (k + 1). reflexivity.
  - do 8 setPk_step c s k ck sk (n - 1 - k) (n - 1). reflexivity.
Qed.

Lemma identityInit_eq n :
  0 ≤ n → n * n ≤ Int.max_int →
  identityInit n n (replicate (Z.to_nat (n * n)) F64.zero) (replicate (Z.to_nat (n * n)) F64.zero)
  = Ok (mat n identity, mat n identity).
Proof.
  intros Hn Hmax. unfold identityInit, for_lt. rewrite zeros_mat by done.
  pose proof (for_lt_diag n (λ _ _, F64.zero) F64.one Hn Hmax) as Hd.
  apply (range_from_pair (λ i _ w, store w (i ⊠ n ⊞ i) F64.one)
                         (λ i _ w, store w (i ⊠ n ⊞ i) F64.one)); exact Hd.
Qed.

Section spec.
Context {gemm : Gemmer} {gemm_ok : GemmerOk gemm}.

Lemma gemmStep_length direct n pk ptmp p p' :
  gemmStep direct n pk ptmp p = Ok p' → length p' = length p.
Proof. unfold gemmStep. case_decide; intros Hg; by apply Gemm_length in Hg. Qed.

(** The loop of [composeP] from its [k]-th iteration on, with [ptmp] the
    copy of [p] it is at the head of every iteration. *)
Lemma composeP_loop pivot direct n c s (k : Z) (todo : list float64) p pk :
  0 ≤ k → k + len todo < n → n * n ≤ Int.max_int → k + len todo ≤ len c →
  k + len todo ≤ len s → len p = n * n → len pk = n * n →
  (λ st, st.1.1) <$>
    range_from (λ k _ '(p, pk, ptmp),
      pk ← setPk pivot n n k c s p pk;
      p ← gemmStep direct n pk ptmp p;
      mret (p, pk, copy ptmp p)) k todo (p, pk, p)
  = composeRef pivot direct n c s k todo p.
Proof.
  revert k p pk. induction todo as [|t todo IH]; intros k p pk Hk Hn Hmax Hc Hs Hp Hpk; [done|].
  rewrite len_cons in *. pose proof (len_nonneg todo).
  destruct (lookup_lt_is_Some_2 c (Z.to_nat k)) as [ck Hck]; [unfold len in *; lia|].
  destruct (lookup_lt_is_Some_2 s (Z.to_nat k)) as [sk Hsk]; [unfold len in *; lia|].
  cbn [range_from composeRef].
  rewrite (setPk_eq pivot n k c s p pk ck sk), result_bind_Ok by (done || lia).
  rewrite (index_bind c k ck), (index_bind s k sk) by done.
  destruct (gemmStep _ _ _ _ _) as [p'|] eqn:Hg; [|done].
  rewrite !result_bind_Ok. apply gemmStep_length in Hg.
  rewrite copy_same_length by done.
  apply IH; try lia; [unfold len in *; lia|apply length_mat; lia].
Qed.

Lemma buildP_eq side pivot direct m n c s :
  let pSize := pSizeOf side m n in
  len s < pSize → pSize * pSize ≤ Int.max_int → len s ≤ len c →
  buildP side pivot direct m n c s
  = composeRef pivot direct pSize c s 0 s (mat pSize identity).
Proof.
  intros pSize Hs Hmax Hc. pose proof (len_nonneg s). unfold buildP. fold pSize.
  rewrite (int_mul_small pSize pSize) by int_range.
  rewrite make_Ok, !result_bind_Ok, identityInit_eq, result_bind_Ok by nia.
  rewrite <- (composeP_loop pivot direct pSize c s 0 s _
                (replicate (Z.to_nat (pSize * pSize)) F64.zero));
    try lia; [|apply length_mat; lia|list_len; nia].
  unfold composeP.
  by destruct (range_from _ _ _ _) as [[[??]?]|].
Qed.
End spec.

(** ** Lemmas: the random matrix and rotations *)

Section gen.
Context {G : Type} {rand : Rand G} {trig : Trig}.

Lemma randomMatrix_eq m lda (rnd : G) :
  0 ≤ m * lda ≤ Int.max_int →
  randomMatrix m lda rnd = Ok (draws (Z.to_nat (m * lda)) rnd).
Proof.
  intros H. unfold randomMatrix. rewrite int_mul_small by int_range.
  rewrite make_Ok, result_bind_Ok by lia.
  rewrite (fill_loop _ 0 [] (replicate (Z.to_nat (m * lda)) F64.zero)) by done.
  rewrite length_replicate. by destruct (draws _ _).
Qed.

Lemma rotations_loop (l : list float64) i ps os pc oc (r : G) :
  length os = length l → length oc = length l → len ps = i → len pc = i →
  range_from (λ k _ '(s, c, rnd),
    let '(u, rnd) := Float64 rnd in
    let theta := F64.mul (F64.mul u F64.two) Pi in
    s ← store s k (Sin theta);
    c ← store c k (Cos theta);
    mret (s, c, rnd)) i l (ps ++ os, pc ++ oc, r)
  = Ok (ps ++ (Sin ∘ theta <$> (draws (length l) r).1),
        pc ++ (Cos ∘ theta <$> (draws (length l) r).1), (draws (length l) r).2).
Proof.
  revert i ps os pc oc r.
  induction l as [|u l IH]; intros i ps os pc oc r Hos Hoc Hps Hpc.
  { destruct os, oc; done. }
  destruct os as [|o os], oc as [|o' oc]; try done. cbn [range_from length draws].
  destruct (Float64 r) as [v r']. rewrite !store_middle, !result_bind_Ok by done.
  rewrite (cons_middle _ ps os), (cons_middle _ pc oc), !app_assoc.
  rewrite (IH (i + 1) (ps ++ [_]) os (pc ++ [_]) oc r');
    [|simpl in *; lia|simpl in *; lia|list_len; lia|list_len; lia].
  destruct (draws (length l) r'). simpl. by rewrite <- !app_assoc.
Qed.

Lemma randomRotations_eq side m n (rnd : G) :
  let k := pSizeOf side m n - 1 in
  0 ≤ k < Int.max_int →
  randomRotations side m n rnd
  = Ok (Sin ∘ theta <$> (draws (Z.to_nat k) rnd).1,
        Cos ∘ theta <$> (draws (Z.to_nat k) rnd).1, (draws (Z.to_nat k) rnd).2).
Proof.
  intros k Hk. unfold randomRotations.
  replace (if decide (side = blas.Left) then m ⊟ 1 else n ⊟ 1) with k.
  2: { unfold k, pSizeOf in *. destruct side; repeat case_decide; try done; by int_simpl. }
  rewrite !make_Ok, !result_bind_Ok by lia.
  rewrite (rotations_loop _ 0 [] (replicate (Z.to_nat k) F64.zero)
             [] (replicate (Z.to_nat k) F64.zero)) by done.
  by rewrite length_replicate.
Qed.
Lemma rotations_length k (r : G) (f : float64 → float64) :
  length (f <$> (draws k r).1) = k.
Proof. by rewrite length_fmap, draws_length. Qed.
End gen.

(** ** Lemmas: what a trial reads of the implementation *)

#[export] Instance agree_equiv : Equivalence agree.
Proof.
  split.
  - by intros [[[??]?]|?].
  - intros [[[??]?]|?] [[[??]?]|?]; simpl; intuition congruence.
  - intros [[[??]?]|?] [[[??]?]|?] [[[??]?]|?]; simpl; intuition congruence.
Qed.

#[export] Instance agree_impl_equiv : Equivalence agree_impl.
Proof.
  split.
  - by intros I ?????????.
  - intros I1 I2 H ?????????. symmetry. apply H.
  - intros I1 I2 I3 H12 H23 ?????????. etrans; [apply H12|apply H23].
Qed.

Lemma DlasrTrial_agree {G} {rand : Rand G} (I1 I2 : Dlasrer) {ok1 : DlasrerOk I1}
    {ok2 : DlasrerOk I2} {gemm : Gemmer} {trig : Trig} cf (rnd : G) :
  (∀ side pivot direct m n c s a lda,
     agree (Dlasr (Dlasrer := I1) side pivot direct m n c s a lda)
           (Dlasr (Dlasrer := I2) side pivot direct m n c s a lda)) →
  DlasrTrial (impl := I1) cf rnd = DlasrTrial (impl := I2) cf rnd.
Proof.
  intros Hagree. destruct cf as [side pivot direct [m n lda]]. unfold DlasrTrial.
  destruct (randomMatrix _ _ _) as [[a r1]|]; [|done]. rewrite !result_bind_Ok.
  destruct (randomRotations _ _ _ _) as [[[s c] r2]|]; [|done]. rewrite !result_bind_Ok.
  rewrite (make_Ok F64.zero (len a)), !result_bind_Ok by auto with go.
  set (aCopy := replicate _ _). set (a0 := copy a aCopy).
  assert (length a0 = length aCopy) as Ha0.
  { unfold a0, aCopy. rewrite copy_length, length_replicate. unfold len. lia. }
  specialize (Hagree side pivot direct m n c s a0 (if decide (lda = 0) then n else lda)).
  destruct (Dlasr (Dlasrer := I1) _ _ _ _ _ _ _ _ _) as [[[c1 s1] a1]|] eqn:E1,
           (Dlasr (Dlasrer := I2) _ _ _ _ _ _ _ _ _) as [[[c2 s2] a2]|] eqn:E2;
    simpl in Hagree; try done; [|by subst].
  destruct Hagree as [-> ->]. rewrite !result_bind_Ok.
  apply Dlasr_length in E1 as (_ & _ & L1). apply Dlasr_length in E2 as (_ & _ & L2).
  by rewrite !(copy_same_length _ aCopy) by congruence.
Qed.

Lemma DlasrTest_flat {G} {rand : Rand G} {impl : Dlasrer} {gemm : Gemmer} {trig : Trig}
    (rnd : G) :
  DlasrTest rnd = range_from (λ _ cf, logTrial cf) 0 configs ([], rnd).
Proof.
  unfold DlasrTest, configs.
  apply (range_from_bind _ _ logTrial). intros side st.
  apply (range_from_bind _ (λ pivot st, _) logTrial). intros pivot st'.
  apply (range_from_bind _ (λ direct st, _) logTrial). intros direct st''.
  apply (range_from_fmap (Config side pivot direct) logTrial).
Qed.

(** The whole test cannot tell two implementations that agree apart. *)
Lemma DlasrTest_agree {G} {rand : Rand G} (I1 I2 : Dlasrer) {ok1 : DlasrerOk I1}
    {ok2 : DlasrerOk I2} {gemm : Gemmer} {trig : Trig} (rnd : G) :
  agree_impl I1 I2 → DlasrTest (impl := I1) rnd = DlasrTest (impl := I2) rnd.
Proof.
  intros Hagree. rewrite !DlasrTest_flat. apply range_from_proper; try done.
  intros _ cf [errs r]. unfold logTrial. by rewrite (DlasrTrial_agree I1 I2).
Qed.

(** ** Lemmas: a trial is a trial on the zero matrix *)

Section refine.
Context {G : Type} {rand : Rand G} {trig : Trig}.
Context {impl : Dlasrer} {impl_ok : DlasrerOk impl} {gemm : Gemmer}.

Lemma DlasrTrial_zero cf (rnd : G) :
  trial_fits cf = true → DlasrTrial cf rnd = trialZero cf rnd.
Proof.
  destruct cf as [side pivot direct [m n lda0]]. intros Hf.
  apply bool_decide_eq_true_1 in Hf. unfold DlasrTrial, trialZero, trialP.
  set (lda := if decide (lda0 = 0) then n else lda0) in *.
  set (pSize := pSizeOf side m n) in *.
  destruct Hf as (Hm & Hn & Hlda & Hmax & HP).
  assert (1 ≤ pSize ≤ Int.max_int) as HpS by (unfold pSize, pSizeOf; case_decide; nia).
  rewrite randomMatrix_eq by nia.
  pose proof (draws_length (Z.to_nat (m * lda)) rnd) as Ha.
  destruct (draws _ rnd) as [a r1]. rewrite !result_bind_Ok. cbn [fst snd] in *.
  rewrite randomRotations_eq by (fold pSize; lia). fold pSize.
  destruct (draws _ r1) as [u r2]. rewrite !result_bind_Ok. cbn [fst snd].
  rewrite (make_Ok F64.zero (len a)), result_bind_Ok by auto with go.
  replace (Z.to_nat (len a)) with (Z.to_nat (m * lda)) by (unfold len; lia).
  rewrite (copy_same_length a) by (by rewrite length_replicate).
  destruct (Dlasr _ _ _ _ _ _ _ _ _) as [[[c' s'] a']|] eqn:Hd; [|done].
  rewrite !result_bind_Ok. apply Dlasr_length in Hd as (_ & _ & La).
  rewrite copy_same_length by done.
  destruct (buildP _ _ _ _ _ _ _) as [p|]; [|done]. rewrite !result_bind_Ok.
  rewrite !(make_Ok F64.zero (m ⊠ lda)), !result_bind_Ok by (int_simpl; nia).
  by rewrite int_mul_small by int_range.
Qed.
End refine.

(** ** Lemmas: a trial returns *)

Section returns.
Context {G : Type} {rand : Rand G} {trig : Trig}.
Context {impl : Dlasrer} {impl_ok : DlasrerOk impl} {impl_total : DlasrerTotal impl}.
Context {gemm : Gemmer} {gemm_ok : GemmerOk gemm} {gemm_total : GemmerTotal gemm}.

Lemma shape_ok_intro r c st d :
  0 ≤ r → 0 ≤ c → c ≤ st → 1 ≤ st → r * st ≤ len d →
  shape_ok (blas64.MkGeneral r c st d) = true.
Proof. intros. by apply bool_decide_eq_true_2. Qed.

Lemma gemmStep_returns direct n pk ptmp p :
  1 ≤ n → len pk = n * n → len ptmp = n * n → len p = n * n →
  is_Ok (gemmStep direct n pk ptmp p).
Proof.
  intros. unfold gemmStep.
  case_decide; apply Gemm_returns; try done; apply shape_ok_intro; lia.
Qed.

Lemma composeRef_returns pivot direct n c s k todo p :
  1 ≤ n → 0 ≤ k → k + len todo ≤ len c → k + len todo ≤ len s → len p = n * n →
  ∃ p', composeRef pivot direct n c s k todo p = Ok p' ∧ len p' = n * n.
Proof.
  intros Hn. revert k p. induction todo as [|t todo IH]; intros k p Hk Hc Hs Hp; [by exists p|].
  rewrite len_cons in *. pose proof (len_nonneg todo).
  destruct (lookup_lt_is_Some_2 c (Z.to_nat k)) as [ck Hck]; [unfold len in *; lia|].
  destruct (lookup_lt_is_Some_2 s (Z.to_nat k)) as [sk Hsk]; [unfold len in *; lia|].
  cbn [composeRef]. rewrite (index_bind c k ck), (index_bind s k sk) by done.
  destruct (gemmStep_returns direct n (mat n (rotation pivot n k ck sk)) p p) as [p' Hg];
    [done|apply length_mat; lia|done|done|].
  rewrite Hg, result_bind_Ok. apply gemmStep_length in Hg.
  apply IH; [lia|lia|lia|unfold len in *; lia].
Qed.

Lemma buildP_returns side pivot direct m n c s :
  let pSize := pSizeOf side m n in
  1 ≤ pSize → pSize * pSize ≤ Int.max_int → len s = pSize - 1 → len c = pSize - 1 →
  ∃ p, buildP side pivot direct m n c s = Ok p ∧ len p = pSize * pSize.
Proof.
  intros pSize Hn Hmax Hs Hc. rewrite buildP_eq by (fold pSize; lia). fold pSize.
  apply composeRef_returns; [done|done|lia|lia|apply length_mat; lia].
Qed.

Lemma composeRef_length pivot direct n c s k todo p p' :
  composeRef pivot direct n c s k todo p = Ok p' → length p' = length p.
Proof.
  revert k p. induction todo as [|t todo IH]; intros k p; cbn [composeRef]; [by intros [= ->]|].
  destruct (index c k); [|done]. destruct (index s k); [|done]. rewrite !result_bind_Ok.
  destruct (gemmStep _ _ _ _ _) as [q|] eqn:Hg; [|done]. rewrite result_bind_Ok.
  intros ->%IH. by apply gemmStep_length in Hg.
Qed.

Lemma buildP_length side pivot direct m n c s p :
  let pSize := pSizeOf side m n in
  len s < pSize → pSize * pSize ≤ Int.max_int → len s ≤ len c →
  buildP side pivot direct m n c s = Ok p → len p = pSize * pSize.
Proof.
  intros pSize Hs Hmax Hc. rewrite buildP_eq by done. fold pSize.
  intros Hb%composeRef_length. pose proof (len_nonneg s).
  pose proof (length_mat pSize identity) as L. unfold len in *. rewrite Hb. apply L. lia.
Qed.

Lemma trialP_length side pivot direct m n lda (rnd : G) p r :
  trial_fits (Config side pivot direct (Test m n lda)) = true →
  trialP (Config side pivot direct (Test m n lda)) rnd = Ok (p, r) →
  len p = pSizeOf side m n * pSizeOf side m n.
Proof.
  intros (Hm & Hn & Hlda & Hmax & HP)%bool_decide_eq_true_1. unfold trialP.
  assert (1 ≤ pSizeOf side m n) as HpS by (unfold pSizeOf; destruct (decide (side = blas.Right)); lia).
  destruct (Dlasr _ _ _ _ _ _ _ _ _) as [[[c' s'] a']|] eqn:Hd; [|done].
  rewrite result_bind_Ok. apply Dlasr_length in Hd as (Lc & Ls & _).
  rewrite rotations_length in Lc, Ls.
  destruct (buildP _ _ _ _ _ _ _) as [q|] eqn:Hq; [|done]. intros [= -> _].
  apply buildP_length in Hq; [done|unfold len; lia..].
Qed.

Lemma trialP_returns cf (rnd : G) :
  trial_fits cf = true → is_Ok (trialP cf rnd).
Proof.
  destruct cf as [side pivot direct [m n lda0]].
  intros (Hm & Hn & Hlda & Hmax & HP)%bool_decide_eq_true_1. unfold trialP.
  set (lda := if decide (lda0 = 0) then n else lda0) in *.
  assert (1 ≤ pSizeOf side m n) as HpS by (unfold pSizeOf; destruct (decide (side = blas.Right)); lia).
  edestruct (Dlasr_returns side pivot direct m n) as [[[c' s'] a'] Hd]; last first.
  - rewrite Hd, result_bind_Ok. apply Dlasr_length in Hd as (Lc & Ls & _).
    rewrite rotations_length in Lc, Ls.
    destruct (buildP_returns side pivot direct m n c' s') as (p & -> & _);
      [done|done|unfold len; lia..|].
    by eexists.
  - unfold len. rewrite rotations_length. lia.
  - unfold len. rewrite rotations_length. lia.
  - rewrite len_replicate. nia.
  - lia.
  - lia.
  - lia.
Qed.

Lemma DlasrTrial_total cf (rnd : G) :
  trial_fits cf = true → is_Ok (DlasrTrial cf rnd).
Proof.
  intros Hf. rewrite DlasrTrial_zero by done.
  destruct cf as [side pivot direct [m n lda0]]. unfold trialZero.
  destruct (trialP_returns _ rnd Hf) as [[p r] Hp]. rewrite Hp, result_bind_Ok.
  apply trialP_length in Hp; [|done].
  apply bool_decide_eq_true_1 in Hf as (Hm & Hn & Hlda & Hmax & HP).
  set (lda := if decide (lda0 = 0) then n else lda0) in *.
  assert (is_Ok (if decide (side = blas.Left)
     then Gemm blas.NoTrans blas.NoTrans F64.one
            (blas64.MkGeneral (pSizeOf side m n) (pSizeOf side m n) (pSizeOf side m n) p)
            (blas64.MkGeneral m n lda (replicate (Z.to_nat (m * lda)) F64.zero)) F64.zero
            (blas64.MkGeneral m n lda (replicate (Z.to_nat (m * lda)) F64.zero))
     else Gemm blas.NoTrans blas.NoTrans F64.one
            (blas64.MkGeneral m n lda (replicate (Z.to_nat (m * lda)) F64.zero))
            (blas64.MkGeneral (pSizeOf side m n) (pSizeOf side m n) (pSizeOf side m n) p)
            F64.zero
            (blas64.MkGeneral m n lda (replicate (Z.to_nat (m * lda)) F64.zero)))) as [d ->].
  { unfold pSizeOf in *.
    destruct side; repeat case_decide; try done; apply Gemm_returns; try done;
      apply shape_ok_intro; autorewrite with go_len; lia. }
  by eexists.
Qed.
Lemma logTrial_loop (l : list config) i errs (rnd : G) :
  Forall (λ cf, trial_fits cf = true) l →
  ∃ errs' rnd', range_from (λ _ cf, logTrial cf) i l (errs, rnd) = Ok (errs ++ errs', rnd')
                ∧ errs' `sublist_of` l.
Proof.
  intros Hl. revert i errs rnd.
  induction Hl as [|cf l Hcf Hl IH]; intros i errs rnd.
  { exists [], rnd. by rewrite app_nil_r. }
  cbn [range_from]. unfold logTrial at 2.
  destruct (DlasrTrial_total cf rnd Hcf) as [[ok r1] ->]. rewrite !result_bind_Ok.
  destruct ok.
  - destruct (IH (i + 1) errs r1) as (errs' & r' & -> & Hs).
    exists errs', r'. split; [done|by apply sublist_cons].
  - destruct (IH (i + 1) (errs ++ [cf]) r1) as (errs' & r' & -> & Hs).
    exists (cf :: errs'), r'. rewrite <- app_assoc. split; [done|by apply sublist_skip].
Qed.

Lemma configs_fit : Forall (λ cf, trial_fits cf = true) configs.
Proof. apply (bool_decide_unpack _). vm_compute. exact I. Qed.

(** C6: [DlasrTest] returns: with an implementation and a product that
    return on well-formed sizes, whatever the source and the sines and
    cosines, no trial of the table panics, and the log holds configurations
    of the table, each at most once and in table order. *)
Theorem DlasrTest_returns (rnd : G) :
  ∃ errs rnd', DlasrTest rnd = Ok (errs, rnd') ∧ errs `sublist_of` configs.
Proof.
  rewrite DlasrTest_flat.
  destruct (logTrial_loop configs 0 [] rnd configs_fit) as (errs & r' & E & Hs).
  by exists errs, r'.
Qed.
End returns.

(** ** The reference instances keep the laws *)

#[export] Instance reference_gemm_ok : GemmerOk reference_gemm.
Proof.
  split. intros tA tB alpha a b beta c d. simpl. unfold gemm_ref.
  destruct (negb _); [done|]. intros [= <-]. apply length_imap.
Qed.

#[export] Instance idle_ok : DlasrerOk idle.
Proof. split. by intros; simplify_eq/=. Qed.

#[export] Instance scribble_ok : DlasrerOk scribble.
Proof. split. intros; simplify_eq/=. by rewrite length_replicate. Qed.

Lemma gemm_ref_Ok alpha a b beta c :
  shape_ok a = true → shape_ok b = true → shape_ok c = true →
  blas64.Cols a = blas64.Rows b → blas64.Rows c = blas64.Rows a →
  blas64.Cols c = blas64.Cols b →
  gemm_ref blas.NoTrans blas.NoTrans alpha a b beta c = Ok (gemm_data alpha a b beta c).
Proof.
  intros Ha Hb Hc H1 H2 H3. unfold gemm_ref.
  by rewrite Ha, Hb, Hc, !bool_decide_eq_true_2.
Qed.

#[export] Instance reference_gemm_total : GemmerTotal reference_gemm.
Proof. split. intros. simpl. rewrite gemm_ref_Ok by done. by eexists. Qed.

#[export] Instance idle_total : DlasrerTotal idle.
Proof. split. intros. by eexists. Qed.

#[export] Instance scribble_total : DlasrerTotal scribble.
Proof. split. intros. by eexists. Qed.

#[export] Instance idle_keeps : DlasrerKeeps idle.
Proof. split. by intros; simplify_eq/=. Qed.

#[export] Instance scribble_keeps : DlasrerKeeps scribble.
Proof. split. by intros; simplify_eq/=. Qed.

#[export] Instance faulty_ok : DlasrerOk faulty.
Proof. split. by intros; simplify_eq/=. Qed.

(** ** Lemmas: whose panic it is

    Every step of a trial that is the harness's own returns: allocations,
    loops, reads and stores stay within bounds on the configurations of the
    table.  So a trial returns or panics with a panic of the implementation
    or of the product, and [blameless] goes through a trial bind by bind. *)

Section blame.
Context {G : Type} {rand : Rand G} {trig : Trig}.
Context {impl : Dlasrer} {impl_ok : DlasrerOk impl}.
Context {gemm : Gemmer} {gemm_ok : GemmerOk gemm}.

Lemma blameless_bind {A B} (Q : A → Prop) (R : B → Prop) (r : result A) (f : A → result B) :
  blameless Q r → (∀ x, Q x → blameless R (f x)) → blameless R (r ≫= f).
Proof. destruct r; simpl; auto. Qed.

Lemma blameless_mono {A} (Q R : A → Prop) (r : result A) :
  blameless Q r → (∀ x, Q x → R x) → blameless R r.
Proof. destruct r; simpl; auto. Qed.

Lemma Gemm_blameless alpha a b beta c :
  shape_ok a = true → shape_ok b = true → shape_ok c = true →
  blas64.Cols a = blas64.Rows b → blas64.Rows c = blas64.Rows a →
  blas64.Cols c = blas64.Cols b →
  blameless (λ d, length d = length (blas64.Data c))
    (Gemm blas.NoTrans blas.NoTrans alpha a b beta c).
Proof.
  intros. destruct (Gemm _ _ _ _ _ _ _) as [d|e] eqn:Hg; simpl.
  - by apply Gemm_length in Hg.
  - right. by exists alpha, a, b, beta, c.
Qed.

Lemma Dlasr_blameless side pivot direct m n c s a lda :
  0 ≤ m → 0 ≤ n → Z.max 1 n ≤ lda → len a = m * lda →
  len c = pSizeOf side m n - 1 → len s = pSizeOf side m n - 1 →
  blameless (λ '(c', s', a'), length c' = length c ∧ length s' = length s
                              ∧ length a' = length a)
    (Dlasr side pivot direct m n c s a lda).
Proof.
  intros. destruct (Dlasr _ _ _ _ _ _ _ _ _) as [[[c' s'] a']|e] eqn:Hd; simpl.
  - by apply Dlasr_length in Hd.
  - left. by exists side, pivot, direct, m, n, c, s, a, lda.
Qed.

Lemma gemmStep_blameless direct n pk ptmp p :
  1 ≤ n → len pk = n * n → len ptmp = n * n → len p = n * n →
  blameless (λ p', len p' = n * n) (gemmStep direct n pk ptmp p).
Proof.
  intros Hn Hpk Hpt Hp. unfold gemmStep.
  case_decide; (eapply blameless_mono;
    [apply Gemm_blameless; try done; apply shape_ok_intro; lia
    |intros d Hd; simpl in Hd; unfold len in *; lia]).
Qed.

Lemma composeRef_blameless pivot direct n c s k todo p :
  1 ≤ n → 0 ≤ k → k + len todo ≤ len c → k + len todo ≤ len s → len p = n * n →
  blameless (λ p', len p' = n * n) (composeRef pivot direct n c s k todo p).
Proof.
  intros Hn. revert k p. induction todo as [|t todo IH]; intros k p Hk Hc Hs Hp; [done|].
  rewrite len_cons in *. pose proof (len_nonneg todo).
  destruct (lookup_lt_is_Some_2 c (Z.to_nat k)) as [ck Hck]; [unfold len in *; lia|].
  destruct (lookup_lt_is_Some_2 s (Z.to_nat k)) as [sk Hsk]; [unfold len in *; lia|].
  cbn [composeRef]. rewrite (index_bind c k ck), (index_bind s k sk) by done.
  eapply blameless_bind; [apply gemmStep_blameless; try done; apply length_mat; lia|].
  intros p' Hp'. cbv beta in Hp'. apply IH; lia.
Qed.

Lemma buildP_blameless side pivot direct m n c s :
  let pSize := pSizeOf side m n in
  1 ≤ pSize → pSize * pSize ≤ Int.max_int → len s = pSize - 1 → len c = pSize - 1 →
  blameless (λ p, len p = pSize * pSize) (buildP side pivot direct m n c s).
Proof.
  intros pSize Hn Hmax Hs Hc. rewrite buildP_eq by (fold pSize; lia). fold pSize.
  apply composeRef_blameless; [done|done|lia|lia|apply length_mat; lia].
Qed.

Lemma trialP_blameless side pivot direct m n lda (rnd : G) :
  trial_fits (Config side pivot direct (Test m n lda)) = true →
  blameless (λ pr, len pr.1 = pSizeOf side m n * pSizeOf side m n)
    (trialP (Config side pivot direct (Test m n lda)) rnd).
Proof.
  intros (Hm & Hn & Hlda & Hmax & HP)%bool_decide_eq_true_1. unfold trialP.
  set (ld := if decide (lda = 0) then n else lda) in *.
  assert (1 ≤ pSizeOf side m n) as HpS
    by (unfold pSizeOf; destruct (decide (side = blas.Right)); lia).
  eapply blameless_bind.
  { apply Dlasr_blameless; try lia; rewrite ?len_replicate; unfold len;
      rewrite ?rotations_length; nia. }
  intros [[c' s'] a'] (Lc & Ls & _). rewrite rotations_length in Lc, Ls.
  eapply blameless_bind; [apply buildP_blameless; unfold len; lia|]. by intros p Hp.
Qed.

Lemma DlasrTrial_blameless cf (rnd : G) :
  trial_fits cf = true → blameless (λ _, True) (DlasrTrial cf rnd).
Proof.
  intros Hf. rewrite DlasrTrial_zero by done.
  destruct cf as [side pivot direct [m n lda0]]. unfold trialZero.
  eapply blameless_bind; [by apply trialP_blameless|]. intros [p r] Hp. cbn [fst] in Hp.
  apply bool_decide_eq_true_1 in Hf as (Hm & Hn & Hlda & Hmax & HP).
  set (lda := if decide (lda0 = 0) then n else lda0) in *.
  eapply blameless_bind; [|by intros].
  unfold pSizeOf in *.
  destruct side; repeat case_decide; try done;
    (eapply blameless_mono; [apply Gemm_blameless|done]); try done;
    apply shape_ok_intro; autorewrite with go_len; lia.
Qed.

Lemma logTrial_blameless (l : list config) i st :
  Forall (λ cf, trial_fits cf = true) l →
  blameless (λ _, True) (range_from (λ _ cf, logTrial cf) i l st).
Proof.
  intros Hl. revert i st. induction Hl as [|cf l Hcf Hl IH]; intros i [errs rnd]; [done|].
  cbn [range_from]. apply (blameless_bind (λ _, True)); [|intros; apply IH].
  unfold logTrial. apply (blameless_bind (λ _, True)); [by apply DlasrTrial_blameless|].
  intros [ok r] _. exact I.
Qed.
End blame.

(** ** Lemmas: what the comparison of a trial tests

    The matrix the product is taken with is zero, so every entry of the
    product is a zero or NaN, by whether the row or column of [P] it is
    summed over is finite. *)

Lemma entry_zeros r c st N i j :
  entry (blas64.MkGeneral r c st (replicate N F64.zero)) i j = F64.zero.
Proof.
  unfold entry. simpl. rewrite list_lookup_total_alt.
  destruct (_ !! _) eqn:E; [by apply lookup_replicate in E as [-> _]|done].
Qed.

Lemma dot_zero_r a r c st N i j :
  zero_or_nan (dot a (blas64.MkGeneral r c st (replicate N F64.zero)) i j)
    (forallb (λ l, F64.is_finite (entry a i l)) (seqZ 0 (blas64.Cols a))).
Proof.
  apply (zero_or_nan_sum (λ l, F64.mul (entry a i l) _) (λ l, F64.is_finite (entry a i l))
           _ F64.zero true zero_or_nan_zero).
  intros l. rewrite entry_zeros. auto with f64.
Qed.

Lemma dot_zero_l r c st N b i j :
  zero_or_nan (dot (blas64.MkGeneral r c st (replicate N F64.zero)) b i j)
    (forallb (λ l, F64.is_finite (entry b l j)) (seqZ 0 c)).
Proof.
  apply (zero_or_nan_sum (λ l, F64.mul _ (entry b l j)) (λ l, F64.is_finite (entry b l j))
           _ F64.zero true zero_or_nan_zero).
  intros l. rewrite entry_zeros. auto with f64.
Qed.

Lemma verdict_lines a b (m n lda : Z) (line : Z → Z → bool) :
  0 ≤ m → 1 ≤ n → n ≤ lda →
  (∀ i j, zero_or_nan (dot a b i j) (line i j)) →
  forallb (λ x, scalar.EqualWithinAbsOrRel x F64.zero tol tol)
    (gemm_data F64.one a b F64.zero
       (blas64.MkGeneral m n lda (replicate (Z.to_nat (m * lda)) F64.zero))) = true
  ↔ ∀ i j, 0 ≤ i < m → 0 ≤ j < n → line i j = true.
Proof.
  intros Hm Hn Hlda Hd. rewrite forallb_lookup. unfold gemm_data.
  cbn [blas64.Data blas64.Stride blas64.Rows blas64.Cols F64.is_zero F64.zero].
  split.
  - intros H i j Hi Hj.
    assert (i * lda ≤ (m - 1) * lda) by (apply Z.mul_le_mono_nonneg_r; lia).
    assert (0 ≤ i * lda) by (apply Z.mul_nonneg_nonneg; lia).
    specialize (H (Z.to_nat (i * lda + j)) (F64.mul F64.one (dot a b i j))).
    rewrite list_lookup_imap, lookup_replicate_2, Z2Nat.id in H by lia.
    rewrite cell_div, cell_mod, bool_decide_eq_true_2 in H by lia.
    rewrite <- H by done. symmetry.
    by apply EqualWithinAbsOrRel_zero_or_nan, zero_or_nan_mul_one.
  - intros H k x. rewrite list_lookup_imap.
    destruct (replicate _ _ !! k) as [old|] eqn:E; [|done].
    apply lookup_replicate in E as [-> Hk]. intros [= <-].
    case_bool_decide as Hg; [|done].
    rewrite <- (H (Z.of_nat k `div` lda) (Z.of_nat k `mod` lda)).
    + by apply EqualWithinAbsOrRel_zero_or_nan, zero_or_nan_mul_one.
    + split; [apply Z.div_pos; lia|lia].
    + split; [apply Z.mod_pos_bound; lia|lia].
Qed.

Lemma verdict_Left m n lda p :
  1 ≤ m → 1 ≤ n → n ≤ lda → len p = m * m →
  forallb (λ x, scalar.EqualWithinAbsOrRel x F64.zero tol tol)
    (gemm_data F64.one (blas64.MkGeneral m m m p)
       (blas64.MkGeneral m n lda (replicate (Z.to_nat (m * lda)) F64.zero)) F64.zero
       (blas64.MkGeneral m n lda (replicate (Z.to_nat (m * lda)) F64.zero)))
  = forallb F64.is_finite p.
Proof.
  intros Hm Hn Hlda Hp. apply eq_true_iff_eq.
  rewrite (verdict_lines _ _ m n lda _ ltac:(lia) Hn Hlda (dot_zero_r _ m n lda _)).
  rewrite forallb_Forall, (lookup_total_square _ p m) by (done || lia).
  cbn [blas64.Cols]. setoid_rewrite forallb_seqZ. unfold entry. cbn [blas64.Data blas64.Stride].
  split; [intros H i l Hi Hl; apply (H i 0); lia|intros H i j Hi Hj l Hl; by apply H].
Qed.

Lemma verdict_Right m n lda p :
  1 ≤ m → 1 ≤ n → n ≤ lda → len p = n * n →
  forallb (λ x, scalar.EqualWithinAbsOrRel x F64.zero tol tol)
    (gemm_data F64.one
       (blas64.MkGeneral m n lda (replicate (Z.to_nat (m * lda)) F64.zero))
       (blas64.MkGeneral n n n p) F64.zero
       (blas64.MkGeneral m n lda (replicate (Z.to_nat (m * lda)) F64.zero)))
  = forallb F64.is_finite p.
Proof.
  intros Hm Hn Hlda Hp. apply eq_true_iff_eq.
  rewrite (verdict_lines _ _ m n lda _ ltac:(lia) Hn Hlda (λ i j, dot_zero_l m n lda _ _ i j)).
  rewrite forallb_Forall, (lookup_total_square _ p n) by (done || lia).
  setoid_rewrite forallb_seqZ. unfold entry. cbn [blas64.Data blas64.Stride].
  split; [intros H l j Hl Hj; apply (H 0 j); lia|intros H i j Hi Hj l Hl; by apply H].
Qed.

Section verdict.
Context {G : Type} {rand : Rand G} {trig : Trig} {impl : Dlasrer} {impl_ok : DlasrerOk impl}.

Lemma trialZero_verdict cf (rnd : G) :
  trial_fits cf = true →
  trialZero (gemm := reference_gemm) cf rnd
  = (λ '(p, rnd), (forallb F64.is_finite p, rnd)) <$> trialP (gemm := reference_gemm) cf rnd.
Proof.
  destruct cf as [side pivot direct [m n lda0]]. intros Hf. unfold trialZero.
  destruct (trialP _ _) as [[p r]|] eqn:Hp; [|done]. rewrite result_bind_Ok.
  apply trialP_length in Hp; [|done].
  apply bool_decide_eq_true_1 in Hf as (Hm & Hn & Hlda & Hmax & HP).
  set (lda := if decide (lda0 = 0) then n else lda0) in *.
  change (Gemm ?tA ?tB ?al ?x ?y ?be ?z) with (gemm_ref tA tB al x y be z).
  unfold pSizeOf in *. result_simpl.
  destruct side; repeat case_decide; try done;
    rewrite gemm_ref_Ok, result_bind_Ok
      by (try done; apply shape_ok_intro; autorewrite with go_len; lia);
    [rewrite <- (verdict_Left m n lda p) by lia
    |rewrite <- (verdict_Right m n lda p) by lia];
    do 2 f_equal; rewrite <- EqualApprox_const; f_equal; unfold gemm_data;
    cbn [blas64.Data]; by rewrite length_imap, length_replicate.
Qed.

Lemma DlasrTrial_verdict_eq cf (rnd : G) :
  trial_fits cf = true →
  DlasrTrial (gemm := reference_gemm) cf rnd
  = (λ '(p, rnd), (forallb F64.is_finite p, rnd)) <$> trialP (gemm := reference_gemm) cf rnd.
Proof. intros. by rewrite DlasrTrial_zero, trialZero_verdict. Qed.
End verdict.

(** ** Lemmas: rotations by no angle

    A rotation of cosine one and sine zero is the identity up to the sign
    of its zeros, and the reference product of two such matrices is the
    identity itself: every sum starts from the positive zero.  So the [P]
    of such rotations is the identity, and a trial on it passes. *)

Lemma idlike_diag n f i : idlike n f → 0 ≤ i < n → f i i = F64.one.
Proof. intros Hf Hi. specialize (Hf i i Hi Hi). by rewrite decide_True in Hf. Qed.

Lemma idlike_off n f i j :
  idlike n f → 0 ≤ i < n → 0 ≤ j < n → i ≠ j → F64.is_zero (f i j) = true.
Proof. intros Hf Hi Hj Hij. specialize (Hf i j Hi Hj). by rewrite decide_False in Hf. Qed.

Lemma idlike_finite n f i j :
  idlike n f → 0 ≤ i < n → 0 ≤ j < n → F64.is_finite (f i j) = true.
Proof.
  intros Hf Hi Hj. specialize (Hf i j Hi Hj). case_decide.
  - by rewrite Hf.
  - by apply f64_is_zero_finite.
Qed.

Lemma identity_idlike n : idlike n identity.
Proof. intros i j _ _. unfold identity. by case_decide. Qed.

Lemma identity_finite n : forallb F64.is_finite (mat n identity) = true.
Proof.
  apply forallb_Forall, Forall_fmap, Forall_forall. intros p _. simpl.
  unfold identity. by case_decide.
Qed.

Lemma rotation_idlike pivot n k sk :
  0 ≤ k → k + 1 < n → F64.is_zero sk = true → idlike n (rotation pivot n k F64.one sk).
Proof.
  intros Hk Hn Hs i j Hi Hj.
  destruct pivot; unfold rotation, upd, identity;
    repeat case_decide; try done; try lia; by rewrite ?f64_neg_is_zero.
Qed.

Lemma entry_mat n f i j :
  0 ≤ i < n → 0 ≤ j < n → entry (blas64.MkGeneral n n n (mat n f)) i j = f i j.
Proof.
  intros Hi Hj. unfold entry. simpl.
  by rewrite (list_lookup_total_correct _ _ _ (lookup_mat n f i j Hi Hj)).
Qed.

Lemma dot_idlike n f g i j :
  idlike n f → idlike n g → 0 ≤ i < n → 0 ≤ j < n →
  dot (blas64.MkGeneral n n n (mat n f)) (blas64.MkGeneral n n n (mat n g)) i j
  = identity i j.
Proof.
  intros Hf Hg Hi Hj. unfold dot, identity. simpl. case_decide as Hij.
  - subst j. apply (sum_one (λ l, F64.mul (entry _ i l) (entry _ l i)) n i Hi).
    + rewrite !entry_mat by done. rewrite !(idlike_diag n) by done. apply f64_mul_one_one.
    + intros l Hl Hne. rewrite !entry_mat by done.
      apply f64_mul_zero_l; [apply (idlike_off n)|apply (idlike_finite n)]; done.
  - apply sum_zeros. intros l Hl%elem_of_seqZ. rewrite !entry_mat by lia.
    destruct (decide (l = i)) as [->|Hne].
    + apply f64_mul_zero_r; [apply (idlike_finite n)|apply (idlike_off n)]; done || lia.
    + apply f64_mul_zero_l; [apply (idlike_off n)|apply (idlike_finite n)]; done || lia.
Qed.

Lemma f64_mul_one_identity i j : F64.mul F64.one (identity i j) = identity i j.
Proof. unfold identity. by case_decide. Qed.

Lemma gemm_data_idlike n f g p :
  1 ≤ n → len p = n * n → idlike n f → idlike n g →
  gemm_data F64.one (blas64.MkGeneral n n n (mat n f)) (blas64.MkGeneral n n n (mat n g))
    F64.zero (blas64.MkGeneral n n n p)
  = mat n identity.
Proof.
  intros Hn Hp Hf Hg.
  set (a := blas64.MkGeneral n n n (mat n f)). set (b := blas64.MkGeneral n n n (mat n g)).
  unfold gemm_data, mat.
  cbn [blas64.Stride blas64.Rows blas64.Cols blas64.Data F64.is_zero F64.zero].
  apply list_eq. intros q. rewrite list_lookup_imap, list_lookup_fmap.
  destruct (decide (q < length p)%nat) as [Hq|Hq].
  - destruct (lookup_lt_is_Some_2 p q Hq) as [old ->]. unfold len in Hp.
    rewrite lookup_seqZ_lt by lia. simpl. f_equal.
    assert (0 ≤ Z.of_nat q `div` n < n).
    { split; [apply Z.div_pos; lia|apply Z.div_lt_upper_bound; lia]. }
    assert (0 ≤ Z.of_nat q `mod` n < n) by (apply Z.mod_pos_bound; lia).
    rewrite bool_decide_eq_true_2 by lia.
    rewrite Z.add_0_l. unfold a, b. rewrite dot_idlike by done. apply f64_mul_one_identity.
  - rewrite lookup_ge_None_2 by lia. unfold len in Hp.
    by rewrite lookup_seqZ_ge by lia.
Qed.

Lemma gemmStep_idlike direct n f g p :
  1 ≤ n → len p = n * n → idlike n f → idlike n g →
  gemmStep (gemm := reference_gemm) direct n (mat n f) (mat n g) p = Ok (mat n identity).
Proof.
  intros Hn Hp Hf Hg. unfold gemmStep. simpl.
  case_decide; (rewrite gemm_ref_Ok;
    [by rewrite gemm_data_idlike|try (apply shape_ok_intro; rewrite ?length_mat by lia; lia)..]);
    done.
Qed.

Lemma composeRef_identity pivot direct n c s k todo :
  0 ≤ k → k + len todo < n → k + len todo ≤ len c → k + len todo ≤ len s →
  Forall (λ x, x = F64.one) c → Forall (λ x, F64.is_zero x = true) s →
  composeRef (H := reference_gemm) pivot direct n c s k todo (mat n identity)
  = Ok (mat n identity).
Proof.
  intros Hk Hn Hc Hs Hone Hzero. revert k Hk Hn Hc Hs.
  induction todo as [|t todo IH]; intros k Hk Hn Hc Hs; [done|].
  rewrite len_cons in *. pose proof (len_nonneg todo).
  destruct (lookup_lt_is_Some_2 c (Z.to_nat k)) as [ck Hck]; [unfold len in *; lia|].
  destruct (lookup_lt_is_Some_2 s (Z.to_nat k)) as [sk Hsk]; [unfold len in *; lia|].
  cbn [composeRef]. rewrite (index_bind c k ck), (index_bind s k sk) by done.
  rewrite (Forall_lookup_1 _ _ _ _ Hone Hck).
  rewrite gemmStep_idlike, result_bind_Ok;
    [apply IH; lia|lia|apply length_mat; lia| |apply identity_idlike].
  apply rotation_idlike; [lia|lia|]. apply (Forall_lookup_1 _ _ _ _ Hzero Hsk).
Qed.

Lemma buildP_identity side pivot direct m n c s :
  let pSize := pSizeOf side m n in
  len s < pSize → pSize * pSize ≤ Int.max_int → len s ≤ len c →
  Forall (λ x, x = F64.one) c → Forall (λ x, F64.is_zero x = true) s →
  buildP (gemm := reference_gemm) side pivot direct m n c s = Ok (mat pSize identity).
Proof.
  intros pSize Hs Hmax Hc Hone Hzero. rewrite buildP_eq by done. fold pSize.
  pose proof (len_nonneg s). apply composeRef_identity; done || lia.
Qed.

Section still.
Context {G : Type} {rand : Rand G}.
Context {impl : Dlasrer} {impl_ok : DlasrerOk impl} {impl_total : DlasrerTotal impl}.
Context {impl_keeps : DlasrerKeeps impl}.

Lemma trialP_still side pivot direct m n lda (rnd : G) :
  trial_fits (Config side pivot direct (Test m n lda)) = true →
  ∃ r, trialP (trig := still) (gemm := reference_gemm)
         (Config side pivot direct (Test m n lda)) rnd
       = Ok (mat (pSizeOf side m n) identity, r).
Proof.
  intros Hf.
  destruct (trialP_returns (trig := still) (gemm := reference_gemm) _ rnd Hf) as [[p r] Hp].
  exists r. rewrite Hp. revert Hp.
  apply bool_decide_eq_true_1 in Hf as (Hm & Hn & Hlda & Hmax & HP). unfold trialP.
  assert (1 ≤ pSizeOf side m n) by (unfold pSizeOf; destruct (decide (side = blas.Right)); lia).
  destruct (Dlasr _ _ _ _ _ _ _ _ _) as [[[c' s'] a']|] eqn:Hd; [|done].
  rewrite result_bind_Ok. apply Dlasr_keeps in Hd as [-> ->].
  rewrite buildP_identity.
  - by intros [= <- <-].
  - unfold len. rewrite rotations_length. lia.
  - lia.
  - unfold len. rewrite !rotations_length. lia.
  - by apply Forall_fmap, Forall_forall.
  - by apply Forall_fmap, Forall_forall.
Qed.

Lemma DlasrTrial_still cf (rnd : G) :
  trial_fits cf = true →
  ∃ r, DlasrTrial (trig := still) (gemm := reference_gemm) cf rnd = Ok (true, r).
Proof.
  intros Hf. rewrite DlasrTrial_verdict_eq by done.
  destruct cf as [side pivot direct [m n lda]].
  destruct (trialP_still side pivot direct m n lda rnd Hf) as [r ->].
  exists r. simpl. by rewrite identity_finite.
Qed.

Lemma logTrial_still (l : list config) i errs (rnd : G) :
  Forall (λ cf, trial_fits cf = true) l →
  ∃ r, range_from (λ _ cf, logTrial (trig := still) (gemm := reference_gemm) cf) i l (errs, rnd)
       = Ok (errs, r).
Proof.
  intros Hl. revert i rnd. induction Hl as [|cf l Hcf Hl IH]; intros i rnd; [by exists rnd|].
  cbn [range_from]. unfold logTrial at 2.
  destruct (DlasrTrial_still cf rnd Hcf) as [r1 ->]. rewrite !result_bind_Ok. apply IH.
Qed.
End still.

(** ** Lemmas: the entries of a rotation *)

Lemma rotation_Bottom_first n ck sk i j :
  rotation lapack.Bottom n 0 ck sk i j = upd identity (n - 1) (n - 1) ck i j.
Proof.
  unfold rotation, upd. rewrite Z.sub_0_r. repeat case_decide; try done; lia.
Qed.

Lemma f64_neg_involutive x : F64.neg (F64.neg x) = x.
Proof. destruct x as [[]|[]| |[] ??]; reflexivity. Qed.

Lemma rotation_transpose pivot n k ck sk i j :
  rotation pivot n k ck (F64.neg sk) i j = rotation pivot n k ck sk j i.
Proof.
  destruct pivot; unfold rotation, upd, identity; rewrite f64_neg_involutive;
    repeat case_decide; try done; lia.
Qed.

(** ** Theorems *)

(** C11: [setPk] returns, without panic, the identity with the entries of the
    [k]-th rotation at the cells its pivot policy names, whatever [pk] held
    before. *)
Theorem setPk_spec pivot n k c s p pk ck sk :
  0 ≤ k → k + 1 < n → n * n ≤ Int.max_int → len p = n * n → len pk = n * n →
  c !! Z.to_nat k = Some ck → s !! Z.to_nat k = Some sk →
  setPk pivot n n k c s p pk = Ok (mat n (rotation pivot n k ck sk)).
Proof. apply setPk_eq. Qed.

(** C22: with the pivot at the bottom the first rotation degenerates: its four
    writes fall on the last diagonal entry, so [P_0] is diagonal and holds
    no sine. *)
Theorem setPk_Bottom_first n c s p pk ck sk :
  1 < n → n * n ≤ Int.max_int → len p = n * n → len pk = n * n →
  c !! 0%nat = Some ck → s !! 0%nat = Some sk →
  setPk lapack.Bottom n n 0 c s p pk = Ok (mat n (upd identity (n - 1) (n - 1) ck)).
Proof.
  intros Hn Hmax Hp Hpk Hc Hs.
  rewrite (setPk_eq lapack.Bottom n 0 c s p pk ck sk) by (done || lia).
  f_equal. apply mat_ext; [lia|]. intros i j _ _. apply rotation_Bottom_first.
Qed.

(** C35: the rotation by the opposite angle is the transpose: with every sine
    negated [setPk] returns the transpose of [P_k]. *)
Theorem setPk_transpose pivot n k c s p pk ck sk :
  0 ≤ k → k + 1 < n → n * n ≤ Int.max_int → len p = n * n → len pk = n * n →
  c !! Z.to_nat k = Some ck → s !! Z.to_nat k = Some sk →
  setPk pivot n n k c (F64.neg <$> s) p pk
  = Ok (mat n (λ i j, rotation pivot n k ck sk j i)).
Proof.
  intros Hk Hn Hmax Hp Hpk Hc Hs.
  rewrite (setPk_eq pivot n k c _ p pk ck (F64.neg sk)); try done.
  - f_equal. apply mat_ext; [lia|]. intros i j _ _. apply rotation_transpose.
  - by rewrite list_lookup_fmap, Hs.
Qed.

Section spec_theorems.
Context {gemm : Gemmer} {gemm_ok : GemmerOk gemm}.

(** C13: [buildP] computes the product its reference recursion does: the
    identity multiplied by [P_0], [P_1], ... in turn, on the left when the
    direction is forward and on the right when it is backward; the copy
    [ptmp] and the scratch matrix [pk] it carries do not show. *)
Theorem buildP_spec side pivot direct m n c s :
  let pSize := if decide (side = blas.Right) then n else m in
  len s < pSize → pSize * pSize ≤ Int.max_int → len s ≤ len c →
  buildP side pivot direct m n c s
  = composeRef pivot direct pSize c s 0 s (mat pSize identity).
Proof. apply buildP_eq. Qed.

(** no rotation, no change: with an empty sequence [buildP] returns the
    identity. *)
Theorem buildP_no_rotations side pivot direct m n c :
  let pSize := if decide (side = blas.Right) then n else m in
  0 < pSize → pSize * pSize ≤ Int.max_int →
  buildP side pivot direct m n c [] = Ok (mat pSize identity).
Proof.
  intros pSize Hp Hmax. unfold pSize. rewrite buildP_eq; [done| |done|].
  - by change (len (@nil float64)) with 0.
  - change (len (@nil float64)) with 0. apply len_nonneg.
Qed.
End spec_theorems.

(** C15: rotations by no angle compose to the identity: with every cosine
    one and every sine a zero of either sign, [buildP] on the reference
    product returns the identity matrix exactly, for every pivot policy and
    direction. *)
Theorem buildP_trivial side pivot direct m n c s :
  let pSize := pSizeOf side m n in
  len s < pSize → pSize * pSize ≤ Int.max_int → len s ≤ len c →
  Forall (λ x, x = F64.one) c → Forall (λ x, F64.is_zero x = true) s →
  buildP (gemm := reference_gemm) side pivot direct m n c s = Ok (mat pSize identity).
Proof. apply buildP_identity. Qed.

(** C21: the rotations of a trial are the sines and cosines of the angles
    [u*2*Pi] of the next [pSize-1] values [u] of the source, in order, [s]
    and [c] entry by entry of the same angle. *)
Theorem randomRotations_spec {G} {rand : Rand G} {trig : Trig} side m n (rnd : G) :
  let k := pSizeOf side m n - 1 in
  0 ≤ k < Int.max_int →
  randomRotations side m n rnd
  = Ok (Sin ∘ theta <$> (draws (Z.to_nat k) rnd).1,
        Cos ∘ theta <$> (draws (Z.to_nat k) rnd).1, (draws (Z.to_nat k) rnd).2).
Proof. apply randomRotations_eq. Qed.

(** C3: the verdict of a trial is whether every entry of [P] is finite: the
    matrix the reference product is taken with and the matrix it is compared
    with are both zero, whatever the implementation did to [a]. *)
Theorem DlasrTrial_verdict {G} {rand : Rand G} {trig : Trig} {impl : Dlasrer}
    {impl_ok : DlasrerOk impl} cf (rnd : G) :
  trial_fits cf = true →
  DlasrTrial (gemm := reference_gemm) cf rnd
  = (λ '(p, rnd), (forallb F64.is_finite p, rnd)) <$> trialP (gemm := reference_gemm) cf rnd.
Proof. apply DlasrTrial_verdict_eq. Qed.

(** C4: a trial on a configuration of the table is the trial on zero
    matrices [trialZero]: the implementation is handed a zero matrix, and
    the product of [P] with a zero matrix is compared with zeros; the random
    matrix of the trial reaches neither. *)
Theorem DlasrTrial_refines {G} {rand : Rand G} {trig : Trig} {impl : Dlasrer}
    {impl_ok : DlasrerOk impl} {gemm : Gemmer} cf (rnd : G) :
  trial_fits cf = true → DlasrTrial cf rnd = trialZero cf rnd.
Proof. apply DlasrTrial_zero. Qed.

(** C5: a trial reads of the implementation whether it panics and what it
    left in [c] and [s], and nothing of what it left in [a]: two
    implementations that agree on those get the same verdict. *)
Theorem DlasrTrial_blind {G} {rand : Rand G} (I1 I2 : Dlasrer) {ok1 : DlasrerOk I1}
    {ok2 : DlasrerOk I2} {gemm : Gemmer} {trig : Trig} cf (rnd : G) :
  (∀ side pivot direct m n c s a lda,
     agree (Dlasr (Dlasrer := I1) side pivot direct m n c s a lda)
           (Dlasr (Dlasrer := I2) side pivot direct m n c s a lda)) →
  DlasrTrial (impl := I1) cf rnd = DlasrTrial (impl := I2) cf rnd.
Proof. by apply DlasrTrial_agree. Qed.

(** C8: a panic of [DlasrTest] is a panic of the implementation under test
    or of the product, on arguments of sizes that fit: the harness itself
    allocates, indexes and stores within bounds on all 72 configurations,
    whatever the source and the sines and cosines. *)
Theorem DlasrTest_panic_origin {G} {rand : Rand G} {trig : Trig} {impl : Dlasrer}
    {impl_ok : DlasrerOk impl} {gemm : Gemmer} {gemm_ok : GemmerOk gemm} (rnd : G) e :
  DlasrTest rnd = Panic e → blamed e.
Proof.
  rewrite DlasrTest_flat. intros He.
  pose proof (logTrial_blameless configs 0 ([], rnd) configs_fit) as Hp.
  by rewrite He in Hp.
Qed.

(** C7: with sines zero and cosines one the test passes every
    implementation that returns on well-formed sizes and leaves [c] and [s]
    as given, on every random source: [P] is the identity in each of the 72
    trials and nothing is logged, whatever the implementation left in
    [a]. *)
Theorem DlasrTest_still_passes {G} {rand : Rand G} {impl : Dlasrer} {impl_ok : DlasrerOk impl}
    {impl_total : DlasrerTotal impl} {impl_keeps : DlasrerKeeps impl} (rnd : G) :
  fst <$> DlasrTest (trig := still) (gemm := reference_gemm) rnd = Ok [].
Proof.
  rewrite DlasrTest_flat. by destruct (logTrial_still configs 0 [] rnd configs_fit) as [r ->].
Qed.

(** ** The theorems at concrete inputs *)

Lemma setPk_spec_witness :
  setPk lapack.Top 5 5 2 c4 s4 (replicate 25 F64.one) (replicate 25 F64.two)
  = Ok (mat 5 (rotation lapack.Top 5 2 F64.zero F64.two)).
Proof.
  apply (setPk_spec lapack.Top 5 2 c4 s4 (replicate 25 F64.one) (replicate 25 F64.two));
    (done || int_range).
Defined.

Lemma setPk_Bottom_first_witness :
  setPk lapack.Bottom 5 5 0 c4 s4 (replicate 25 F64.one) (replicate 25 F64.two)
  = Ok (mat 5 (upd identity (5 - 1) (5 - 1) half)).
Proof.
  apply (setPk_Bottom_first 5 c4 s4 (replicate 25 F64.one) (replicate 25 F64.two) _ half);
    (done || int_range).
Defined.

Lemma setPk_transpose_witness :
  setPk lapack.Variable_ 5 5 2 c4 (F64.neg <$> s4) (replicate 25 F64.one) (replicate 25 F64.two)
  = Ok (mat 5 (λ i j, rotation lapack.Variable_ 5 2 F64.zero F64.two j i)).
Proof.
  apply (setPk_transpose lapack.Variable_ 5 2 c4 s4 (replicate 25 F64.one)
           (replicate 25 F64.two)); (done || int_range).
Defined.

Lemma buildP_spec_witness :
  buildP (gemm := reference_gemm) blas.Right lapack.Bottom lapack.Backward 10 5 c4 s4
  = composeRef (H := reference_gemm) lapack.Bottom lapack.Backward 5 c4 s4 0 s4
      (mat 5 identity).
Proof.
  apply (buildP_spec (gemm := reference_gemm) blas.Right lapack.Bottom lapack.Backward
           10 5 c4 s4); by vm_compute.
Defined.

Lemma buildP_no_rotations_witness :
  buildP (gemm := reference_gemm) blas.Left lapack.Top lapack.Forward 1 5 [] []
  = Ok (mat 1 identity).
Proof.
  apply (buildP_no_rotations (gemm := reference_gemm) blas.Left lapack.Top lapack.Forward
           1 5 []); by vm_compute.
Defined.

Lemma DlasrTrial_blind_witness :
  DlasrTrial (rand := replay) (impl := idle) (gemm := reference_gemm) (trig := quarter)
    cf0 tape200
  = DlasrTrial (rand := replay) (impl := scribble) (gemm := reference_gemm)
      (trig := quarter) cf0 tape200.
Proof.
  apply (DlasrTrial_blind (rand := replay) idle scribble (gemm := reference_gemm)
           (trig := quarter) cf0 tape200).
  by intros.
Defined.

Lemma randomRotations_spec_witness :
  randomRotations (rand := replay) (trig := quarter) blas.Right 5 3 tape
  = Ok (@Sin quarter ∘ theta <$> (draws 2 tape).1, @Cos quarter ∘ theta <$> (draws 2 tape).1,
        (draws 2 tape).2).
Proof. apply (randomRotations_spec (rand := replay) (trig := quarter) blas.Right 5 3 tape). by vm_compute. Defined.

Lemma DlasrTest_returns_witness :
  ∃ errs rnd',
    DlasrTest (rand := replay) (impl := idle) (gemm := reference_gemm) (trig := still) tape200
    = Ok (errs, rnd') ∧ errs `sublist_of` configs.
Proof. apply (DlasrTest_returns (rand := replay) (impl := idle) (trig := still) tape200). Defined.

Lemma DlasrTrial_verdict_witness :
  DlasrTrial (rand := replay) (trig := still) (impl := idle) (gemm := reference_gemm) cf0 tape200
  = (λ '(p, rnd), (forallb F64.is_finite p, rnd))
      <$> trialP (rand := replay) (trig := still) (impl := idle) (gemm := reference_gemm)
            cf0 tape200.
Proof. apply (DlasrTrial_verdict (rand := replay) (trig := still) (impl := idle) cf0 tape200). reflexivity. Defined.

Lemma DlasrTrial_refines_witness :
  DlasrTrial (rand := replay) (trig := still) (impl := scribble) (gemm := reference_gemm)
    cf0 tape200
  = trialZero (rand := replay) (trig := still) (impl := scribble) (gemm := reference_gemm)
      cf0 tape200.
Proof.
  apply (DlasrTrial_refines (rand := replay) (trig := still) (impl := scribble) cf0 tape200).
  reflexivity.
Defined.

Lemma buildP_trivial_witness :
  buildP (gemm := reference_gemm) blas.Left lapack.Bottom lapack.Backward 3 5
    [F64.one; F64.one] [F64.zero; F64.neg F64.zero]
  = Ok (mat 3 identity).
Proof.
  apply (buildP_trivial blas.Left lapack.Bottom lapack.Backward 3 5
           [F64.one; F64.one] [F64.zero; F64.neg F64.zero]);
    [by vm_compute|by vm_compute|by vm_compute|by repeat constructor..].
Defined.

Lemma DlasrTest_still_passes_witness :
  fst <$> DlasrTest (rand := replay) (impl := scribble) (trig := still)
            (gemm := reference_gemm) tape200
  = Ok [].
Proof. apply (DlasrTest_still_passes (rand := replay) (impl := scribble) tape200). Defined.

Lemma DlasrTest_panic_origin_witness :
  blamed (impl := faulty) (gemm := reference_gemm) Raised.
Proof.
  apply (DlasrTest_panic_origin (rand := replay) (trig := still) (impl := faulty)
           (gemm := reference_gemm) tape200 Raised).
  vm_compute. reflexivity.
Defined.
