(* ===== verification/ChiSquared.v ===== *)
(** * ChiSquared: the tests of the chi-squared distribution

    Models [src/unnamed/part_000]: the tables of [TestChiSquaredProb] and
    [TestChiSquaredCDF] with the comparison each row goes through, and
    [TestChiSquared] with [testChiSquared], which samples a distribution and
    runs checks on it.  The distribution ([distuv.ChiSquared]) and the
    checks on the samples are not in [src/]: they are the interfaces
    [Distribution] and [SampleChecks], a method for each function the source
    calls, with the arguments the source passes.  A test returns the reports
    it logs; [t.Parallel()] has no counterpart.  The theorem says what
    [TestChiSquared] accepts: each check at the tolerance, bin count and
    bounds of the source, on the sorted samples of each distribution, drawn
    one after the other from one source. *)
From stdpp Require Import prelude.
From S2P Require Import Prelude.
From S2P Require Import Float64.
From S2P Require Import Oracle.
#[local] Open Scope Z_scope.
#[local] Open Scope go_scope.

(** ** Data *)

(** A row of a table: the argument [x], the degrees of freedom [k] and the
    value wanted. *)
Record row : Type := Row { r_x : float64; r_k : float64; r_want : float64 }.

#[export] Instance row_eq_dec : EqDecision row.
Proof. solve_decision. Defined.

(** The checks on the samples, by the function that makes them. *)
Inductive check : Type :=
| RandLogProbContinuous | Mean | VarAndStd | ExKurtosis | ProbContinuous
| QuantileCDFSurvival.

(** What [testChiSquared] can log. *)
Inductive chiError : Type :=
| SampleCheck (c : check)
| ModeMismatch (got want : float64)
| NumParametersNot1 (got : Z)
| SurvivalNot1 (got : float64).

#[export] Instance check_eq_dec : EqDecision check.
Proof. solve_decision. Defined.
#[export] Instance chiError_eq_dec : EqDecision chiError.
Proof. solve_decision. Defined.

(** ** Interfaces *)

(** The methods of [ChiSquared] the tests call, by the degrees of freedom
    [K]; [RandDraw] is the method [Rand], which draws one sample from the source of the distribution. *)
Class Distribution (G : Type) : Type := {
  Prob : float64 → float64 → float64;
  CDF : float64 → float64 → float64;
  Mode : float64 → float64;
  NumParameters : float64 → Z;
  Survival : float64 → float64 → float64;
  RandDraw : float64 → G → float64 * G;
}.

(** [sort.Float64s] and the six checks of the sorted samples, each with the
    arguments of its call but [t]; a check answers whether it logs an
    error. *)
Class SampleChecks : Type := {
  SortFloat64s : list float64 → list float64;
  testRandLogProbContinuous : Z → float64 → list float64 → float64 → float64 → Z → bool;
  checkMean : Z → list float64 → float64 → float64 → bool;
  checkVarAndStd : Z → list float64 → float64 → float64 → bool;
  checkExKurtosis : Z → list float64 → float64 → float64 → bool;
  checkProbContinuous : Z → list float64 → float64 → float64 → float64 → float64 → bool;
  checkQuantileCDFSurvival : Z → list float64 → float64 → float64 → bool;
}.

(** ** Operations *)

Definition tol10 : float64 := Eval vm_compute in F64.lit 1 (-10).

Definition probTests : list row :=
  [Row (F64.lit 10 0) (F64.lit 3 0) (F64.lit 85003666025203432 (-19));
   Row (F64.lit 23 (-1)) (F64.lit 3 0) (F64.lit 19157345407042367 (-17));
   Row (F64.lit 8 (-1)) (F64.lit 2 (-1)) (F64.lit 80363259903912673 (-18))].

Definition cdfTests : list row :=
  [Row (F64.lit 0 0) (F64.lit 1 0) (F64.lit 0 0);
   Row (F64.lit 1 (-2)) (F64.lit 5 0) (F64.lit 53002700426865167 (-23));
   Row (F64.lit 5 (-2)) (F64.lit 3 0) (F64.lit 2929332764619924 (-18));
   Row (F64.lit 5 (-1)) (F64.lit 2 0) (F64.lit 22119921692859512 (-17));
   Row (F64.lit 95 (-2)) (F64.lit 3 0) (F64.lit 1866520918701263 (-16));
   Row (F64.lit 99 (-2)) (F64.lit 5 0) (F64.lit 36631697220869196 (-18));
   Row (F64.lit 1 0) (F64.lit 1 0) (F64.lit 68268949213708596 (-17));
   Row (F64.lit 15 (-1)) (F64.lit 4 0) (F64.lit 17335853270322427 (-17));
   Row (F64.lit 10 0) (F64.lit 10 0) (F64.lit 55950671493478743 (-17));
   Row (F64.lit 25 0) (F64.lit 15 0) (F64.lit 95005656637357172 (-17))].

(** Lines 69-73 and the literals of lines 81-83 and 92: the constants of
    [testChiSquared]. *)
Module chi.
Definition tol : float64 := Eval vm_compute in F64.lit 1 (-2).
Definition n : Z := 1000000.
Definition bins : Z := 50.
Definition quantileTol : float64 := Eval vm_compute in F64.lit 1 (-2).
Definition kurtosisTol : float64 := Eval vm_compute in F64.lit 7 (-2).
Definition probTol : float64 := Eval vm_compute in F64.lit 1 (-5).
Definition negArg : float64 := Eval vm_compute in F64.lit (-1) (-5).
End chi.

Section tests.
Context {G : Type} {dist : Distribution G} {checks : SampleChecks}.

(** Lines 16-30: the rows whose density is off. *)
Definition TestChiSquaredProb : list row :=
  foldl (λ errs test,
    let pdf := Prob (r_k test) (r_x test) in
    if negb (scalar.EqualWithinAbsOrRel pdf (r_want test) tol10 tol10)
    then errs ++ [test] else errs) [] probTests.

(** Lines 32-54: the rows whose distribution function is off. *)
Definition TestChiSquaredCDF : list row :=
  foldl (λ errs test,
    let cdf := CDF (r_k test) (r_x test) in
    if negb (scalar.EqualWithinAbsOrRel cdf (r_want test) tol10 tol10)
    then errs ++ [test] else errs) [] cdfTests.

(** Line 75: [generateSamples] fills [x] with draws of the distribution. *)
Definition generateSamples (x : list float64) (K : float64) (src : G)
    : result (list float64 * G) :=
  range_from (λ i _ '(x, src),
    let '(v, src) := RandDraw K src in
    x ← store x i v; mret (x, src)) 0 x (x, src).

(** Lines 78-83: the six checks of the sorted samples, in order. *)
Definition sampleChecks (i : Z) (x : list float64) (K : float64) : list chiError :=
  let log (c : check) (failed : bool) := if failed then [SampleCheck c] else [] in
  log RandLogProbContinuous (testRandLogProbContinuous i F64.zero x K chi.tol chi.bins)
  ++ log Mean (checkMean i x K chi.tol)
  ++ log VarAndStd (checkVarAndStd i x K chi.tol)
  ++ log ExKurtosis (checkExKurtosis i x K chi.kurtosisTol)
  ++ log ProbContinuous
       (checkProbContinuous i x F64.zero (F64.Inf false) K chi.probTol)
  ++ log QuantileCDFSurvival (checkQuantileCDFSurvival i x K chi.quantileTol).

(** Lines 85-95: the mode, the number of parameters and the survival
    function at a negative argument. *)
Definition inlineChecks (K : float64) : list chiError :=
  let expectedMode := F64.Max (F64.sub K F64.two) F64.zero in
  let errs := if negb (F64.eqb (Mode K) expectedMode)
              then [ModeMismatch (Mode K) expectedMode] else [] in
  let errs := if negb (bool_decide (NumParameters K = 1))
              then errs ++ [NumParametersNot1 (NumParameters K)] else errs in
  let survival := Survival K chi.negArg in
  if negb (F64.eqb survival F64.one) then errs ++ [SurvivalNot1 survival] else errs.

(** Lines 68-96: one distribution. *)
Definition testChiSquared (K : float64) (src : G) (i : Z)
    : result (list chiError * G) :=
  x ← make F64.zero chi.n;
  '(x, src) ← generateSamples x K src;
  let x := SortFloat64s x in
  mret (sampleChecks i x K ++ inlineChecks K, src).

(** Lines 56-66: three distributions on one source. *)
Definition chiTests : list float64 :=
  Eval vm_compute in [F64.lit 3 0; F64.lit 15 (-1); F64.lit 9 (-1)].

Definition TestChiSquared (src : G) : result (list chiError * G) :=
  range_from (λ i K '(errs, src),
    '(e, src) ← testChiSquared K src i;
    mret (errs ++ e, src)) 0 chiTests ([], src).

End tests.

(** ** Reference definitions *)

(** What [testChiSquared] draws and logs: [samples n K src] is [n] samples
    of the distribution with [K] degrees of freedom drawn from [src], with
    the source after them; [reports i K src] is what the [i]-th distribution
    logs on its million samples.  [accepts i K x]: the sorted samples [x]
    of the [i]-th distribution pass the six checks, and the mode, the number
    of parameters and the survival function at [-0.00001] are as wanted. *)
Section reports.
Context {G : Type} {dist : Distribution G} {checks : SampleChecks}.

Definition samples (n : nat) (K : float64) (src : G) : list float64 * G :=
  drawn (RandDraw K) n src.

Definition reports (i : Z) (K : float64) (src : G) : list chiError :=
  sampleChecks i (SortFloat64s (samples (Z.to_nat chi.n) K src).1) K ++ inlineChecks K.

Definition accepts (i : Z) (K : float64) (x : list float64) : Prop :=
  testRandLogProbContinuous i F64.zero x K (F64.lit 1 (-2)) 50 = false
  ∧ checkMean i x K (F64.lit 1 (-2)) = false
  ∧ checkVarAndStd i x K (F64.lit 1 (-2)) = false
  ∧ checkExKurtosis i x K (F64.lit 7 (-2)) = false
  ∧ checkProbContinuous i x F64.zero (F64.Inf false) K (F64.lit 1 (-5)) = false
  ∧ checkQuantileCDFSurvival i x K (F64.lit 1 (-2)) = false
  ∧ F64.eqb (Mode K) (F64.Max (F64.sub K F64.two) F64.zero) = true
  ∧ NumParameters K = 1
  ∧ F64.eqb (Survival K (F64.lit (-1) (-5))) F64.one = true.
End reports.

(** The tables as [float64] values, bit for bit. *)
Definition probTests_bits : list row :=
  [Row (SpecFloat.S754_finite false 5629499534213120 (-49)) (SpecFloat.S754_finite false 6755399441055744 (-51)) (SpecFloat.S754_finite false 4900127726543773 (-59));
   Row (SpecFloat.S754_finite false 5179139571476070 (-51)) (SpecFloat.S754_finite false 6755399441055744 (-51)) (SpecFloat.S754_finite false 6902161090925111 (-55));
   Row (SpecFloat.S754_finite false 7205759403792794 (-53)) (SpecFloat.S754_finite false 7205759403792794 (-55)) (SpecFloat.S754_finite false 5790783157720631 (-56))].

Definition cdfTests_bits : list row :=
  [Row (SpecFloat.S754_zero false) (SpecFloat.S754_finite false 4503599627370496 (-52)) (SpecFloat.S754_zero false);
   Row (SpecFloat.S754_finite false 5764607523034235 (-59)) (SpecFloat.S754_finite false 5629499534213120 (-50)) (SpecFloat.S754_finite false 5005963519948174 (-73));
   Row (SpecFloat.S754_finite false 7205759403792794 (-57)) (SpecFloat.S754_finite false 6755399441055744 (-51)) (SpecFloat.S754_finite false 6754581476959475 (-61));
   Row (SpecFloat.S754_finite false 4503599627370496 (-53)) (SpecFloat.S754_finite false 4503599627370496 (-51)) (SpecFloat.S754_finite false 7969541687474132 (-55));
   Row (SpecFloat.S754_finite false 8556839292003942 (-53)) (SpecFloat.S754_finite false 6755399441055744 (-51)) (SpecFloat.S754_finite false 6724850331153795 (-55));
   Row (SpecFloat.S754_finite false 8917127262193582 (-53)) (SpecFloat.S754_finite false 5629499534213120 (-50)) (SpecFloat.S754_finite false 5279183934523371 (-57));
   Row (SpecFloat.S754_finite false 4503599627370496 (-52)) (SpecFloat.S754_finite false 4503599627370496 (-52)) (SpecFloat.S754_finite false 6149120284796667 (-53));
   Row (SpecFloat.S754_finite false 6755399441055744 (-52)) (SpecFloat.S754_finite false 4503599627370496 (-50)) (SpecFloat.S754_finite false 6245899386269894 (-55));
   Row (SpecFloat.S754_finite false 5629499534213120 (-49)) (SpecFloat.S754_finite false 5629499534213120 (-49)) (SpecFloat.S754_finite false 5039588465783198 (-53));
   Row (SpecFloat.S754_finite false 7036874417766400 (-48)) (SpecFloat.S754_finite false 8444249301319680 (-49)) (SpecFloat.S754_finite false 8557348796601821 (-53))].

(** A distribution whose mode, number of parameters and survival function
    at negative arguments are what the test expects, and nothing else; and
    checks that find nothing. *)
Definition expected : Distribution unit := {|
  Prob _ _ := F64.zero;
  CDF _ _ := F64.zero;
  Mode K := F64.Max (F64.sub K F64.two) F64.zero;
  NumParameters _ := 1;
  Survival _ x := if F64.ltb x F64.zero then F64.one else F64.zero;
  RandDraw _ src := (F64.one, src);
|}.

Definition noChecks : SampleChecks := {|
  SortFloat64s := id;
  testRandLogProbContinuous _ _ _ _ _ _ := false;
  checkMean _ _ _ _ := false;
  checkVarAndStd _ _ _ _ := false;
  checkExKurtosis _ _ _ _ := false;
  checkProbContinuous _ _ _ _ _ _ := false;
  checkQuantileCDFSurvival _ _ _ _ := false;
|}.

(** ** Lemmas *)

Section chi_lemmas.
Context {G : Type} {dist : Distribution G} {checks : SampleChecks}.

Lemma testChiSquared_eq K (src : G) i :
  testChiSquared K src i
  = Ok (reports i K src, (samples (Z.to_nat chi.n) K src).2).
Proof.
  unfold testChiSquared, generateSamples, reports, samples.
  rewrite make_Ok, result_bind_Ok by (by unfold chi.n).
  rewrite (range_from_drawn (RandDraw K) _ 0 [] (replicate (Z.to_nat chi.n) F64.zero)) by done.
  rewrite length_replicate, result_bind_Ok. by destruct (drawn _ _ _).
Qed.

Lemma TestChiSquared_eq (src : G) :
  let K1 := F64.lit 3 0 in let K2 := F64.lit 15 (-1) in let K3 := F64.lit 9 (-1) in
  let n := Z.to_nat chi.n in
  let src1 := (samples n K1 src).2 in
  let src2 := (samples n K2 src1).2 in
  TestChiSquared src
  = Ok (reports 0 K1 src ++ reports 1 K2 src1 ++ reports 2 K3 src2, (samples n K3 src2).2).
Proof.
  intros K1 K2 K3 n s1 s2. unfold TestChiSquared.
  change chiTests with [K1; K2; K3]. cbn [range_from].
  rewrite !testChiSquared_eq, !result_bind_Ok.
  rewrite testChiSquared_eq, !result_bind_Ok.
  rewrite testChiSquared_eq, !result_bind_Ok.
  by rewrite app_nil_l, <- app_assoc.
Qed.

Lemma Ok_nil_iff {A} (l : list A) : Ok l = Ok [] ↔ l = [].
Proof. split; [by intros [= ->]|by intros ->]. Qed.

Lemma log_nil {A} (b : bool) (e : A) : (if b then [e] else []) = [] ↔ b = false.
Proof. by destruct b. Qed.

Lemma log_not_nil {A} (b : bool) (e : A) (l : list A) :
  (if negb b then l ++ [e] else l) = [] ↔ b = true ∧ l = [].
Proof.
  destruct b; simpl; [split; [done|by intros [_ ?]]|].
  split; [intros H; by apply app_nil in H as [_ ?]|by intros [? _]].
Qed.

Lemma sampleChecks_nil i x K :
  sampleChecks i x K = [] ↔
  testRandLogProbContinuous i F64.zero x K chi.tol chi.bins = false
  ∧ checkMean i x K chi.tol = false ∧ checkVarAndStd i x K chi.tol = false
  ∧ checkExKurtosis i x K chi.kurtosisTol = false
  ∧ checkProbContinuous i x F64.zero (F64.Inf false) K chi.probTol = false
  ∧ checkQuantileCDFSurvival i x K chi.quantileTol = false.
Proof.
  unfold sampleChecks. cbv zeta. by rewrite !app_nil, !log_nil.
Qed.

Lemma inlineChecks_nil K :
  inlineChecks K = [] ↔
  F64.eqb (Mode K) (F64.Max (F64.sub K F64.two) F64.zero) = true
  ∧ NumParameters K = 1 ∧ F64.eqb (Survival K chi.negArg) F64.one = true.
Proof.
  unfold inlineChecks. rewrite !log_not_nil, bool_decide_eq_true.
  destruct (F64.eqb (Mode K) _); simpl; intuition congruence.
Qed.

Lemma reports_nil i K (src : G) :
  reports i K src = [] ↔ accepts i K (SortFloat64s (samples (Z.to_nat 1000000) K src).1).
Proof.
  unfold reports, accepts. rewrite app_nil, sampleChecks_nil, inlineChecks_nil.
  change chi.n with 1000000. tauto.
Qed.
End chi_lemmas.

(** ** Theorems *)

Section chi_theorems.
Context {G : Type} {dist : Distribution G} {checks : SampleChecks}.

(** C36: [TestChiSquared] logs nothing exactly when each of its three
    distributions, of 3, 1.5 and 0.9 degrees of freedom, is accepted: its
    million samples, drawn from where the samples of the one before
    stopped and then sorted, pass the six checks at the tolerances, the bin
    count and the bounds of the source, its mode equals [max(K-2, 0)], it has
    one parameter and its survival function is 1 at [-0.00001]. *)
Theorem TestChiSquared_passes (src : G) :
  let K1 := F64.lit 3 0 in let K2 := F64.lit 15 (-1) in let K3 := F64.lit 9 (-1) in
  let s1 := samples (Z.to_nat 1000000) K1 src in
  let s2 := samples (Z.to_nat 1000000) K2 s1.2 in
  let s3 := samples (Z.to_nat 1000000) K3 s2.2 in
  fst <$> TestChiSquared src = Ok [] ↔
  accepts 0 K1 (SortFloat64s s1.1) ∧ accepts 1 K2 (SortFloat64s s2.1)
  ∧ accepts 2 K3 (SortFloat64s s3.1).
Proof.
  intros K1 K2 K3 s1 s2 s3. unfold s3, s2, s1. rewrite <- !reports_nil, TestChiSquared_eq.
  cbv zeta. change chi.n with 1000000.
  change (fst <$> Ok (?l, ?r)) with (Ok (A := list chiError) l).
  rewrite Ok_nil_iff, !app_nil. exact (iff_refl _).
Qed.

(** [TestChiSquaredProb] logs exactly the rows of its table whose density
    is not within 1e-10 of the value wanted, in table order. *)
Theorem TestChiSquaredProb_spec :
  TestChiSquaredProb
  = filter (λ test, scalar.EqualWithinAbsOrRel (Prob (r_k test) (r_x test)) (r_want test)
                      tol10 tol10 = false) probTests.
Proof.
  unfold TestChiSquaredProb.
  rewrite (foldl_reject (λ test, negb (scalar.EqualWithinAbsOrRel _ _ tol10 tol10))).
  apply list_filter_iff. intros test. apply negb_true_iff.
Qed.

(** [TestChiSquaredCDF] logs nothing exactly when the distribution
    function is within 1e-10 of the value wanted on every row of its
    table. *)
Theorem TestChiSquaredCDF_passes :
  TestChiSquaredCDF = [] ↔
  Forall (λ test, scalar.EqualWithinAbsOrRel (CDF (r_k test) (r_x test)) (r_want test)
                    tol10 tol10 = true) cdfTests.
Proof.
  unfold TestChiSquaredCDF.
  rewrite (foldl_reject (λ test, negb (scalar.EqualWithinAbsOrRel _ _ tol10 tol10))).
  rewrite app_nil_l, filter_nil_iff. apply Forall_iff. intros test.
  rewrite negb_true_iff. by destruct (scalar.EqualWithinAbsOrRel _ _ _ _).
Qed.

(** At [K = NaN] the mode check logs a mismatch whatever the distribution
    answers: the mode expected is NaN, and nothing equals NaN. *)
Lemma inlineChecks_NaN :
  ModeMismatch (Mode F64.NaN) F64.NaN ∈ inlineChecks F64.NaN.
Proof.
  unfold inlineChecks. change (F64.Max (F64.sub F64.NaN F64.two) F64.zero) with F64.NaN.
  rewrite f64_eqb_nan_r. cbn [negb].
  repeat case_match; set_solver.
Qed.
End chi_theorems.

(** The decimal literals of the tables denote these [float64] values. *)
Lemma tables_bits : probTests = probTests_bits ∧ cdfTests = cdfTests_bits.
Proof. by vm_compute. Qed.

(** The modes [testChiSquared] expects of its three distributions are 1,
    0 and 0, and a distribution with the mode [max(K-2, 0)], one parameter
    and survival 1 at negative arguments passes the three inline checks. *)
Lemma inlineChecks_expected :
  Forall (λ K, inlineChecks (dist := expected) K = []) chiTests
  ∧ (λ K, F64.Max (F64.sub K F64.two) F64.zero) <$> chiTests = [F64.one; F64.zero; F64.zero].
Proof. split; [by repeat constructor|by vm_compute]. Qed.

(** ** The theorem at a concrete input *)

Lemma TestChiSquared_passes_witness :
  fst <$> TestChiSquared (dist := expected) (checks := noChecks) () = Ok [].
Proof.
  apply (proj2 (TestChiSquared_passes (dist := expected) (checks := noChecks) ())).
  repeat split; exact eq_refl.
Defined.
