(* ===== verification/Driver.v ===== *)
(** * Driver: the test of [Dlasr] as a run

    [DlasrTest] is a loop over a table that carries a log and the random
    source.  This file reads it as a transition system ([step] of [Steps]):
    a state holds the index of the next row, the rows still to try, the log
    and the source; a step is one trial.  The theorems: in every state a run
    reaches, the log holds rows already tried, in table order, and with the
    reference product each logged row is one whose matrix [P] had an entry
    that is not finite; and with an implementation and a product that
    return, every row of the table gets its turn and the run goes on to the
    end. *)
From stdpp Require Import prelude relations.
From S2P Require Import Prelude.
From S2P Require Import Steps.
From S2P Require Import Float64.
From S2P Require Import Oracle.
From S2P Require Import IncSet.
From S2P Require Import Dlasr.
#[local] Open Scope Z_scope.
#[local] Open Scope go_scope.

(** ** The transition system *)

Section dlasr_def.
Context {G : Type} {rand : Rand G} {impl : Dlasrer} {gemm : Gemmer} {trig : Trig}.

(** [DlasrTest] before its first trial, and one trial of it. *)
Definition dlasrInit (rnd : G) : loop config (list config * G) := Loop 0 configs ([], rnd).

Definition dlasrStep : relation (loop config (list config * G)) :=
  step (λ _ cf, logTrial cf).
End dlasr_def.

(** The log of [DlasrTest] in a state: rows already tried, in table order,
    and what is left of the table. *)
Definition log_inv (i : Z) (l : list config) (log : list config) : Prop :=
  ∃ k : nat, i = Z.of_nat k ∧ l = drop k configs ∧ log `sublist_of` take k configs.

(** A trial of [cf] whose [P] has an entry that is not finite, at some
    state of the source. *)
Definition overflows {G} {rand : Rand G} {trig : Trig} {impl : Dlasrer} (cf : config) : Prop :=
  ∃ (r : G) p r', trialP (gemm := reference_gemm) cf r = Ok (p, r')
                  ∧ forallb F64.is_finite p = false.

(** Concrete inputs: sines and cosines that are not numbers, and the state
    of [DlasrTest] after its first trial with them, on the recorded
    stream. *)
Definition wild : Trig := {| Sin _ := F64.NaN; Cos _ := F64.NaN |}.

Definition dlasrFirst : loop config (list config * list float64) :=
  Eval vm_compute in
    match logTrial (rand := replay) (impl := idle) (gemm := reference_gemm)
            (trig := wild) cf0 ([], tape200) with
    | Ok st => Loop 1 (drop 1 configs) st
    | Panic _ => Loop 0 configs ([], tape200)
    end.

(** ** Lemmas: [DlasrTest] *)

Section dlasr.
Context {G : Type} {rand : Rand G} {impl : Dlasrer} {gemm : Gemmer} {trig : Trig}.

Lemma logTrial_Ok cf log (r : G) st' :
  logTrial cf (log, r) = Ok st' ↔
  ∃ ok r', DlasrTrial cf r = Ok (ok, r') ∧ st' = (if ok : bool then log else log ++ [cf], r').
Proof.
  unfold logTrial. destruct (DlasrTrial cf r) as [[ok r']|]; simpl.
  - split; [intros [= <-]; by exists ok, r'|]. by intros (? & ? & [= <- <-] & ->).
  - split; [done|]. by intros (? & ? & ? & _).
Qed.

Lemma configs_length : length configs = 72%nat.
Proof. reflexivity. Qed.

Lemma log_inv_step i cf l (st st' : list config * G) :
  log_inv i (cf :: l) st.1 → logTrial cf st = Ok st' → log_inv (i + 1) l st'.1.
Proof.
  destruct st as [log r]. intros (k & -> & Hl & Hlog) (ok & r' & _ & ->)%logTrial_Ok.
  assert (configs !! k = Some cf) as Hk.
  { rewrite <- (Nat.add_0_r k), <- lookup_drop, <- Hl. done. }
  exists (Datatypes.S k). split; [lia|]. split.
  - rewrite (drop_S _ _ _ Hk) in Hl. by simplify_eq.
  - rewrite (take_S_r _ _ _ Hk). simpl.
    destruct ok; [by apply sublist_inserts_r|by apply sublist_app].
Qed.

Lemma dlasr_reachable (rnd : G) s :
  rtc dlasrStep (dlasrInit rnd) s → log_inv (pos s) (rest s) (acc s).1.
Proof.
  apply (run_invariant _ (λ i l st, log_inv i l st.1)).
  - intros i cf l st st'. apply log_inv_step.
  - exists 0%nat. by rewrite drop_0.
Qed.

Lemma DlasrTest_run (rnd : G) st :
  DlasrTest rnd = Ok st ↔ rtc dlasrStep (dlasrInit rnd) (Loop 72 [] st).
Proof. rewrite DlasrTest_flat. apply (range_from_steps _ 0 configs). Qed.

(** ** Every row gets its turn *)

Section live.
Context {impl_ok : DlasrerOk impl} {impl_total : DlasrerTotal impl}.
Context {gemm_ok : GemmerOk gemm} {gemm_total : GemmerTotal gemm}.

Lemma logTrial_returns cf (st : list config * G) :
  trial_fits cf = true → is_Ok (logTrial cf st).
Proof.
  destruct st as [log r]. intros [[ok r'] Hb]%(DlasrTrial_total _ r).
  eexists. apply logTrial_Ok. by exists ok, r'.
Qed.

(** C17: every row of the table gets its turn: with an implementation and a
    product that return on sizes that fit, a run of [DlasrTest] reaches the
    trial of the [k]-th row, whatever the rows before it did to the source,
    and goes on from there to the end of the table. *)
Theorem DlasrTest_live (rnd : G) (k : nat) cf :
  configs !! k = Some cf →
  ∃ st st',
    rtc dlasrStep (dlasrInit rnd) (Loop (Z.of_nat k) (cf :: drop (Datatypes.S k) configs) st)
    ∧ rtc dlasrStep (Loop (Z.of_nat k) (cf :: drop (Datatypes.S k) configs) st) (Loop 72 [] st')
    ∧ DlasrTest rnd = Ok st'.
Proof.
  intros Hk. pose proof (lookup_lt_Some _ _ _ Hk) as Hlt. rewrite configs_length in Hlt.
  set (I := λ (_ : Z) (l : list config) (_ : list config * G),
              Forall (λ cf, trial_fits cf = true) l).
  assert (∀ i x l st st', I i (x :: l) st → logTrial x st = Ok st' → I (i + 1) l st') as Hpres.
  { intros i x l st st' HI _. by apply Forall_cons in HI as [_ ?]. }
  assert (∀ i x l st, I i (x :: l) st → is_Ok (logTrial x st)) as Htotal.
  { intros i x l st [Hx _]%Forall_cons. by apply logTrial_returns. }
  destruct (run_reaches _ I Hpres Htotal 0 configs ([], rnd) k) as (st & Hrun & HI);
    [apply configs_fit|rewrite configs_length; lia|].
  rewrite Z.add_0_l, (drop_S _ _ _ Hk) in Hrun, HI.
  destruct (run_finishes _ I Hpres Htotal _ _ _ HI) as (st' & Hfin%range_from_steps & _).
  replace (Z.of_nat k + len (cf :: drop (Datatypes.S k) configs)) with 72 in Hfin
    by (rewrite len_cons; unfold len; rewrite length_drop, configs_length; lia).
  exists st, st'. split; [done|split; [done|]]. apply DlasrTest_run. by etrans.
Qed.
End live.
End dlasr.

(** ** Lemmas: what is logged *)

Section logged.
Context {G : Type} {rand : Rand G} {trig : Trig} {impl : Dlasrer} {impl_ok : DlasrerOk impl}.

Lemma logTrial_overflows cf log (r : G) st' :
  trial_fits cf = true → Forall overflows log →
  logTrial (gemm := reference_gemm) cf (log, r) = Ok st' → Forall overflows st'.1.
Proof.
  intros Hf Hlog (ok & r' & Ht & ->)%logTrial_Ok. rewrite DlasrTrial_verdict_eq in Ht by done.
  destruct (trialP cf r) as [[p r'']|] eqn:Hp; [|done]. injection Ht as <- <-.
  destruct (forallb F64.is_finite p) eqn:Hfin; [done|].
  apply Forall_app. split; [done|]. apply Forall_singleton. by exists r, p, r''.
Qed.

Lemma dlasr_logged (rnd : G) s :
  rtc (dlasrStep (gemm := reference_gemm)) (dlasrInit rnd) s → Forall overflows (acc s).1.
Proof.
  intros Hrun.
  apply (run_invariant _ (λ _ l st, Forall (λ cf, trial_fits cf = true) l
                                     ∧ Forall overflows st.1)) in Hrun as [_ ?]; [done| |].
  - intros i cf l [log r] st' [[Hcf Hl]%Forall_cons Hlog] Hb. split; [done|].
    by apply (logTrial_overflows cf log r).
  - split; [apply configs_fit|by apply Forall_nil].
Qed.

(** C9: in every state a run of [DlasrTest] on the reference product
    reaches, the rows left are the rest of the table, the log holds rows
    already tried, each at most once and in table order, and every row in
    the log is one whose trial built a matrix [P] with an entry that is not
    finite: nothing else makes a trial fail. *)
Theorem DlasrTest_log_invariant (rnd : G) s :
  rtc (dlasrStep (gemm := reference_gemm)) (dlasrInit rnd) s →
  0 ≤ pos s ≤ 72 ∧ rest s = drop (Z.to_nat (pos s)) configs
  ∧ (acc s).1 `sublist_of` take (Z.to_nat (pos s)) configs
  ∧ ∀ cf, cf ∈ (acc s).1 →
      ∃ (r : G) p r', trialP (gemm := reference_gemm) cf r = Ok (p, r')
                      ∧ forallb F64.is_finite p = false.
Proof.
  intros Hrun. destruct (run_position _ _ _ Hrun) as (k' & Hp & _ & Hle).
  change (length (rest (dlasrInit rnd))) with 72%nat in Hle.
  change (pos (dlasrInit rnd)) with 0 in Hp.
  pose proof (dlasr_logged rnd s Hrun) as Hlogged.
  apply dlasr_reachable in Hrun as (k & Hk & Hr & Hlog).
  rewrite Hk, Nat2Z.id in *. split; [lia|]. split; [done|]. split; [done|].
  by apply Forall_forall.
Qed.
End logged.

(** ** The theorems at concrete inputs *)

Lemma DlasrTest_log_invariant_witness :
  0 ≤ pos dlasrFirst ≤ 72 ∧ rest dlasrFirst = drop (Z.to_nat (pos dlasrFirst)) configs
  ∧ (acc dlasrFirst).1 `sublist_of` take (Z.to_nat (pos dlasrFirst)) configs
  ∧ ∀ cf, cf ∈ (acc dlasrFirst).1 →
      ∃ (r : list float64) p r',
        trialP (rand := replay) (trig := wild) (impl := idle) (gemm := reference_gemm) cf r
        = Ok (p, r')
        ∧ forallb F64.is_finite p = false.
Proof.
  apply (DlasrTest_log_invariant (rand := replay) (impl := idle) (trig := wild)
           tape200 dlasrFirst).
  apply rtc_once. apply (step_iter _ 0 cf0). vm_compute. reflexivity.
Defined.

Lemma DlasrTest_live_witness :
  ∃ st st',
    rtc (dlasrStep (rand := replay) (impl := idle) (gemm := reference_gemm) (trig := still))
      (dlasrInit tape200) (Loop 0 (cf0 :: drop 1 configs) st)
    ∧ rtc (dlasrStep (rand := replay) (impl := idle) (gemm := reference_gemm) (trig := still))
        (Loop 0 (cf0 :: drop 1 configs) st) (Loop 72 [] st')
    ∧ DlasrTest (rand := replay) (impl := idle) (gemm := reference_gemm) (trig := still)
        tape200 = Ok st'.
Proof.
  apply (DlasrTest_live (rand := replay) (impl := idle) (gemm := reference_gemm)
           (trig := still) tape200 0 cf0).
  reflexivity.
Defined.
